(** * The game-state reducer of boardgame.io ([src/core/reducer.js])

    A shallow embedding of [createGameReducer] and of the two reducers it
    builds, [GameFlow] and [GameReducer], over a small model of the
    JavaScript object heap.

    What is modelled, and how:
    - values are the JavaScript primitives and references to heap objects;
      numbers are the integers (arithmetic on them is exact, as it is on
      doubles inside the safe-integer range) and [NaN];
    - the heap is a list of objects, a location is an index in it, and
      allocation appends; plain objects are association lists from
      property names to values in insertion order (the language
      enumerates integer-like names first, which is not modelled), arrays
      are lists; objects are plain data: no prototypes of their own, no
      accessors, no [toJSON], no functions as values;
    - a computation takes a heap and either returns a value and a heap,
      throws, or leaves the modelled fragment of the language
      ([Unmodelled]: a coercion of an object to a primitive, a numeric
      string that is not a decimal integer literal, a property of an
      array or of a primitive, ...);
    - the game definition ([setup], [reducer], [victory], [flow]) is a
      record of such computations: the integrator's functions may read,
      allocate and mutate;
    - the reducer that [createGameReducer] returns is a closure over
      [game] and [initial]; it is modelled by the function [GameReducer]
      of these two;
    - the action-type constants come from [./action-types], which is not
      part of these sources; they are taken as a parameter [Actions].

    [createDispatchers], the other function of the file, builds callbacks
    around [store.dispatch] and [ActionCreators.makeMove], which are not
    part of these sources either; they are parameters of its model, and
    the object of callbacks it returns is a list of named functions. *)

From Stdlib Require Import ZArith String Ascii List Lia.
From Stdlib Require Import DecimalString DecimalZ DecimalPos.
From stdpp Require Import base option list.

Import ListNotations.
Local Open Scope string_scope.
Local Open Scope Z_scope.
Local Open Scope list_scope.

(** ** Values and the heap *)

(** Locations are indices in the heap. *)
Abbreviation loc := nat.

Inductive num :=
| Int (z : Z)
| NaN.

Inductive val :=
| VUndef
| VNull
| VBool (b : bool)
| VNum (n : num)
| VStr (s : string)
| VRef (l : loc).

Arguments VRef l%_nat.

Abbreviation props := (list (string * val)).

Inductive object :=
| Obj (ps : props)
| Arr (es : list val).

Abbreviation heap := (list object).

(** ** Computations *)

Inductive outcome (A : Type) :=
| Ok (a : A) (h : heap)
| Throw
| Unmodelled.

Arguments Ok {A} a h.
Arguments Throw {A}.
Arguments Unmodelled {A}.

Definition M (A : Type) := heap -> outcome A.

Definition ret {A} (a : A) : M A := fun h => Ok a h.

Definition bind {A B} (m : M A) (k : A -> M B) : M B :=
  fun h => match m h with
           | Ok a h' => k a h'
           | Throw => Throw
           | Unmodelled => Unmodelled
           end.

Definition throw {A} : M A := fun _ => Throw.

(** A pure operation that is only defined on the modelled fragment. *)
Definition modelled {A} (o : option A) : M A :=
  fun h => match o with Some a => Ok a h | None => Unmodelled end.

Declare Scope js_scope.
Delimit Scope js_scope with js.
Notation "'let*' x ':=' m 'in' k" := (bind m (fun x => k))
  (at level 10, x name, m at level 100, k at level 200) : js_scope.
Notation "m ';;' k" := (bind m (fun _ => k))
  (at level 100, k at level 200, right associativity) : js_scope.
Local Open Scope js_scope.

(** ** Primitive operations of the language *)

(** [ToBoolean]. *)
Definition truthy (v : val) : bool :=
  match v with
  | VUndef | VNull => false
  | VBool b => b
  | VNum (Int z) => negb (z =? 0)
  | VNum NaN => false
  | VStr s => negb (String.eqb s "")
  | VRef _ => true
  end.

(** Strict equality [===], the comparison a [switch] performs. *)
Definition strict_eq (a b : val) : bool :=
  match a, b with
  | VUndef, VUndef | VNull, VNull => true
  | VBool x, VBool y => Bool.eqb x y
  | VNum (Int x), VNum (Int y) => x =? y
  | VStr x, VStr y => String.eqb x y
  | VRef x, VRef y => Nat.eqb x y
  | _, _ => false
  end.

(** [Number::toString] on the modelled numbers. *)
Definition NumberToString (n : num) : string :=
  match n with
  | Int z => NilZero.string_of_int (Z.to_int z)
  | NaN => "NaN"
  end.

(** [StringToNumber] on the empty string and on decimal integer literals
    with an optional sign; every other string is outside the model (it
    may denote a fraction, a hexadecimal or padded literal, or [NaN]). *)
Definition StringToNumber (s : string) : option num :=
  match s with
  | "" => Some (Int 0)
  | String c s' =>
      if Ascii.eqb c "+" then
        match NilZero.uint_of_string s' with
        | Some d => Some (Int (Z.of_uint d))
        | None => None
        end
      else
        match NilZero.int_of_string s with
        | Some d => Some (Int (Z.of_int d))
        | None => None
        end
  end.

(** [ToNumber], the unary [+]. *)
Definition ToNumber (v : val) : option num :=
  match v with
  | VUndef => Some NaN
  | VNull => Some (Int 0)
  | VBool b => Some (Int (if b then 1 else 0))
  | VNum n => Some n
  | VStr s => StringToNumber s
  | VRef _ => None
  end.

(** [ToString] on primitives. *)
Definition ToString (v : val) : option string :=
  match v with
  | VUndef => Some "undefined"
  | VNull => Some "null"
  | VBool b => Some (if b then "true" else "false")
  | VNum n => Some (NumberToString n)
  | VStr s => Some s
  | VRef _ => None
  end.

Definition num_add (a b : num) : num :=
  match a, b with
  | Int x, Int y => Int (x + y)
  | _, _ => NaN
  end.

(** The remainder [%]: the sign of the dividend, [NaN] for a zero divisor. *)
Definition num_rem (a b : num) : num :=
  match a, b with
  | Int x, Int y => if y =? 0 then NaN else Int (Z.rem x y)
  | _, _ => NaN
  end.

Definition is_string (v : val) : bool :=
  match v with VStr _ => true | _ => false end.

(** The binary [+]: concatenation as soon as one operand is a string,
    numeric addition otherwise. *)
Definition js_add (a b : val) : option val :=
  if is_string a || is_string b then
    match ToString a, ToString b with
    | Some x, Some y => Some (VStr (String.append x y))
    | _, _ => None
    end
  else
    match ToNumber a, ToNumber b with
    | Some x, Some y => Some (VNum (num_add x y))
    | _, _ => None
    end.

(** The binary [%]. *)
Definition js_rem (a b : val) : option val :=
  match ToNumber a, ToNumber b with
  | Some x, Some y => Some (VNum (num_rem x y))
  | _, _ => None
  end.

(** ** Objects *)

Fixpoint lookup_prop (k : string) (ps : props) : option val :=
  match ps with
  | [] => None
  | (k', v) :: ps' => if String.eqb k k' then Some v else lookup_prop k ps'
  end.

(** Writing a property keeps its place when it exists and appends it
    otherwise. *)
Fixpoint set_prop (k : string) (v : val) (ps : props) : props :=
  match ps with
  | [] => [(k, v)]
  | (k', v') :: ps' =>
      if String.eqb k k' then (k, v) :: ps' else (k', v') :: set_prop k v ps'
  end.

Definition set_props (kvs ps : props) : props :=
  fold_left (fun acc kv => set_prop (fst kv) (snd kv) acc) kvs ps.

(** An object or array literal, evaluated. *)
Definition alloc (o : object) : M val :=
  fun h => Ok (VRef (length h)) (h ++ [o]).

(** [v.k] for the property names the reducers read; none of them is a
    member of [Object.prototype], so a miss on a plain object is
    [undefined].  Reading a property of [undefined] or [null] throws;
    properties of arrays and of primitives are not modelled. *)
Definition get (v : val) (k : string) : M val :=
  fun h =>
    match v with
    | VUndef | VNull => Throw
    | VRef l =>
        match h !! l with
        | Some (Obj ps) => Ok (default VUndef (lookup_prop k ps)) h
        | _ => Unmodelled
        end
    | _ => Unmodelled
    end.

(** [v.k = x] on a plain object. *)
Definition set (v : val) (k : string) (x : val) : M unit :=
  fun h =>
    match v with
    | VUndef | VNull => Throw
    | VRef l =>
        match h !! l with
        | Some (Obj ps) => Ok tt (<[l := Obj (set_prop k x ps)]> h)
        | _ => Unmodelled
        end
    | _ => Unmodelled
    end.

(** The own properties an object spread [{...v}] copies. *)
Definition own_props (v : val) : M props :=
  fun h =>
    match v with
    | VUndef | VNull | VBool _ | VNum _ => Ok [] h
    | VStr _ => Unmodelled
    | VRef l =>
        match h !! l with
        | Some (Obj ps) => Ok ps h
        | _ => Unmodelled
        end
    end.

(** [{...v, k1: x1, ..., kn: xn}]. *)
Definition object_spread (v : val) (kvs : props) : M val :=
  let* ps := own_props v in
  alloc (Obj (set_props kvs ps)).

(** The elements an array spread [[...v]] iterates; a value that is not
    iterable throws, and iterating a string is not modelled. *)
Definition elements (v : val) : M (list val) :=
  fun h =>
    match v with
    | VStr _ => Unmodelled
    | VRef l =>
        match h !! l with
        | Some (Arr es) => Ok es h
        | Some (Obj _) => Throw
        | None => Unmodelled
        end
    | _ => Throw
    end.

(** [[...v, x]]. *)
Definition array_spread_append (v x : val) : M val :=
  let* es := elements v in
  alloc (Arr (es ++ [x])).

(** A default parameter [p = d]. *)
Definition default_param (p : val) (d : M val) : M val :=
  match p with
  | VUndef => d
  | _ => ret p
  end.

(** ** JSON *)

#[warnings="-register-all"]
Inductive json :=
| JNull
| JBool (b : bool)
| JNum (z : Z)
| JStr (s : string)
| JArr (js : list json)
| JObj (fs : list (string * json)).

Section Serialize.
Context (ser : val -> option (option json)).

(** The properties of an object: those whose value serializes to
    [undefined] are left out. *)
Fixpoint ser_props (ps : props) : option (list (string * json)) :=
  match ps with
  | [] => Some []
  | (k, v) :: ps' =>
      match ser v, ser_props ps' with
      | Some (Some j), Some fs => Some ((k, j) :: fs)
      | Some None, Some fs => Some fs
      | _, _ => None
      end
  end.

(** The elements of an array: [undefined] becomes [null]. *)
Fixpoint ser_elems (es : list val) : option (list json) :=
  match es with
  | [] => Some []
  | v :: es' =>
      match ser v, ser_elems es' with
      | Some (Some j), Some js => Some (j :: js)
      | Some None, Some js => Some (JNull :: js)
      | _, _ => None
      end
  end.
End Serialize.

(** Serialization to depth [n].  The outer [None] is failure (the depth
    is exhausted, or a reference dangles); the inner [None] is the
    [undefined] that [JSON.stringify] gives for [undefined]. *)
Fixpoint ser (n : nat) (h : heap) (v : val) : option (option json) :=
  match v with
  | VUndef => Some None
  | VNull => Some (Some JNull)
  | VBool b => Some (Some (JBool b))
  | VNum (Int z) => Some (Some (JNum z))
  | VNum NaN => Some (Some JNull)
  | VStr s => Some (Some (JStr s))
  | VRef l =>
      match n with
      | O => None
      | S n' =>
          match h !! l with
          | Some (Obj ps) =>
              match ser_props (ser n' h) ps with
              | Some fs => Some (Some (JObj fs))
              | None => None
              end
          | Some (Arr es) =>
              match ser_elems (ser n' h) es with
              | Some js => Some (Some (JArr js))
              | None => None
              end
          | None => None
          end
      end
  end.

(** [JSON.stringify]: a chain of nested objects longer than the heap
    visits one of them twice, and on such a cycle [JSON.stringify] throws
    a [TypeError].  (A dangling reference, which the heaps of the language
    do not have, fails alike.) *)
Definition JSON_stringify (v : val) : M (option json) :=
  fun h => match ser (length h) h v with
           | Some r => Ok r h
           | None => Throw
           end.

(** Building the value a JSON text denotes; every object and array of it
    is allocated. *)
Fixpoint build (j : json) : M val :=
  match j with
  | JNull => ret VNull
  | JBool b => ret (VBool b)
  | JNum z => ret (VNum (Int z))
  | JStr s => ret (VStr s)
  | JArr js =>
      let* es :=
        (fix build_elems (js : list json) : M (list val) :=
           match js with
           | [] => ret []
           | j :: js' =>
               let* v := build j in
               let* vs := build_elems js' in
               ret (v :: vs)
           end) js in
      alloc (Arr es)
  | JObj fs =>
      let* ps :=
        (fix build_props (fs : list (string * json)) : M props :=
           match fs with
           | [] => ret []
           | (k, j) :: fs' =>
               let* v := build j in
               let* ps := build_props fs' in
               ret ((k, v) :: ps)
           end) fs in
      alloc (Obj (set_props ps []))
  end.

(** The two loops of [build], by themselves. *)
Fixpoint build_elems (js : list json) : M (list val) :=
  match js with
  | [] => ret []
  | j :: js' =>
      let* v := build j in
      let* vs := build_elems js' in
      ret (v :: vs)
  end.

Fixpoint build_props (fs : list (string * json)) : M props :=
  match fs with
  | [] => ret []
  | (k, j) :: fs' =>
      let* v := build j in
      let* ps := build_props fs' in
      ret ((k, v) :: ps)
  end.

(** [JSON.parse]; its argument [undefined] is not a JSON text. *)
Definition JSON_parse (t : option json) : M val :=
  match t with
  | Some j => build j
  | None => throw
  end.

(** ** The game definition and the action types *)

(** The return value of [Game()]: the integrator's [setup], [reducer] and
    [victory], the list of move names, and an optional [flow]. *)
Record Game := {
  setup : val -> M val;
  names : list string;
  reducer : val -> val -> val -> M val;
  victory : val -> val -> M val;
  flow : option (val -> val -> val -> M val)
}.

(** The constants of [./action-types]. *)
Record ActionTypes := {
  MAKE_MOVE : string;
  END_TURN : string;
  RESTORE : string
}.

(** ** [createGameReducer] *)

Section Reducer.
Variable Actions : ActionTypes.

(** [const deepCopy = obj => JSON.parse(JSON.stringify(obj))] *)
Definition deepCopy (obj : val) : M val :=
  let* t := JSON_stringify obj in
  JSON_parse t.

(** The definition substituted for an absent [game]. *)
Definition default_game : Game := {|
  setup := fun _ => alloc (Obj []);
  names := [];
  reducer := fun G _ _ => ret G;
  victory := fun _ _ => ret VNull;
  flow := None
|}.

(** [GameFlow], the default [flow]: the reducer that maintains [ctx]. *)
Definition GameFlow (game : Game) (ctx action G : val) : M val :=
  let* ctx := default_param ctx (alloc (Obj [])) in
  let* type := get action "type" in
  if strict_eq type (VStr (END_TURN Actions)) then
    (* Update winner. *)
    let* winner := victory game G ctx in
    (* Update current player. *)
    let* cp := get ctx "currentPlayer" in
    let* n := modelled (ToNumber cp) in
    let* n1 := modelled (js_add (VNum n) (VNum (Int 1))) in
    let* np := get ctx "numPlayers" in
    let* r := modelled (js_rem n1 np) in
    let* currentPlayer := modelled (js_add r (VStr "")) in
    (* Update turn. *)
    let* t := get ctx "turn" in
    let* turn := modelled (js_add t (VNum (Int 1))) in
    (* Return new ctx. *)
    object_spread ctx
      [("currentPlayer", currentPlayer); ("turn", turn); ("winner", winner)]
  else
    ret ctx.

(** [if (!game.flow) game.flow = GameFlow]: the game definition with
    the default [flow] installed when it has none. *)
Definition install_flow (game : Game) : Game :=
  match flow game with
  | Some _ => game
  | None => {|
      setup := setup game;
      names := names game;
      reducer := reducer game;
      victory := victory game;
      flow := Some (GameFlow game)
    |}
  end.

(** The [flow] of a game definition that went through [install_flow]. *)
Definition call_flow (game : Game) (ctx action G : val) : M val :=
  match flow game with
  | Some f => f ctx action G
  | None => throw
  end.

(** [GameReducer], the reducer [createGameReducer] returns; [game] and
    [initial] are the variables it closes over. *)
Definition GameReducer (game : Game) (initial : val)
    (state action : val) : M val :=
  let* state := default_param state (ret initial) in
  let* type := get action "type" in
  if strict_eq type (VStr (MAKE_MOVE Actions)) then
    let* sG := get state "G" in
    let* move := get action "move" in
    let* sctx := get state "ctx" in
    let* G := reducer game sG move sctx in
    let* slog := get state "log" in
    let* log := array_spread_append slog action in
    let* sid := get state "_id" in
    let* id := modelled (js_add sid (VNum (Int 1))) in
    object_spread state [("G", G); ("_id", id); ("log", log)]
  else if strict_eq type (VStr (END_TURN Actions)) then
    let* sctx := get state "ctx" in
    let* sG := get state "G" in
    let* ctx := call_flow game sctx action sG in
    let* slog := get state "log" in
    let* log := array_spread_append slog action in
    let* sid := get state "_id" in
    let* id := modelled (js_add sid (VNum (Int 1))) in
    object_spread state [("ctx", ctx); ("_id", id); ("log", log)]
  else if strict_eq type (VStr (RESTORE Actions)) then
    get action "state"
  else
    ret state.

(** [createGameReducer({game, numPlayers})]: an absent [game] is [None],
    an absent [numPlayers] is [undefined].  The result is what the
    returned closure captures: the game definition, with its [flow],
    and the [initial] state. *)
Definition createGameReducer (game : option Game) (numPlayers : val)
    : M (Game * val) :=
  let game := match game with Some g => g | None => default_game end in
  let numPlayers :=
    if negb (truthy numPlayers) then VNum (Int 2) else numPlayers in
  (* User managed state. *)
  let* G := setup game numPlayers in
  (* Framework managed state. *)
  let* ctx := alloc (Obj [("turn", VNum (Int 0));
                          ("currentPlayer", VStr "0");
                          ("numPlayers", numPlayers);
                          ("winner", VNull)]) in
  let* log := alloc (Arr []) in
  let* placeholder := alloc (Obj []) in
  let* initial := alloc (Obj [("G", G); ("ctx", ctx); ("log", log);
                              ("_id", VNum (Int 0));
                              ("_initial", placeholder)]) in
  let* snapshot := deepCopy initial in
  set initial "_initial" snapshot ;;
  let game := install_flow game in
  ret (game, initial).

End Reducer.

(** [v.k] as [get] computes it on a plain object with properties [ps]. *)
Definition prop (k : string) (ps : props) : val :=
  default VUndef (lookup_prop k ps).

(** ** The objects [createGameReducer] allocates *)

(** [numPlayers] after [if (!numPlayers) numPlayers = 2]. *)
Definition players (numPlayers : val) : val :=
  if negb (truthy numPlayers) then VNum (Int 2) else numPlayers.

Definition ctx_props (numPlayers : val) : props :=
  [("turn", VNum (Int 0)); ("currentPlayer", VStr "0");
   ("numPlayers", numPlayers); ("winner", VNull)].

(** The properties of [initial], with [ctx] at location [c], [log] after
    it, and [i] as [_initial]. *)
Definition initial_props (G : val) (c : loc) (i : val) : props :=
  [("G", G); ("ctx", VRef c); ("log", VRef (c + 1));
   ("_id", VNum (Int 0)); ("_initial", i)].

(** The four objects of the literal [initial], allocated from [c] on:
    [ctx], [log], the placeholder [{}] and [initial] itself. *)
Definition initial_objects (G numPlayers : val) (c : loc) : heap :=
  [Obj (ctx_props numPlayers); Arr []; Obj [];
   Obj (initial_props G c (VRef (c + 2)))].

(** The JSON text of [initial] when [deepCopy] is called; [r] is the text
    of [G], absent when [G] is [undefined]. *)
Definition initial_json (r : option json) (n : Z) : json :=
  JObj (match r with Some j => [("G", j)] | None => [] end ++
        [("ctx", JObj [("turn", JNum 0); ("currentPlayer", JStr "0");
                       ("numPlayers", JNum n); ("winner", JNull)]);
         ("log", JArr []);
         ("_id", JNum 0);
         ("_initial", JObj [])]).

(** The four objects of the snapshot that are not part of the copy of
    [G], allocated from [m] on; [gps] is the property [G] of the
    snapshot, absent when [G] is [undefined]. *)
Definition snapshot_props (gps : props) (m : loc) : props :=
  gps ++ [("ctx", VRef m); ("log", VRef (m + 1));
          ("_id", VNum (Int 0)); ("_initial", VRef (m + 2))].

Definition snapshot_objects (gps : props) (numPlayers : val) (m : loc)
    : heap :=
  [Obj (ctx_props numPlayers); Arr []; Obj []; Obj (snapshot_props gps m)].

(** The heap [createGameReducer] leaves, from the heap [h1] that [setup]
    left: the objects of [initial], the copy [ext] of [G], the objects of
    the snapshot, and [initial._initial] set to the snapshot. *)
Definition initialized (h1 : heap) (G numPlayers : val) (ext : heap)
    (gps : props) : heap :=
  let c := length h1 in
  let m := (c + 4 + length ext)%nat in
  <[(c + 3)%nat := Obj (initial_props G c (VRef (m + 3)))]>
    (h1 ++ initial_objects G numPlayers c ++ ext ++
     snapshot_objects gps numPlayers m).

(** ** Reachability and confinement *)

(** The locations a value, and an object, refer to. *)
Definition val_refs (v : val) : list loc :=
  match v with
  | VRef l => [l]
  | _ => []
  end.

Definition props_refs (ps : props) : list loc :=
  flat_map (fun kv => val_refs (snd kv)) ps.

Definition obj_refs (o : object) : list loc :=
  match o with
  | Obj ps => props_refs ps
  | Arr es => flat_map val_refs es
  end.

(** The locations a program that holds the roots [R] can reach. *)
Inductive reach (h : heap) (R : loc -> Prop) : loc -> Prop :=
| reach_root l : R l -> reach h R l
| reach_step l o l' :
    reach h R l -> h !! l = Some o -> In l' (obj_refs o) -> reach h R l'.

(** No reference of the heap, or of a value, dangles. *)
Definition wf_heap (h : heap) : Prop :=
  forall l o l', h !! l = Some o -> In l' (obj_refs o) -> (l' < length h)%nat.

Definition wf_val (h : heap) (v : val) : Prop :=
  forall l, In l (val_refs v) -> (l < length h)%nat.

(** The roots of a call: the locations [F] that the game definition
    holds by itself, and the arguments. *)
Definition roots (F : loc -> Prop) (vs : list val) : loc -> Prop :=
  fun l => F l \/ In (VRef l) vs.

(** A computation confined to the roots [R]: run in a heap without
    dangling references that contains the roots, it leaves such a heap,
    frees nothing, writes only to objects it can reach from [R], and
    makes no existing object reachable, from its result or from anywhere
    else, that was not reachable before.  [rf] gives the references of
    the result. *)
Definition confined {A} (rf : A -> list loc) (R : loc -> Prop) (m : M A)
    : Prop :=
  forall h a h',
    wf_heap h ->
    (forall l, R l -> (l < length h)%nat) ->
    m h = Ok a h' ->
    wf_heap h' /\
    (forall l, In l (rf a) -> (l < length h')%nat) /\
    (length h <= length h')%nat /\
    (forall l o, h !! l = Some o -> h' !! l = Some o \/ reach h R l) /\
    (forall (Q : loc -> Prop) l,
        (forall x, Q x -> (x < length h)%nat) ->
        (l < length h)%nat ->
        reach h' (fun x => Q x \/ R x \/ In x (rf a)) l ->
        reach h (fun x => Q x \/ R x) l).

(** The integrator's functions are confined to their arguments and to the
    locations [F] of the game definition. *)
Record game_confined (F : loc -> Prop) (game : Game) : Prop := {
  setup_confined : forall np,
    confined val_refs (roots F [np]) (setup game np);
  reducer_confined : forall G move ctx,
    confined val_refs (roots F [G; move; ctx]) (reducer game G move ctx);
  victory_confined : forall G ctx,
    confined val_refs (roots F [G; ctx]) (victory game G ctx);
  flow_confined : forall f ctx action G,
    flow game = Some f ->
    confined val_refs (roots F [ctx; action; G]) (f ctx action G)
}.

(** Every object of the heap has distinct property names, as the objects
    of the language have. *)
Definition keys_ok (h : heap) : Prop :=
  forall l ps, h !! l = Some (Obj ps) -> List.NoDup (map fst ps).

(** A JSON text in which no object repeats a member name. *)
#[warnings="-register-all"]
Inductive json_ok : json -> Prop :=
| ok_null : json_ok JNull
| ok_bool b : json_ok (JBool b)
| ok_num z : json_ok (JNum z)
| ok_str s : json_ok (JStr s)
| ok_arr js : Forall json_ok js -> json_ok (JArr js)
| ok_obj fs :
    List.NoDup (map fst fs) -> Forall (fun f => json_ok (snd f)) fs ->
    json_ok (JObj fs).

(** The depth to which the objects and arrays of a JSON text nest. *)
Fixpoint json_depth (j : json) : nat :=
  match j with
  | JArr js =>
      S ((fix depths (js : list json) : nat :=
            match js with
            | [] => O
            | j :: js' => Nat.max (json_depth j) (depths js')
            end) js)
  | JObj fs =>
      S ((fix depths (fs : list (string * json)) : nat :=
            match fs with
            | [] => O
            | (_, j) :: fs' => Nat.max (json_depth j) (depths fs')
            end) fs)
  | _ => O
  end.

Fixpoint elems_depth (js : list json) : nat :=
  match js with
  | [] => O
  | j :: js' => Nat.max (json_depth j) (elems_depth js')
  end.

Fixpoint members_depth (fs : list (string * json)) : nat :=
  match fs with
  | [] => O
  | (_, j) :: fs' => Nat.max (json_depth j) (members_depth fs')
  end.

(** The objects [ext] refer to locations between [lo] and [hi] only. *)
Definition closed_in (lo hi : nat) (ext : heap) : Prop :=
  forall k o x, ext !! k = Some o -> In x (obj_refs o) -> (lo <= x < hi)%nat.

Definition within (lo hi : nat) (ls : list loc) : Prop :=
  forall x, In x ls -> (lo <= x < hi)%nat.

(** What [build] does: it appends objects that refer to each other only
    and returns a value among them; when no object of the text repeats a
    name, the text of that value is the text it was built from. *)
Definition built (j : json) (h : heap) (v : val) (ext : heap) : Prop :=
  build j h = Ok v (h ++ ext) /\
  closed_in (length h) (length h + length ext) ext /\
  within (length h) (length h + length ext) (val_refs v) /\
  (json_ok j -> forall n ext', (json_depth j <= n)%nat ->
                 ser n (h ++ ext ++ ext') v = Some (Some j)).

(** The roots of a state with the properties [ps]: its [G], [ctx] and
    [log], and what the game definition holds by itself. *)
Definition live (F : loc -> Prop) (ps : props) : loc -> Prop :=
  roots F [prop "G" ps; prop "ctx" ps; prop "log" ps].

(** The state at [s], with the properties [ps], keeps the snapshot
    apart: its [_initial] is the snapshot [snap]; nothing it can reach
    through [G], [ctx] and [log] is one of the objects of the snapshot,
    which lie from [lo] to [hi], or the state itself; and these objects
    are what they are in [hB]. *)
Record isolated (F : loc -> Prop) (hB : heap) (lo hi : nat) (snap : loc)
    (h : heap) (s : loc) (ps : props) : Prop := {
  iso_wf : wf_heap h;
  iso_len : (hi <= length h)%nat;
  iso_state : h !! s = Some (Obj ps);
  iso_initial : prop "_initial" ps = VRef snap;
  iso_apart : forall l,
    reach h (live F ps) l -> ~ (lo <= l < hi)%nat /\ l <> s;
  iso_frozen : forall l, (lo <= l < hi)%nat -> h !! l = hB !! l
}.

(** An action that is not a [RESTORE]. *)
Definition not_restore (Actions : ActionTypes) (j : json) : Prop :=
  forall fs, j = JObj fs -> ~ In ("type", JStr (RESTORE Actions)) fs.

(** ** The host *)

Section Host.
Variable Actions : ActionTypes.

(** The host keeps the state and feeds the reducer one action after the
    other; an action arrives as plain data. *)
Definition dispatch (game : Game) (initial state : val) (j : json)
    : M val :=
  let* action := build j in
  GameReducer Actions game initial state action.

Fixpoint dispatch_all (game : Game) (initial state : val)
    (js : list json) : M val :=
  match js with
  | [] => ret state
  | j :: js' =>
      let* state' := dispatch game initial state j in
      dispatch_all game initial state' js'
  end.

(** A game from its creation through a list of actions. *)
Definition play (game : option Game) (numPlayers : val) (js : list json)
    : M val :=
  let* r := createGameReducer Actions game numPlayers in
  dispatch_all (fst r) (snd r) (snd r) js.
End Host.

(** A valid player index for [n] players, as the string [ctx] holds. *)
Definition index_string (n : Z) (v : val) : Prop :=
  exists i, 0 <= i < n /\ v = VStr (NumberToString (Int i)).

(** ** The objects the transitions allocate *)

(** The state a [MAKE_MOVE] produces.  [ps1] are the properties of the
    state when the game's [reducer] returns: the source reads [state.G]
    and [state.ctx] before that call, and [state.log], [state._id] and
    the spread [...state] after it. *)
Definition after_make_move (ps1 : props) (G' : val) (n : Z) (lg' : loc)
    : props :=
  set_props [("G", G'); ("_id", VNum (Int (n + 1))); ("log", VRef lg')] ps1.

(** The state an [END_TURN] produces; [ps1] are the properties of the
    state when the game's [flow] returns. *)
Definition after_end_turn (ps1 : props) (ctx' : val) (n : Z) (lg' : loc)
    : props :=
  set_props [("ctx", ctx'); ("_id", VNum (Int (n + 1))); ("log", VRef lg')] ps1.

(** [(x + 1) % y + ""], the next [currentPlayer]. *)
Definition next_player (x y : num) : val :=
  VStr (NumberToString (num_rem (num_add x (Int 1)) y)).

(** The [ctx] the default [flow] produces on [END_TURN].  [ps] are the
    properties of [ctx] when [victory] returns: the source reads
    [ctx.currentPlayer], [ctx.numPlayers] and [ctx.turn] and spreads
    [...ctx] after that call. *)
Definition after_flow (ps : props) (cp turn winner : val) : props :=
  set_props [("currentPlayer", cp); ("turn", turn); ("winner", winner)] ps.

(** ** Running the model *)

Module Demo.

Definition actions : ActionTypes :=
  {| MAKE_MOVE := "MAKE_MOVE"; END_TURN := "END_TURN"; RESTORE := "RESTORE" |}.

(** The value a computation returns. *)
Definition returned {A} (r : outcome A) : option A :=
  match r with
  | Ok x _ => Some x
  | _ => None
  end.

(** Property [k] of the object a computation returns. *)
Definition result_field (r : outcome val) (k : string) : option val :=
  match r with
  | Ok v h => returned (get v k h)
  | _ => None
  end.

(** A game whose [G] records the leading player: a move replaces [G]
    by its payload, and the leader has won. *)
Definition lead_game : Game := {|
  setup := fun _ => alloc (Obj [("leader", VNull)]);
  names := ["lead"];
  reducer := fun _ move _ => ret move;
  victory := fun G _ => get G "leader";
  flow := None
|}.

(** The same game with a [reducer] that writes the leader into [G]
    and returns [G] itself:
    [(G, move) => { G.leader = move.leader; return G; }]. *)
Definition inplace_game : Game := {|
  setup := fun _ => alloc (Obj [("leader", VNull)]);
  names := ["lead"];
  reducer := fun G move _ =>
    let* leader := get move "leader" in
    set G "leader" leader ;;
    ret G;
  victory := fun G _ => get G "leader";
  flow := None
|}.

(** The action that makes [leader] lead, and the end of a turn. *)
Definition lead (leader : json) : json :=
  JObj [("type", JStr "MAKE_MOVE"); ("move", JObj [("leader", leader)])].

Definition end_turn : json := JObj [("type", JStr "END_TURN")].

(** [ctx.winner] of the state a computation returns. *)
Definition winner_of (r : outcome val) : option val :=
  match r with
  | Ok v h =>
      match get v "ctx" h with
      | Ok c _ => returned (get c "winner" h)
      | _ => None
      end
  | _ => None
  end.

Definition ctx0 : props :=
  [("turn", VNum (Int 0)); ("currentPlayer", VStr "0");
   ("numPlayers", VNum (Int 2)); ("winner", VNull)].

Definition state0 : props :=
  [("G", VRef 0); ("ctx", VRef 1); ("log", VRef 2);
   ("_id", VNum (Int 0)); ("_initial", VNull)].

(** A heap with a state at location 3 and four actions after it. *)
Definition heap0 : heap :=
  [ Obj [("leader", VNull)];
    Obj ctx0;
    Arr [];
    Obj state0;
    Obj [("type", VStr "MAKE_MOVE"); ("move", VRef 5)];
    Obj [("leader", VStr "0")];
    Obj [("type", VStr "END_TURN")];
    Obj [("type", VStr "RESTORE"); ("state", VRef 3)];
    Obj [("type", VStr "NOPE")] ].

End Demo.

(** ** [createDispatchers] *)

(** The object [createDispatchers] returns holds functions, which are
    not values of the heap: it is given as the list of its own
    properties in insertion order.  [assign] is the assignment
    [o[k] = x] and [own_property] reads an own property. *)
Fixpoint assign {A} (k : string) (x : A) (o : list (string * A))
    : list (string * A) :=
  match o with
  | [] => [(k, x)]
  | (k', x') :: o' =>
      if String.eqb k k' then (k, x) :: o' else (k', x') :: assign k x o'
  end.

Fixpoint own_property {A} (k : string) (o : list (string * A)) : option A :=
  match o with
  | [] => None
  | (k', x) :: o' => if String.eqb k k' then Some x else own_property k o'
  end.

Section Dispatchers.
(** [ActionCreators.makeMove], of [./action-creators], and the
    [dispatch] of the Redux store: neither is part of these sources. *)
Variable makeMove : val -> M val.
Variable store_dispatch : val -> M val.

(** [function(...args) { store.dispatch(ActionCreators.makeMove({type:
    name, args: args})); }]: the rest parameter is a new array, the
    argument of [makeMove] a new object, and the call returns
    [undefined]. *)
Definition dispatcher (name : string) (args : list val) : M val :=
  let* args := alloc (Arr args) in
  let* move := alloc (Obj [("type", VStr name); ("args", args)]) in
  let* action := makeMove move in
  store_dispatch action ;;
  ret VUndef.

(** [createDispatchers(moveNames, store)], for an array of strings.  The
    assignment [dispatchers["__proto__"] = f] sets the prototype and
    makes no own property; a list with that name is outside the model
    ([None]). *)
Definition createDispatchers (moveNames : list string)
    : option (list (string * (list val -> M val))) :=
  if existsb (String.eqb "__proto__") moveNames then None
  else
    Some (fold_left
            (fun dispatchers name => assign name (dispatcher name) dispatchers)
            moveNames []).

End Dispatchers.

(** ** Runs of [END_TURN] *)

(** The action [{type: END_TURN}], as plain data. *)
Definition end_turn_action (Actions : ActionTypes) : json :=
  JObj [("type", JStr (END_TURN Actions))].

(** The state at [s] after [k] turns of the default flow with [n]
    players, in a heap that begins with the heap [h1] that [setup]
    left: its [G] is still [G], its [_id] and its [ctx.turn] are [k],
    and it is the turn of player [k mod n]. *)
Definition turned (G : val) (h1 : heap) (n k : Z) (h : heap) (s : loc)
    : Prop :=
  exists ps c cps lg es ext,
    h = h1 ++ ext /\
    h !! s = Some (Obj ps) /\
    prop "G" ps = G /\
    prop "ctx" ps = VRef c /\
    prop "log" ps = VRef lg /\
    prop "_id" ps = VNum (Int k) /\
    h !! c = Some (Obj cps) /\
    prop "currentPlayer" cps = VStr (NumberToString (Int (k mod n))) /\
    prop "numPlayers" cps = VNum (Int n) /\
    prop "turn" cps = VNum (Int k) /\
    h !! lg = Some (Arr es).

(** ** The journal of a state *)

(** The state at [s], with the properties [ps], keeps a journal: its
    [log] is the array at [lg], with the entries [es], and its [_id] is
    their number.  [P] are the state objects and the [log] arrays made
    so far; none of them can be reached from what the game's functions
    are given, which is [G], [ctx] and the locations [F] of the game
    definition. *)
Record journal (F P : loc -> Prop) (h : heap) (s : loc) (ps : props)
    (lg : loc) (es : list val) : Prop := {
  jn_wf : wf_heap h;
  jn_F : forall l, F l -> (l < length h)%nat;
  jn_state : h !! s = Some (Obj ps);
  jn_log : prop "log" ps = VRef lg;
  jn_entries : h !! lg = Some (Arr es);
  jn_id : prop "_id" ps = VNum (Int (Z.of_nat (length es)));
  jn_old : forall l, P l -> (l < length h)%nat;
  jn_s : P s;
  jn_lg : P lg;
  jn_apart : forall l,
    reach h (roots F [prop "G" ps; prop "ctx" ps]) l -> ~ P l
}.

(** ** Cycles *)

(** Every object of [C] refers to an object of [C]: from each of them
    the references can be followed without end. *)
Definition endless (h : heap) (C : loc -> Prop) : Prop :=
  forall l, C l ->
    exists o l', h !! l = Some o /\ In l' (obj_refs o) /\ C l'.

(** ** More to run the model on *)

Module Examples.

(** A game whose [setup] returns an object that refers to itself:
    [() => { const G = {}; G.self = G; return G; }]. *)
Definition knot_game : Game := {|
  setup := fun _ => let* G := alloc (Obj []) in set G "self" G ;; ret G;
  names := [];
  reducer := fun G _ _ => ret G;
  victory := fun _ _ => ret VNull;
  flow := None
|}.

(** A game whose [setup] returns nothing: [() => {}]. *)
Definition void_game : Game := {|
  setup := fun _ => ret VUndef;
  names := [];
  reducer := fun G _ _ => ret G;
  victory := fun _ _ => ret VNull;
  flow := None
|}.

(** A game with a [flow] of its own, which leaves [ctx] as it is:
    [flow: ctx => ctx]. *)
Definition still_game : Game := {|
  setup := fun _ => alloc (Obj [("leader", VNull)]);
  names := ["lead"];
  reducer := fun _ move _ => ret move;
  victory := fun _ _ => ret VNull;
  flow := Some (fun ctx _ _ => ret ctx)
|}.

(** An action creator [move => ({type: "MAKE_MOVE", move})]. *)
Definition wrap_move (move : val) : M val :=
  alloc (Obj [("type", VStr "MAKE_MOVE"); ("move", move)]).

End Examples.

(** * Properties *)

(** ** Reading and writing properties *)

Lemma lookup_prop_set_prop k k' v ps :
  lookup_prop k (set_prop k' v ps) =
  if String.eqb k k' then Some v else lookup_prop k ps.
Proof.
  induction ps as [|[k0 v0] ps IH]; simpl.
  - destruct (String.eqb k k'); reflexivity.
  - destruct (String.eqb k' k0) eqn:E0; simpl.
    + apply String.eqb_eq in E0. subst k0.
      destruct (String.eqb k k'); reflexivity.
    + destruct (String.eqb k k0) eqn:E1.
      * apply String.eqb_eq in E1. subst k0.
        rewrite String.eqb_sym, E0. reflexivity.
      * exact IH.
Qed.

Lemma prop_set_prop k k' v ps :
  prop k (set_prop k' v ps) = if String.eqb k k' then v else prop k ps.
Proof.
  unfold prop. rewrite lookup_prop_set_prop.
  destruct (String.eqb k k'); reflexivity.
Qed.

Lemma get_obj h l ps k :
  h !! l = Some (Obj ps) -> get (VRef l) k h = Ok (prop k ps) h.
Proof. intros H. unfold get. rewrite H. reflexivity. Qed.

Lemma own_props_obj h l ps :
  h !! l = Some (Obj ps) -> own_props (VRef l) h = Ok ps h.
Proof. intros H. unfold own_props. rewrite H. reflexivity. Qed.

Lemma elements_arr h l es :
  h !! l = Some (Arr es) -> elements (VRef l) h = Ok es h.
Proof. intros H. unfold elements. rewrite H. reflexivity. Qed.

Lemma get_heap v k h x h' : get v k h = Ok x h' -> h' = h.
Proof.
  unfold get. intros H.
  destruct v as [| | | | |l]; try discriminate.
  destruct (h !! l) as [[ps|es]|]; try discriminate.
  congruence.
Qed.

(** ** Numbers and their decimal strings *)

Lemma string_of_int_to_int z :
  NilZero.int_of_string (NilZero.string_of_int (Z.to_int z)) =
  Some (Z.to_int z).
Proof.
  apply NilZero.isi; destruct z; simpl; try discriminate.
  - intros H. injection H as H. exact (Unsigned.to_uint_nonnil _ H).
  - intros H. injection H as H. exact (Unsigned.to_uint_nonnil _ H).
Qed.

Lemma string_of_int_head z :
  match NilZero.string_of_int (Z.to_int z) with
  | "" => False
  | String c _ => Ascii.eqb c "+" = false
  end.
Proof.
  destruct z as [|p|p]; simpl; try reflexivity.
  destruct (Pos.to_uint p); simpl; reflexivity.
Qed.

(** Reading back the string of an integer gives the integer. *)
Lemma ToNumber_NumberToString z :
  ToNumber (VStr (NumberToString (Int z))) = Some (Int z).
Proof.
  simpl. unfold StringToNumber.
  pose proof (string_of_int_head z) as Hc.
  pose proof (string_of_int_to_int z) as Hr.
  destruct (NilZero.string_of_int (Z.to_int z)) as [|c s]; [contradiction|].
  rewrite Hc, Hr, DecimalZ.of_to. reflexivity.
Qed.

(** ** Running a computation step by step *)

Lemma bind_Ok {A B} (m : M A) (k : A -> M B) h a h' :
  m h = Ok a h' -> bind m k h = k a h'.
Proof. intros H. unfold bind. rewrite H. reflexivity. Qed.

Lemma bind_bind {A B C} (m : M A) (f : A -> M B) (g : B -> M C) h :
  bind (bind m f) g h = bind m (fun x => bind (f x) g) h.
Proof. unfold bind. destruct (m h); reflexivity. Qed.

Lemma bind_ret {A B} (a : A) (k : A -> M B) h : bind (ret a) k h = k a h.
Proof. reflexivity. Qed.

Lemma modelled_Some {A} (o : option A) a h :
  o = Some a -> modelled o h = Ok a h.
Proof. intros ->. reflexivity. Qed.

Lemma alloc_Ok o h : alloc o h = Ok (VRef (length h)) (h ++ [o]).
Proof. reflexivity. Qed.

(** [run H] executes the first statement of the computation in the goal
    with the equation [H] that gives its result. *)
Ltac run H := rewrite (bind_Ok _ _ _ _ _ H); cbv beta.

(** ** Allocation *)

Lemma lookup_alloc_new (h : heap) o : (h ++ [o]) !! length h = Some o.
Proof. rewrite lookup_app_r by lia. rewrite Nat.sub_diag. reflexivity. Qed.

Lemma lookup_alloc_old (h ext : heap) l o :
  h !! l = Some o -> (h ++ ext) !! l = Some o.
Proof. apply lookup_app_l_Some. Qed.

Lemma array_spread_append_Ok h l es x :
  h !! l = Some (Arr es) ->
  array_spread_append (VRef l) x h =
  Ok (VRef (length h)) (h ++ [Arr (es ++ [x])]).
Proof.
  intros H. unfold array_spread_append.
  run (elements_arr _ _ _ H). reflexivity.
Qed.

Lemma object_spread_Ok h l ps kvs :
  h !! l = Some (Obj ps) ->
  object_spread (VRef l) kvs h =
  Ok (VRef (length h)) (h ++ [Obj (set_props kvs ps)]).
Proof.
  intros H. unfold object_spread.
  run (own_props_obj _ _ _ H). reflexivity.
Qed.

Lemma strict_eq_ne v k : v <> VStr k -> strict_eq v (VStr k) = false.
Proof.
  intros H. destruct v as [| | | [|] |x|]; try reflexivity.
  simpl. apply String.eqb_neq. congruence.
Qed.

Lemma strict_eq_str_true v k : strict_eq v (VStr k) = true -> v = VStr k.
Proof.
  destruct v as [| | |[z|]|x|]; simpl; try discriminate.
  intros H. apply String.eqb_eq in H. congruence.
Qed.

Lemma string_append_empty s : String.append s "" = s.
Proof. induction s as [|c s IH]; simpl; [|rewrite IH]; reflexivity. Qed.

Lemma strict_eq_str a b : strict_eq (VStr a) (VStr b) = String.eqb a b.
Proof. reflexivity. Qed.

(** ** The transitions of [GameReducer] *)

Section Transitions.
Variable Actions : ActionTypes.
Variables (game : Game) (initial : val).

Lemma GameReducer_make_move h l ps a move G' h1 ps1 lg es n :
  h !! l = Some (Obj ps) ->
  get a "type" h = Ok (VStr (MAKE_MOVE Actions)) h ->
  get a "move" h = Ok move h ->
  reducer game (prop "G" ps) move (prop "ctx" ps) h = Ok G' h1 ->
  h1 !! l = Some (Obj ps1) ->
  prop "log" ps1 = VRef lg ->
  h1 !! lg = Some (Arr es) ->
  prop "_id" ps1 = VNum (Int n) ->
  GameReducer Actions game initial (VRef l) a h =
  Ok (VRef (S (length h1)))
     (h1 ++ [Arr (es ++ [a]); Obj (after_make_move ps1 G' n (length h1))]).
Proof.
  intros Hl Hty Hmv Hred Hl1 Hlog Hlg Hid.
  unfold GameReducer, default_param.
  run (eq_refl (ret (VRef l) h)).
  run Hty. rewrite strict_eq_str, String.eqb_refl.
  run (get_obj _ _ _ "G" Hl). run Hmv. run (get_obj _ _ _ "ctx" Hl).
  run Hred.
  run (get_obj _ _ _ "log" Hl1). rewrite Hlog.
  run (array_spread_append_Ok _ _ _ a Hlg).
  run (get_obj _ _ _ "_id" (lookup_alloc_old _ [Arr (es ++ [a])] _ _ Hl1)).
  rewrite Hid.
  run (modelled_Some (js_add (VNum (Int n)) (VNum (Int 1))) _
         (h1 ++ [Arr (es ++ [a])]) eq_refl).
  rewrite (object_spread_Ok _ _ _ _
             (lookup_alloc_old _ [Arr (es ++ [a])] _ _ Hl1)).
  rewrite length_app, <- app_assoc. simpl length.
  rewrite Nat.add_1_r. reflexivity.
Qed.

Lemma GameReducer_end_turn h l ps a f ctx' h1 ps1 lg es n :
  MAKE_MOVE Actions <> END_TURN Actions ->
  h !! l = Some (Obj ps) ->
  get a "type" h = Ok (VStr (END_TURN Actions)) h ->
  flow game = Some f ->
  f (prop "ctx" ps) a (prop "G" ps) h = Ok ctx' h1 ->
  h1 !! l = Some (Obj ps1) ->
  prop "log" ps1 = VRef lg ->
  h1 !! lg = Some (Arr es) ->
  prop "_id" ps1 = VNum (Int n) ->
  GameReducer Actions game initial (VRef l) a h =
  Ok (VRef (S (length h1)))
     (h1 ++ [Arr (es ++ [a]); Obj (after_end_turn ps1 ctx' n (length h1))]).
Proof.
  intros Hne Hl Hty Hf Hflow Hl1 Hlog Hlg Hid.
  unfold GameReducer, default_param.
  run (eq_refl (ret (VRef l) h)).
  run Hty. rewrite !strict_eq_str, String.eqb_refl.
  apply not_eq_sym, String.eqb_neq in Hne. rewrite Hne.
  run (get_obj _ _ _ "ctx" Hl). run (get_obj _ _ _ "G" Hl).
  unfold call_flow. rewrite Hf. run Hflow.
  run (get_obj _ _ _ "log" Hl1). rewrite Hlog.
  run (array_spread_append_Ok _ _ _ a Hlg).
  run (get_obj _ _ _ "_id" (lookup_alloc_old _ [Arr (es ++ [a])] _ _ Hl1)).
  rewrite Hid.
  run (modelled_Some (js_add (VNum (Int n)) (VNum (Int 1))) _
         (h1 ++ [Arr (es ++ [a])]) eq_refl).
  rewrite (object_spread_Ok _ _ _ _
             (lookup_alloc_old _ [Arr (es ++ [a])] _ _ Hl1)).
  rewrite length_app, <- app_assoc. simpl length.
  rewrite Nat.add_1_r. reflexivity.
Qed.

Lemma GameFlow_end_turn h c a G w h1 ps x y turn :
  get a "type" h = Ok (VStr (END_TURN Actions)) h ->
  victory game G (VRef c) h = Ok w h1 ->
  h1 !! c = Some (Obj ps) ->
  ToNumber (prop "currentPlayer" ps) = Some x ->
  ToNumber (prop "numPlayers" ps) = Some y ->
  js_add (prop "turn" ps) (VNum (Int 1)) = Some turn ->
  GameFlow Actions game (VRef c) a G h =
  Ok (VRef (length h1))
     (h1 ++ [Obj (after_flow ps (next_player x y) turn w)]).
Proof.
  intros Hty Hv Hc Hx Hy Ht.
  unfold GameFlow, default_param.
  run (eq_refl (ret (VRef c) h)).
  run Hty. rewrite strict_eq_str, String.eqb_refl.
  run Hv.
  run (get_obj _ _ _ "currentPlayer" Hc).
  run (modelled_Some _ _ h1 Hx).
  run (modelled_Some (js_add (VNum x) (VNum (Int 1))) _ h1 eq_refl).
  run (get_obj _ _ _ "numPlayers" Hc).
  assert (Hr : js_rem (VNum (num_add x (Int 1))) (prop "numPlayers" ps) =
               Some (VNum (num_rem (num_add x (Int 1)) y))).
  { unfold js_rem. simpl ToNumber at 1. rewrite Hy. reflexivity. }
  run (modelled_Some _ _ h1 Hr).
  assert (Hs : js_add (VNum (num_rem (num_add x (Int 1)) y)) (VStr "") =
               Some (next_player x y)).
  { unfold js_add, next_player. simpl. rewrite string_append_empty.
    reflexivity. }
  run (modelled_Some _ _ h1 Hs).
  run (get_obj _ _ _ "turn" Hc).
  run (modelled_Some _ _ h1 Ht).
  apply (object_spread_Ok _ _ _ _ Hc).
Qed.

End Transitions.

(** ** Serializing and building *)

Lemma build_JArr js :
  build (JArr js) = (let* es := build_elems js in alloc (Arr es)).
Proof. reflexivity. Qed.

Lemma build_props_cons k j fs :
  build_props ((k, j) :: fs) =
  (let* v := build j in
   let* ps := build_props fs in
   ret ((k, v) :: ps)).
Proof. reflexivity. Qed.

Lemma build_elems_cons j js :
  build_elems (j :: js) =
  (let* v := build j in
   let* vs := build_elems js in
   ret (v :: vs)).
Proof. reflexivity. Qed.

Lemma build_JObj fs :
  build (JObj fs) =
  (let* ps := build_props fs in alloc (Obj (set_props ps []))).
Proof. reflexivity. Qed.

(** Induction on a JSON text, with the hypothesis for every member. *)
Lemma json_rect' (P : json -> Prop) :
  P JNull ->
  (forall b, P (JBool b)) ->
  (forall z, P (JNum z)) ->
  (forall s, P (JStr s)) ->
  (forall js, Forall P js -> P (JArr js)) ->
  (forall fs, Forall (fun f => P (snd f)) fs -> P (JObj fs)) ->
  forall j, P j.
Proof.
  intros HN HB HZ HS HA HO.
  fix IH 1. intros [| b | z | s | js | fs].
  - exact HN.
  - apply HB.
  - apply HZ.
  - apply HS.
  - apply HA. induction js as [|j js IHjs]; constructor; [apply IH|exact IHjs].
  - apply HO. induction fs as [|[k j] fs IHfs]; constructor;
      [apply IH|exact IHfs].
Qed.

(** [build] always returns, and what it does to the heap is to append
    objects. *)
Lemma build_elems_total js :
  Forall (fun j => forall h, exists v ext, build j h = Ok v (h ++ ext)) js ->
  forall h, exists vs ext, build_elems js h = Ok vs (h ++ ext).
Proof.
  induction 1 as [|j js Hj _ IH]; intros h; simpl.
  - exists [], []. unfold ret. rewrite app_nil_r. reflexivity.
  - destruct (Hj h) as [v [e1 H1]].
    destruct (IH (h ++ e1)) as [vs [e2 H2]].
    exists (v :: vs), (e1 ++ e2).
    run H1. run H2. unfold ret. rewrite app_assoc. reflexivity.
Qed.

Lemma build_props_total fs :
  Forall (fun f => forall h, exists v ext,
                     build (snd f) h = Ok v (h ++ ext)) fs ->
  forall h, exists ps ext, build_props fs h = Ok ps (h ++ ext).
Proof.
  induction 1 as [|[k j] fs Hj _ IH]; intros h; simpl.
  - exists [], []. unfold ret. rewrite app_nil_r. reflexivity.
  - destruct (Hj h) as [v [e1 H1]].
    destruct (IH (h ++ e1)) as [ps [e2 H2]].
    exists ((k, v) :: ps), (e1 ++ e2).
    run H1. run H2. unfold ret. rewrite app_assoc. reflexivity.
Qed.

Lemma build_total j : forall h, exists v ext, build j h = Ok v (h ++ ext).
Proof.
  induction j as [| b | z | s | js IH | fs IH] using json_rect'; intros h.
  1-4: eexists _, []; unfold build, ret; rewrite app_nil_r; reflexivity.
  - destruct (build_elems_total js IH h) as [vs [ext H]].
    exists (VRef (length (h ++ ext))), (ext ++ [Arr vs]).
    rewrite build_JArr. run H. rewrite alloc_Ok, app_assoc. reflexivity.
  - destruct (build_props_total fs IH h) as [ps [ext H]].
    exists (VRef (length (h ++ ext))), (ext ++ [Obj (set_props ps [])]).
    rewrite build_JObj. run H. rewrite alloc_Ok, app_assoc. reflexivity.
Qed.

(** The text of a primitive does not depend on the depth. *)
Lemma ser_num n (h : heap) z : ser n h (VNum (Int z)) = Some (Some (JNum z)).
Proof. destruct n; reflexivity. Qed.

Lemma ser_str n (h : heap) s : ser n h (VStr s) = Some (Some (JStr s)).
Proof. destruct n; reflexivity. Qed.

Lemma ser_null n (h : heap) : ser n h VNull = Some (Some JNull).
Proof. destruct n; reflexivity. Qed.

Lemma ser_ref_obj n (h : heap) l ps :
  h !! l = Some (Obj ps) ->
  ser (S n) h (VRef l) =
  match ser_props (ser n h) ps with
  | Some fs => Some (Some (JObj fs))
  | None => None
  end.
Proof. intros H. simpl. rewrite H. reflexivity. Qed.

Lemma ser_ref_arr n (h : heap) l es :
  h !! l = Some (Arr es) ->
  ser (S n) h (VRef l) =
  match ser_elems (ser n h) es with
  | Some js => Some (Some (JArr js))
  | None => None
  end.
Proof. intros H. simpl. rewrite H. reflexivity. Qed.

Lemma ser_props_impl (f g : val -> option (option json)) ps fs :
  (forall v r, f v = Some r -> g v = Some r) ->
  ser_props f ps = Some fs -> ser_props g ps = Some fs.
Proof.
  intros Hfg. revert fs.
  induction ps as [|[k v] ps IH]; intros fs; simpl; [trivial|].
  destruct (f v) as [r|] eqn:Ef; [|discriminate].
  rewrite (Hfg _ _ Ef).
  destruct (ser_props f ps) as [fs'|]; [|destruct r; discriminate].
  rewrite (IH _ eq_refl). trivial.
Qed.

Lemma ser_elems_impl (f g : val -> option (option json)) es js :
  (forall v r, f v = Some r -> g v = Some r) ->
  ser_elems f es = Some js -> ser_elems g es = Some js.
Proof.
  intros Hfg. revert js.
  induction es as [|v es IH]; intros js; simpl; [trivial|].
  destruct (f v) as [r|] eqn:Ef; [|discriminate].
  rewrite (Hfg _ _ Ef).
  destruct (ser_elems f es) as [js'|]; [|destruct r; discriminate].
  rewrite (IH _ eq_refl). trivial.
Qed.

(** A serialization that succeeds still succeeds, with the same text, at
    a greater depth and in a heap with more objects. *)
Lemma ser_mono n h v r :
  ser n h v = Some r ->
  forall m ext, (n <= m)%nat -> ser m (h ++ ext) v = Some r.
Proof.
  revert v r. induction n as [|n IH]; intros v r Hs m ext Hle.
  - destruct v as [| | |[z|]| |l]; simpl in Hs; try discriminate;
      destruct m; exact Hs.
  - destruct v as [| | |[z|]| |l]; try (destruct m; exact Hs).
    destruct m as [|m]; [lia|]. simpl in Hs |- *.
    destruct (h !! l) as [o|] eqn:El; [|discriminate].
    rewrite (lookup_app_l_Some _ _ _ _ El).
    destruct o as [ps|es].
    + destruct (ser_props (ser n h) ps) as [fs|] eqn:Ep; [|discriminate].
      rewrite (ser_props_impl _ (ser m (h ++ ext)) _ _
                 (fun v r H => IH v r H m ext ltac:(lia)) Ep).
      exact Hs.
    + destruct (ser_elems (ser n h) es) as [js|] eqn:Ee; [|discriminate].
      rewrite (ser_elems_impl _ (ser m (h ++ ext)) _ _
                 (fun v r H => IH v r H m ext ltac:(lia)) Ee).
      exact Hs.
Qed.

(** ** What a transition does to the state *)

Lemma prop_after_make_move k ps1 G' n lg' :
  prop k (after_make_move ps1 G' n lg') =
  if String.eqb k "log" then VRef lg'
  else if String.eqb k "_id" then VNum (Int (n + 1))
  else if String.eqb k "G" then G'
  else prop k ps1.
Proof.
  unfold after_make_move, set_props. simpl.
  rewrite !prop_set_prop. reflexivity.
Qed.

Lemma prop_after_end_turn k ps1 ctx' n lg' :
  prop k (after_end_turn ps1 ctx' n lg') =
  if String.eqb k "log" then VRef lg'
  else if String.eqb k "_id" then VNum (Int (n + 1))
  else if String.eqb k "ctx" then ctx'
  else prop k ps1.
Proof.
  unfold after_end_turn, set_props. simpl.
  rewrite !prop_set_prop. reflexivity.
Qed.

Lemma lookup_alloc_2_fst (h : heap) o1 o2 :
  (h ++ [o1; o2]) !! length h = Some o1.
Proof. rewrite lookup_app_r by lia. rewrite Nat.sub_diag. reflexivity. Qed.

Lemma lookup_alloc_2_snd (h : heap) o1 o2 :
  (h ++ [o1; o2]) !! S (length h) = Some o2.
Proof.
  rewrite lookup_app_r by lia.
  replace (S (length h) - length h)%nat with 1%nat by lia. reflexivity.
Qed.

Section Claims.
Variable Actions : ActionTypes.
Variables (game : Game) (initial : val).

(** C1 (amended): on [MAKE_MOVE] the next [G] is what the game's
    [reducer] returns for the current [G], the payload [action.move]
    of the action, and the current [ctx]. *)
Theorem make_move_calls_reducer_on_move h l ps a move G' h1 ps1 lg es n :
  h !! l = Some (Obj ps) ->
  get a "type" h = Ok (VStr (MAKE_MOVE Actions)) h ->
  get a "move" h = Ok move h ->
  reducer game (prop "G" ps) move (prop "ctx" ps) h = Ok G' h1 ->
  h1 !! l = Some (Obj ps1) ->
  prop "log" ps1 = VRef lg ->
  h1 !! lg = Some (Arr es) ->
  prop "_id" ps1 = VNum (Int n) ->
  exists l' ps' h',
    GameReducer Actions game initial (VRef l) a h = Ok (VRef l') h' /\
    h' !! l' = Some (Obj ps') /\
    prop "G" ps' = G'.
Proof.
  intros Hl Hty Hmv Hred Hl1 Hlog Hlg Hid.
  eexists _, _, _. split; [|split].
  - eapply GameReducer_make_move; eassumption.
  - apply lookup_alloc_2_snd.
  - rewrite prop_after_make_move. reflexivity.
Qed.



(** C6: a [RESTORE] returns the state the action carries, whatever the
    current state is; the heap, and with it every [log] and [_id], is
    left as it is. *)
Theorem restore_returns_carried_state h s a S :
  RESTORE Actions <> MAKE_MOVE Actions ->
  RESTORE Actions <> END_TURN Actions ->
  get a "type" h = Ok (VStr (RESTORE Actions)) h ->
  get a "state" h = Ok S h ->
  GameReducer Actions game initial s a h = Ok S h.
Proof.
  intros Hm He Hty Hst.
  unfold GameReducer.
  assert (Hs : default_param s (ret initial) h =
               Ok (match s with VUndef => initial | _ => s end) h)
    by (destruct s; reflexivity).
  run Hs. run Hty. rewrite !strict_eq_str, String.eqb_refl.
  apply String.eqb_neq in Hm, He. rewrite Hm, He. exact Hst.
Qed.

(** C7: an action whose type is none of the three known ones returns
    the state it was given (the [initial] state when none was given)
    and leaves the heap as it is; nothing is thrown. *)
Theorem unknown_action_is_identity h s a ty :
  get a "type" h = Ok ty h ->
  ty <> VStr (MAKE_MOVE Actions) ->
  ty <> VStr (END_TURN Actions) ->
  ty <> VStr (RESTORE Actions) ->
  GameReducer Actions game initial s a h =
  Ok (match s with VUndef => initial | _ => s end) h.
Proof.
  intros Hty Hm He Hr.
  unfold GameReducer.
  assert (Hs : default_param s (ret initial) h =
               Ok (match s with VUndef => initial | _ => s end) h)
    by (destruct s; reflexivity).
  run Hs. run Hty.
  rewrite (strict_eq_ne _ _ Hm), (strict_eq_ne _ _ He), (strict_eq_ne _ _ Hr).
  reflexivity.
Qed.

End Claims.

(** C1, as the claim states it, fails: for the state at location 3 of
    [Demo.heap0] and the action at location 4, whose payload is at
    location 5, the next [G] is the payload, while the game's [reducer]
    applied to the whole action returns the action. *)
Lemma make_move_whole_action_counterexample :
  Demo.result_field
    (GameReducer Demo.actions Demo.lead_game VUndef (VRef 3) (VRef 4)
       Demo.heap0) "G" = Some (VRef 5) /\
  Demo.returned
    (reducer Demo.lead_game (VRef 0) (VRef 4) (VRef 1) Demo.heap0) =
  Some (VRef 4) /\
  VRef 5 <> VRef 4.
Proof. split; [reflexivity|split; [reflexivity|discriminate]]. Qed.

Lemma make_move_calls_reducer_on_move_witness :
  exists l' ps' h',
    GameReducer Demo.actions Demo.lead_game VUndef (VRef 3) (VRef 4)
      Demo.heap0 = Ok (VRef l') h' /\
    h' !! l' = Some (Obj ps') /\
    prop "G" ps' = VRef 5.
Proof.
  apply (make_move_calls_reducer_on_move Demo.actions Demo.lead_game VUndef
           Demo.heap0 3%nat Demo.state0 (VRef 4) (VRef 5) (VRef 5)
           Demo.heap0 Demo.state0 2%nat [] 0);
    reflexivity.
Defined.


Lemma restore_returns_carried_state_witness :
  GameReducer Demo.actions Demo.lead_game VUndef (VRef 0) (VRef 7) Demo.heap0 =
  Ok (VRef 3) Demo.heap0.
Proof.
  apply (restore_returns_carried_state Demo.actions Demo.lead_game VUndef
           Demo.heap0 (VRef 0) (VRef 7) (VRef 3));
    (discriminate || reflexivity).
Defined.

Lemma unknown_action_is_identity_witness :
  GameReducer Demo.actions Demo.lead_game VUndef (VRef 3) (VRef 8) Demo.heap0 =
  Ok (VRef 3) Demo.heap0.
Proof.
  apply (unknown_action_is_identity Demo.actions Demo.lead_game VUndef
           Demo.heap0 (VRef 3) (VRef 8) (VStr "NOPE"));
    (discriminate || reflexivity).
Defined.

(** ** The default turn flow *)

Lemma lookup_after_flow k ps cp turn w :
  lookup_prop k (after_flow ps cp turn w) =
  if String.eqb k "winner" then Some w
  else if String.eqb k "turn" then Some turn
  else if String.eqb k "currentPlayer" then Some cp
  else lookup_prop k ps.
Proof.
  unfold after_flow, set_props. simpl.
  rewrite !lookup_prop_set_prop. reflexivity.
Qed.

Lemma prop_after_flow k ps cp turn w :
  prop k (after_flow ps cp turn w) =
  if String.eqb k "winner" then w
  else if String.eqb k "turn" then turn
  else if String.eqb k "currentPlayer" then cp
  else prop k ps.
Proof.
  unfold prop. rewrite lookup_after_flow.
  repeat match goal with |- context [String.eqb ?a ?b] =>
    destruct (String.eqb a b) end; reflexivity.
Qed.

Lemma next_player_index i n :
  0 <= i < n -> index_string n (next_player (Int i) (Int n)).
Proof.
  intros Hi. exists (Z.rem (i + 1) n). split.
  - apply Z.rem_bound_pos; lia.
  - unfold next_player. simpl.
    destruct (Z.eqb_spec n 0) as [->|_]; [lia|reflexivity].
Qed.

Section FlowClaims.
Variable Actions : ActionTypes.
Variable game : Game.


End FlowClaims.



(** ** The winner *)

Section Winner.
Variable Actions : ActionTypes.
Variables (game g : Game) (initial : val).

(** An [END_TURN] of [GameReducer] when the game's [flow] is the
    default one, built on the [victory] of [g]. *)
Lemma GameReducer_end_turn_default h l ps c a w h1 cps x y turn ps1 lg es n :
  MAKE_MOVE Actions <> END_TURN Actions ->
  flow game = Some (GameFlow Actions g) ->
  h !! l = Some (Obj ps) ->
  get a "type" h = Ok (VStr (END_TURN Actions)) h ->
  prop "ctx" ps = VRef c ->
  victory g (prop "G" ps) (VRef c) h = Ok w h1 ->
  h1 !! c = Some (Obj cps) ->
  ToNumber (prop "currentPlayer" cps) = Some x ->
  ToNumber (prop "numPlayers" cps) = Some y ->
  js_add (prop "turn" cps) (VNum (Int 1)) = Some turn ->
  h1 !! l = Some (Obj ps1) ->
  prop "log" ps1 = VRef lg ->
  h1 !! lg = Some (Arr es) ->
  prop "_id" ps1 = VNum (Int n) ->
  GameReducer Actions game initial (VRef l) a h =
  Ok (VRef (S (S (length h1))))
     (h1 ++ [Obj (after_flow cps (next_player x y) turn w);
             Arr (es ++ [a]);
             Obj (after_end_turn ps1 (VRef (length h1)) n (S (length h1)))]).
Proof.
  intros Hne Hf Hl Hty Hctx Hv Hc Hx Hy Ht Hl1 Hlog Hlg Hid.
  assert (Hflow := GameFlow_end_turn Actions g h c a (prop "G" ps) w h1 cps
                     x y turn Hty Hv Hc Hx Hy Ht).
  rewrite <- Hctx in Hflow at 1.
  rewrite (GameReducer_end_turn Actions game initial h l ps a _ _ _ ps1 lg
             es n Hne Hl Hty Hf Hflow
             (lookup_alloc_old _ _ _ _ Hl1) Hlog
             (lookup_alloc_old _ _ _ _ Hlg) Hid).
  rewrite length_app, <- app_assoc. simpl.
  rewrite Nat.add_1_r. reflexivity.
Qed.

(** C2 (amended): [ctx.winner] follows [victory].  A [MAKE_MOVE] keeps
    the [ctx] object of the state, which the transition does not write,
    so [ctx.winner] is after it what it was when the game's [reducer]
    returned.  An [END_TURN] handled by the default turn flow sets
    [ctx.winner] to the value [victory] returns for the current [G] and
    [ctx]: the winner is [null] after it exactly when [victory]
    returned [null], whatever the winner was before. *)
Theorem winner_follows_victory :
  (forall h l ps a move G' h1 ps1 lg es n c cps,
      h !! l = Some (Obj ps) ->
      get a "type" h = Ok (VStr (MAKE_MOVE Actions)) h ->
      get a "move" h = Ok move h ->
      reducer game (prop "G" ps) move (prop "ctx" ps) h = Ok G' h1 ->
      h1 !! l = Some (Obj ps1) ->
      prop "log" ps1 = VRef lg ->
      h1 !! lg = Some (Arr es) ->
      prop "_id" ps1 = VNum (Int n) ->
      prop "ctx" ps1 = VRef c ->
      h1 !! c = Some (Obj cps) ->
      exists l' ps' h',
        GameReducer Actions game initial (VRef l) a h = Ok (VRef l') h' /\
        h' !! l' = Some (Obj ps') /\
        prop "ctx" ps' = VRef c /\
        h' !! c = Some (Obj cps)) /\
  (forall h l ps c a w h1 cps x y turn ps1 lg es n,
      MAKE_MOVE Actions <> END_TURN Actions ->
      flow game = Some (GameFlow Actions g) ->
      h !! l = Some (Obj ps) ->
      get a "type" h = Ok (VStr (END_TURN Actions)) h ->
      prop "ctx" ps = VRef c ->
      victory g (prop "G" ps) (VRef c) h = Ok w h1 ->
      h1 !! c = Some (Obj cps) ->
      ToNumber (prop "currentPlayer" cps) = Some x ->
      ToNumber (prop "numPlayers" cps) = Some y ->
      js_add (prop "turn" cps) (VNum (Int 1)) = Some turn ->
      h1 !! l = Some (Obj ps1) ->
      prop "log" ps1 = VRef lg ->
      h1 !! lg = Some (Arr es) ->
      prop "_id" ps1 = VNum (Int n) ->
      exists l' ps' c' cps' h',
        GameReducer Actions game initial (VRef l) a h = Ok (VRef l') h' /\
        h' !! l' = Some (Obj ps') /\
        prop "ctx" ps' = VRef c' /\
        h' !! c' = Some (Obj cps') /\
        prop "winner" cps' = w /\
        (prop "winner" cps' = VNull <-> w = VNull)).
Proof.
  split.
  - intros h l ps a move G' h1 ps1 lg es n c cps
      Hl Hty Hmv Hred Hl1 Hlog Hlg Hid Hctx Hc.
    eexists _, _, _. split; [|split; [|split]].
    + eapply GameReducer_make_move; eassumption.
    + apply lookup_alloc_2_snd.
    + rewrite prop_after_make_move. exact Hctx.
    + apply lookup_alloc_old. exact Hc.
  - intros h l ps c a w h1 cps x y turn ps1 lg es n
      Hne Hf Hl Hty Hctx Hv Hc Hx Hy Ht Hl1 Hlog Hlg Hid.
    assert (Hw : prop "winner" (after_flow cps (next_player x y) turn w) = w)
      by (rewrite prop_after_flow; reflexivity).
    eexists _, _, _, _, _. split; [|split; [|split; [|split; [|split]]]].
    + eapply GameReducer_end_turn_default; eassumption.
    + rewrite lookup_app_r by lia.
      replace (S (S (length h1)) - length h1)%nat with 2%nat by lia.
      reflexivity.
    + rewrite prop_after_end_turn. reflexivity.
    + rewrite lookup_app_r by lia. rewrite Nat.sub_diag. reflexivity.
    + exact Hw.
    + rewrite Hw. reflexivity.
Qed.

End Winner.

(** C2, as the claim states it, fails: in [Demo.lead_game], after a move
    that makes player ["0"] lead and the end of the turn, the winner is
    ["0"]; after one more move that makes nobody lead and the end of that
    turn, the winner is [null] again. *)
Lemma winner_reset_counterexample :
  Demo.winner_of
    (play Demo.actions (Some Demo.lead_game) (VNum (Int 2))
       [Demo.lead (JStr "0"); Demo.end_turn] []) = Some (VStr "0") /\
  Demo.winner_of
    (play Demo.actions (Some Demo.lead_game) (VNum (Int 2))
       [Demo.lead (JStr "0"); Demo.end_turn;
        Demo.lead JNull; Demo.end_turn] []) = Some VNull.
Proof. split; reflexivity. Qed.

Lemma winner_follows_victory_witness :
  (exists l' ps' h',
      GameReducer Demo.actions Demo.lead_game VUndef (VRef 3) (VRef 4)
        Demo.heap0 = Ok (VRef l') h' /\
      h' !! l' = Some (Obj ps') /\
      prop "ctx" ps' = VRef 1 /\
      h' !! 1%nat = Some (Obj Demo.ctx0)) /\
  (exists l' ps' c' cps' h',
      GameReducer Demo.actions
        (install_flow Demo.actions Demo.lead_game) VUndef (VRef 3) (VRef 6)
        Demo.heap0 = Ok (VRef l') h' /\
      h' !! l' = Some (Obj ps') /\
      prop "ctx" ps' = VRef c' /\
      h' !! c' = Some (Obj cps') /\
      prop "winner" cps' = VNull /\
      (prop "winner" cps' = VNull <-> VNull = VNull)).
Proof.
  split.
  - apply (proj1 (winner_follows_victory Demo.actions Demo.lead_game
                    Demo.lead_game VUndef)
             Demo.heap0 3%nat Demo.state0 (VRef 4) (VRef 5) (VRef 5)
             Demo.heap0 Demo.state0 2%nat [] 0 1%nat Demo.ctx0);
      reflexivity.
  - apply (proj2 (winner_follows_victory Demo.actions
                    (install_flow Demo.actions Demo.lead_game)
                    Demo.lead_game VUndef)
             Demo.heap0 3%nat Demo.state0 1%nat (VRef 6) VNull
             Demo.heap0 Demo.ctx0 (Int 0) (Int 2) (VNum (Int 1))
             Demo.state0 2%nat [] 0);
      (discriminate || reflexivity).
Defined.


(** ** Initialization *)

Lemma lookup_app_plus (h ext : heap) k : (h ++ ext) !! (length h + k)%nat = ext !! k.
Proof.
  rewrite lookup_app_r by lia. f_equal. lia.
Qed.

Lemma lookup_app_0 (h ext : heap) : (h ++ ext) !! length h = ext !! 0%nat.
Proof. rewrite <- (lookup_app_plus h ext 0). f_equal. lia. Qed.

(** The literal [initial]: four allocations in a row. *)
Lemma initial_literal_Ok {A} G np (k : val -> M A) (h1 : heap) :
  (let* ctx := alloc (Obj (ctx_props np)) in
   let* log := alloc (Arr []) in
   let* placeholder := alloc (Obj []) in
   let* initial := alloc (Obj [("G", G); ("ctx", ctx); ("log", log);
                               ("_id", VNum (Int 0));
                               ("_initial", placeholder)]) in
   k initial) h1 =
  k (VRef (length h1 + 3)) (h1 ++ initial_objects G np (length h1)).
Proof.
  unfold bind, alloc, initial_objects, initial_props.
  rewrite !length_app. simpl length.
  rewrite <- !app_assoc. simpl.
  replace (length h1 + 1 + 1)%nat with (length h1 + 2)%nat by lia.
  replace (length h1 + 2 + 1)%nat with (length h1 + 3)%nat by lia.
  replace (VRef (length h1)) with (VRef (length h1 + 0)) at 1 by (f_equal; lia).
  rewrite Nat.add_0_r. reflexivity.
Qed.

(** What [JSON.stringify(initial)] returns. *)
Lemma stringify_initial G n r (h1 : heap) :
  ser (length h1) h1 G = Some r ->
  JSON_stringify (VRef (length h1 + 3))
    (h1 ++ initial_objects G (VNum (Int n)) (length h1)) =
  Ok (Some (initial_json r n))
     (h1 ++ initial_objects G (VNum (Int n)) (length h1)).
Proof.
  intros Hser. unfold JSON_stringify.
  set (h2 := h1 ++ initial_objects G (VNum (Int n)) (length h1)).
  assert (Hlen : length h2 = S (S (length h1 + 2)))
    by (unfold h2; rewrite length_app; simpl; lia).
  assert (HG : ser (S (length h1 + 2)) h2 G = Some r)
    by (apply ser_mono with (n := length h1); [exact Hser|lia]).
  assert (Hc : h2 !! length h1 = Some (Obj (ctx_props (VNum (Int n)))))
    by (unfold h2; rewrite lookup_app_0; reflexivity).
  assert (Hl : h2 !! (length h1 + 1)%nat = Some (Arr []))
    by (unfold h2; rewrite lookup_app_plus; reflexivity).
  assert (He : h2 !! (length h1 + 2)%nat = Some (Obj []))
    by (unfold h2; rewrite lookup_app_plus; reflexivity).
  assert (Hi : h2 !! (length h1 + 3)%nat =
               Some (Obj (initial_props G (length h1)
                            (VRef (length h1 + 2)))))
    by (unfold h2; rewrite lookup_app_plus; reflexivity).
  rewrite Hlen, (ser_ref_obj _ _ _ _ Hi).
  unfold initial_props. cbn [ser_props].
  rewrite HG, (ser_ref_obj _ _ _ _ Hc), (ser_ref_arr _ _ _ _ Hl),
    (ser_ref_obj _ _ _ _ He).
  unfold ctx_props. cbn [ser_props ser_elems].
  rewrite !ser_num, !ser_str, !ser_null.
  destruct r; reflexivity.
Qed.

(** Building the members of the snapshot that come after [G]. *)
Lemma build_snapshot_rest n (hm : heap) :
  build_props
    [("ctx", JObj [("turn", JNum 0); ("currentPlayer", JStr "0");
                   ("numPlayers", JNum n); ("winner", JNull)]);
     ("log", JArr []);
     ("_id", JNum 0);
     ("_initial", JObj [])] hm =
  Ok [("ctx", VRef (length hm)); ("log", VRef (length hm + 1));
      ("_id", VNum (Int 0)); ("_initial", VRef (length hm + 2))]
     (hm ++ [Obj (ctx_props (VNum (Int n))); Arr []; Obj []]).
Proof.
  unfold build_props, build, bind, ret, alloc, set_props, ctx_props.
  simpl fold_left.
  rewrite !length_app. simpl length.
  rewrite <- !app_assoc. simpl.
  replace (length hm + 1 + 1)%nat with (length hm + 2)%nat by lia.
  reflexivity.
Qed.

(** What [JSON.parse] builds from the text of [initial]: the copy of [G]
    first, when there is one, and then the four objects of the
    snapshot. *)
Lemma build_initial_json r n (h2 : heap) :
  exists ext gps,
    build (initial_json r n) h2 =
    Ok (VRef (length (h2 ++ ext) + 3))
       (h2 ++ ext ++
        snapshot_objects gps (VNum (Int n)) (length (h2 ++ ext))) /\
    ((r = None /\ ext = [] /\ gps = []) \/
     (exists j v, r = Some j /\ build j h2 = Ok v (h2 ++ ext) /\
                  gps = [("G", v)])).
Proof.
  unfold initial_json. rewrite build_JObj.
  destruct r as [j|].
  - destruct (build_total j h2) as [v [ext Hb]].
    exists ext, [("G", v)]. split; [|right; eauto].
    simpl app. rewrite build_props_cons, !bind_bind.
    run Hb. rewrite !bind_bind.
    run (build_snapshot_rest n (h2 ++ ext)).
    rewrite bind_ret, alloc_Ok, length_app, <- !app_assoc. simpl.
    reflexivity.
  - exists [], []. split; [|left; auto].
    simpl app. rewrite app_nil_r.
    run (build_snapshot_rest n h2).
    rewrite alloc_Ok, length_app, <- app_assoc. simpl.
    reflexivity.
Qed.

Section Initialization.
Variable Actions : ActionTypes.

Lemma createGameReducer_Ok game np n h G h1 r :
  players np = VNum (Int n) ->
  setup game (VNum (Int n)) h = Ok G h1 ->
  ser (length h1) h1 G = Some r ->
  exists ext gps,
    createGameReducer Actions (Some game) np h =
    Ok (install_flow Actions game, VRef (length h1 + 3))
       (initialized h1 G (VNum (Int n)) ext gps) /\
    build (initial_json r n)
      (h1 ++ initial_objects G (VNum (Int n)) (length h1)) =
    Ok (VRef (length h1 + 4 + length ext + 3))
       ((h1 ++ initial_objects G (VNum (Int n)) (length h1)) ++ ext ++
        snapshot_objects gps (VNum (Int n)) (length h1 + 4 + length ext)) /\
    (gps = [] \/ exists v, gps = [("G", v)]).
Proof.
  intros Hnp Hset Hser.
  set (h2 := h1 ++ initial_objects G (VNum (Int n)) (length h1)).
  destruct (build_initial_json r n h2) as [ext [gps [Hb Hr]]].
  assert (Hm : length (h2 ++ ext) = (length h1 + 4 + length ext)%nat)
    by (unfold h2; rewrite !length_app; reflexivity).
  rewrite Hm in Hb.
  exists ext, gps. split; [|split].
  - unfold createGameReducer.
    change (if negb (truthy np) then VNum (Int 2) else np) with (players np).
    rewrite Hnp. run Hset.
    change (Obj [("turn", VNum (Int 0)); ("currentPlayer", VStr "0");
                 ("numPlayers", VNum (Int n)); ("winner", VNull)])
      with (Obj (ctx_props (VNum (Int n)))).
    rewrite initial_literal_Ok. fold h2.
    unfold deepCopy. rewrite bind_bind.
    run (stringify_initial G n r h1 Hser). fold h2.
    unfold JSON_parse. run Hb.
    assert (Hi : (h2 ++ ext ++
                  snapshot_objects gps (VNum (Int n))
                    (length h1 + 4 + length ext))
                   !! (length h1 + 3)%nat =
                 Some (Obj (initial_props G (length h1)
                              (VRef (length h1 + 2))))).
    { unfold h2. rewrite <- app_assoc. rewrite lookup_app_plus.
      reflexivity. }
    unfold bind, set. rewrite Hi. unfold initialized, h2.
    rewrite <- !app_assoc. reflexivity.
  - exact Hb.
  - destruct Hr as [(_ & _ & ->)|(j & v & _ & _ & ->)]; eauto.
Qed.

End Initialization.

(** Where the objects are in the heap [createGameReducer] leaves. *)
Lemma initialized_initial (h1 : heap) G np ext gps :
  initialized h1 G np ext gps !! (length h1 + 3)%nat =
  Some (Obj (initial_props G (length h1)
               (VRef (length h1 + 4 + length ext + 3)))).
Proof.
  unfold initialized. rewrite list_lookup_insert_eq; [reflexivity|].
  rewrite !length_app. simpl. lia.
Qed.

Lemma initialized_first (h1 : heap) G np ext gps k o :
  (k < 3)%nat ->
  initial_objects G np (length h1) !! k = Some o ->
  initialized h1 G np ext gps !! (length h1 + k)%nat = Some o.
Proof.
  intros Hk H. unfold initialized.
  rewrite list_lookup_insert_ne by lia.
  rewrite lookup_app_plus.
  apply lookup_app_l_Some. exact H.
Qed.

Lemma initialized_snapshot (h1 : heap) G np ext gps k :
  initialized h1 G np ext gps !! (length h1 + 4 + length ext + k)%nat =
  snapshot_objects gps np (length h1 + 4 + length ext) !! k.
Proof.
  unfold initialized.
  rewrite list_lookup_insert_ne by lia.
  rewrite <- !Nat.add_assoc, lookup_app_plus.
  change 4%nat with (length (initial_objects G np (length h1))) at 1.
  rewrite lookup_app_plus, lookup_app_plus. reflexivity.
Qed.

Lemma prop_snapshot_initial gps m v :
  gps = [] \/ gps = [("G", v)] ->
  prop "_initial" (snapshot_props gps m) = VRef (m + 2).
Proof. intros [->| ->]; reflexivity. Qed.

Section InitializationClaims.
Variable Actions : ActionTypes.

(** C8: for a positive player count [n] and a [G] that can be
    serialized, [createGameReducer] returns the state whose [G] is what
    [setup] returned for [n], whose [ctx] is
    [{turn: 0, currentPlayer: "0", numPlayers: n, winner: null}], whose
    [log] is empty and whose [_id] is 0.  A falsy [numPlayers] stands for
    2, and an absent game definition for [default_game], whose [setup]
    returns a new empty object, whose [reducer] returns [G] and whose
    [victory] returns [null]. *)
Theorem createGameReducer_initial_state :
  (forall game n h G h1 r,
      0 < n ->
      setup game (VNum (Int n)) h = Ok G h1 ->
      ser (length h1) h1 G = Some r ->
      exists i c lg snap h',
        createGameReducer Actions (Some game) (VNum (Int n)) h =
        Ok (install_flow Actions game, VRef i) h' /\
        h' !! i = Some (Obj [("G", G); ("ctx", VRef c); ("log", VRef lg);
                             ("_id", VNum (Int 0)); ("_initial", snap)]) /\
        h' !! c = Some (Obj [("turn", VNum (Int 0));
                             ("currentPlayer", VStr "0");
                             ("numPlayers", VNum (Int n));
                             ("winner", VNull)]) /\
        h' !! lg = Some (Arr [])) /\
  (forall game np,
      truthy np = false ->
      createGameReducer Actions game np =
      createGameReducer Actions game (VNum (Int 2))) /\
  (forall np,
      createGameReducer Actions None np =
      createGameReducer Actions (Some default_game) np) /\
  (forall x h, setup default_game x h = Ok (VRef (length h)) (h ++ [Obj []])) /\
  (forall G move ctx h, reducer default_game G move ctx h = Ok G h) /\
  (forall G ctx h, victory default_game G ctx h = Ok VNull h).
Proof.
  split; [|split; [|split; [|split; [|split]]]]; try reflexivity.
  - intros game n h G h1 r Hn Hset Hser.
    assert (Hnp : players (VNum (Int n)) = VNum (Int n)).
    { unfold players. simpl. destruct (Z.eqb_spec n 0); [lia|reflexivity]. }
    destruct (createGameReducer_Ok Actions game _ n h G h1 r Hnp Hset Hser)
      as [ext [gps [Hrun _]]].
    eexists _, _, _, _, _. split; [exact Hrun|]. split; [|split].
    + apply initialized_initial.
    + rewrite <- (Nat.add_0_r (length h1)) at 1.
      apply initialized_first; [lia|reflexivity].
    + apply initialized_first; [lia|reflexivity].
  - intros game np Hnp. unfold createGameReducer. rewrite Hnp. reflexivity.
Qed.

(** C10: when [G] can be serialized, the [_initial] of the state that
    [createGameReducer] returns is a snapshot whose own [_initial] is an
    empty object: the copy was taken while [initial._initial] was still
    the placeholder [{}]. *)
Theorem snapshot_initial_is_placeholder game np n h G h1 r :
  players np = VNum (Int n) ->
  setup game (VNum (Int n)) h = Ok G h1 ->
  ser (length h1) h1 G = Some r ->
  exists i ips snap sps e h',
    createGameReducer Actions (Some game) np h =
    Ok (install_flow Actions game, VRef i) h' /\
    h' !! i = Some (Obj ips) /\
    prop "_initial" ips = VRef snap /\
    h' !! snap = Some (Obj sps) /\
    prop "_initial" sps = VRef e /\
    h' !! e = Some (Obj []).
Proof.
  intros Hnp Hset Hser.
  destruct (createGameReducer_Ok Actions game np n h G h1 r Hnp Hset Hser)
    as [ext [gps [Hrun [_ Hgps]]]].
  eexists _, _, _, _, _, _. split; [exact Hrun|].
  split; [apply initialized_initial|].
  split; [reflexivity|].
  split; [rewrite initialized_snapshot; reflexivity|].
  split.
  - apply prop_snapshot_initial with (v := match gps with
                                            | (_, v) :: _ => v
                                            | [] => VUndef
                                            end).
    destruct Hgps as [->|[v ->]]; auto.
  - rewrite initialized_snapshot. reflexivity.
Qed.

End InitializationClaims.

Lemma createGameReducer_initial_state_witness :
  exists i c lg snap h',
    createGameReducer Demo.actions (Some Demo.lead_game) (VNum (Int 2)) [] =
    Ok (install_flow Demo.actions Demo.lead_game, VRef i) h' /\
    h' !! i = Some (Obj [("G", VRef 0); ("ctx", VRef c); ("log", VRef lg);
                         ("_id", VNum (Int 0)); ("_initial", snap)]) /\
    h' !! c = Some (Obj [("turn", VNum (Int 0));
                         ("currentPlayer", VStr "0");
                         ("numPlayers", VNum (Int 2));
                         ("winner", VNull)]) /\
    h' !! lg = Some (Arr []).
Proof.
  apply (proj1 (createGameReducer_initial_state Demo.actions)
           Demo.lead_game 2 [] (VRef 0) [Obj [("leader", VNull)]]
           (Some (JObj [("leader", JNull)])));
    (lia || reflexivity).
Defined.

Lemma snapshot_initial_is_placeholder_witness :
  exists i ips snap sps e h',
    createGameReducer Demo.actions (Some Demo.lead_game) VUndef [] =
    Ok (install_flow Demo.actions Demo.lead_game, VRef i) h' /\
    h' !! i = Some (Obj ips) /\
    prop "_initial" ips = VRef snap /\
    h' !! snap = Some (Obj sps) /\
    prop "_initial" sps = VRef e /\
    h' !! e = Some (Obj []).
Proof.
  apply (snapshot_initial_is_placeholder Demo.actions Demo.lead_game VUndef 2
           [] (VRef 0) [Obj [("leader", VNull)]]
           (Some (JObj [("leader", JNull)])));
    reflexivity.
Defined.

(** ** Reachability *)

Lemma reach_mono (h : heap) (R R' : loc -> Prop) l :
  (forall x, R x -> R' x) -> reach h R l -> reach h R' l.
Proof.
  intros HR. induction 1 as [l Hl|l o l' _ IH Ho Hin].
  - apply reach_root. auto.
  - eapply reach_step; eassumption.
Qed.

(** A set that holds the roots and is closed under the references of the
    heap holds everything reachable. *)
Lemma reach_closed (h : heap) (R P : loc -> Prop) l :
  (forall x, R x -> P x) ->
  (forall x o x', P x -> h !! x = Some o -> In x' (obj_refs o) -> P x') ->
  reach h R l -> P l.
Proof.
  intros HR HP. induction 1 as [l Hl|l o l' _ IH Ho Hin]; eauto.
Qed.

Lemma reach_bound (h : heap) (R : loc -> Prop) l :
  wf_heap h ->
  (forall x, R x -> (x < length h)%nat) ->
  reach h R l -> (l < length h)%nat.
Proof.
  intros Hwf HR.
  apply (reach_closed h R (fun x => (x < length h)%nat)); [exact HR|].
  intros x o x' _ Ho Hin. exact (Hwf _ _ _ Ho Hin).
Qed.

(** Reachability from old roots ignores the objects allocated since. *)
Lemma reach_app_old (h ext : heap) (R : loc -> Prop) l :
  wf_heap h ->
  (forall x, R x -> (x < length h)%nat) ->
  reach (h ++ ext) R l -> reach h R l.
Proof.
  intros Hwf HR. induction 1 as [l Hl|l o l' _ IH Ho Hin].
  - apply reach_root. exact Hl.
  - pose proof (reach_bound _ _ _ Hwf HR IH) as Hlt.
    rewrite lookup_app_l in Ho by exact Hlt.
    eapply reach_step; eassumption.
Qed.

(** New objects that refer to new objects only give no way back to the
    old ones. *)
Lemma reach_app_new (h ext : heap) (Q N : loc -> Prop) l :
  wf_heap h ->
  (forall x, Q x -> (x < length h)%nat) ->
  (forall x, N x -> (length h <= x)%nat) ->
  (forall k o x, ext !! k = Some o -> In x (obj_refs o) ->
                 (length h <= x)%nat) ->
  reach (h ++ ext) (fun x => Q x \/ N x) l ->
  (l < length h)%nat ->
  reach h Q l.
Proof.
  intros Hwf HQ HN Hext Hr.
  assert (H : (l < length h)%nat /\ reach h Q l \/ (length h <= l)%nat).
  { induction Hr as [l [Hl|Hl]|l o l' _ IH Ho Hin].
    - left. split; [auto|]. apply reach_root. exact Hl.
    - right. auto.
    - destruct IH as [[Hlt IH]|Hge].
      + rewrite lookup_app_l in Ho by exact Hlt.
        left. split; [exact (Hwf _ _ _ Ho Hin)|].
        eapply reach_step; eassumption.
      + rewrite lookup_app_r in Ho by exact Hge.
        right. exact (Hext _ _ _ Ho Hin). }
  intros Hlt. destruct H as [[_ H]|H]; [exact H|lia].
Qed.

(** A new object that is a root passes its references on. *)
Lemma reach_alloc_root (h : heap) o (Q : loc -> Prop) l :
  wf_heap h ->
  (forall x, Q x -> (x < length h)%nat) ->
  (forall x, In x (obj_refs o) -> (x < length h)%nat) ->
  reach (h ++ [o]) (fun x => Q x \/ x = length h) l ->
  l = length h \/ reach h (fun x => Q x \/ In x (obj_refs o)) l.
Proof.
  intros Hwf HQ Ho.
  induction 1 as [l [Hl|Hl]|l o' l' _ IH Hl Hin].
  - right. apply reach_root. auto.
  - left. exact Hl.
  - right. destruct IH as [->|IH].
    + rewrite lookup_alloc_new in Hl. injection Hl as <-.
      apply reach_root. auto.
    + assert (Hlt : (l < length h)%nat).
      { eapply reach_bound; [exact Hwf| |exact IH].
        intros x [Hx|Hx]; auto. }
      rewrite lookup_app_l in Hl by exact Hlt.
      eapply reach_step; eassumption.
Qed.

(** Roots that can be reached from the other roots add nothing. *)
Lemma reach_absorb (h : heap) (A B : loc -> Prop) l :
  (forall x, B x -> reach h A x) ->
  reach h (fun x => A x \/ B x) l -> reach h A l.
Proof.
  intros HB. induction 1 as [l [Hl|Hl]|l o l' _ IH Ho Hin].
  - apply reach_root. exact Hl.
  - apply HB. exact Hl.
  - eapply reach_step; eassumption.
Qed.

(** ** Confined computations *)

(** Inclusions between sets of roots. *)
Ltac roots := simpl; intros; intuition (subst; auto).

Lemma confined_weaken {A} (rf : A -> list loc) (R R' : loc -> Prop) m :
  (forall x, R x -> R' x) -> confined rf R m -> confined rf R' m.
Proof.
  intros HR Hm h a h' Hwf Hb Hrun.
  destruct (Hm h a h' Hwf (fun l Hl => Hb l (HR l Hl)) Hrun)
    as (Hwf' & Ha & Hlen & Hkeep & Hnew).
  repeat split; try assumption.
  - intros l o Ho. destruct (Hkeep l o Ho) as [H|H]; [left; exact H|].
    right. eapply reach_mono; [exact HR|exact H].
  - intros Q l HQ Hl Hr.
    apply (reach_mono h (fun x => (Q x \/ R' x) \/ R x)); [roots|].
    apply Hnew; [|exact Hl|].
    + intros x [Hx|Hx]; auto.
    + eapply reach_mono; [|exact Hr]. roots.
Qed.

Lemma confined_bind {A B} (rfA : A -> list loc) (rfB : B -> list loc)
    (R : loc -> Prop) (m : M A) (k : A -> M B) :
  confined rfA R m ->
  (forall a, confined rfB (fun x => R x \/ In x (rfA a)) (k a)) ->
  confined rfB R (bind m k).
Proof.
  intros Hm Hk h b h' Hwf Hb Hrun.
  unfold bind in Hrun.
  destruct (m h) as [a h1| |] eqn:Em; try discriminate.
  destruct (Hm h a h1 Hwf Hb Em) as (Hwf1 & Ha1 & Hlen1 & Hkeep1 & Hnew1).
  assert (Hb1 : forall l, R l \/ In l (rfA a) -> (l < length h1)%nat).
  { intros l [Hl|Hl]; [specialize (Hb l Hl); lia|auto]. }
  destruct (Hk a h1 b h' Hwf1 Hb1 Hrun)
    as (Hwf2 & Ha2 & Hlen2 & Hkeep2 & Hnew2).
  repeat split; try assumption; try lia.
  - intros l o Ho.
    destruct (Hkeep1 l o Ho) as [H1|H1]; [|right; exact H1].
    destruct (Hkeep2 l o H1) as [H2|H2]; [left; exact H2|].
    right. apply lookup_lt_Some in Ho.
    apply (reach_mono h (fun x => False \/ R x)); [roots|].
    apply Hnew1; [roots|exact Ho|].
    eapply reach_mono; [|exact H2]. roots.
  - intros Q l HQ Hl Hr.
    apply Hnew1; [exact HQ|exact Hl|].
    apply (reach_mono h1 (fun x => Q x \/ (R x \/ In x (rfA a)))); [roots|].
    apply Hnew2; [|lia|].
    + intros x Hx. specialize (HQ x Hx). lia.
    + eapply reach_mono; [|exact Hr]. roots.
Qed.

(** A computation that only reads, and returns what the roots reach. *)
Lemma confined_read {A} (rf : A -> list loc) (R : loc -> Prop) (m : M A) :
  (forall h a h', m h = Ok a h' ->
                  h' = h /\ forall l, In l (rf a) -> reach h R l) ->
  confined rf R m.
Proof.
  intros Hm h a h' Hwf Hb Hrun.
  destruct (Hm h a h' Hrun) as [-> Ha].
  repeat split; try assumption; try lia.
  - intros l Hl. eapply reach_bound; eauto.
  - intros l o Ho. left. exact Ho.
  - intros Q l HQ Hl Hr.
    apply (reach_absorb h _ (fun x => In x (rf a))).
    + intros x Hx. eapply reach_mono; [|apply Ha; exact Hx]. roots.
    + eapply reach_mono; [|exact Hr]. roots.
Qed.

Lemma confined_ret {A} (rf : A -> list loc) (R : loc -> Prop) a :
  (forall l, In l (rf a) -> R l) -> confined rf R (ret a).
Proof.
  intros Ha. apply confined_read. intros h a' h' H.
  injection H as <- <-. split; [reflexivity|].
  intros l Hl. apply reach_root. auto.
Qed.

Lemma confined_modelled {A} (rf : A -> list loc) (R : loc -> Prop) o :
  (forall a, o = Some a -> rf a = []) -> confined rf R (modelled o).
Proof.
  intros Ho. apply confined_read. intros h a h' H.
  unfold modelled in H. destruct o as [a'|]; [|discriminate].
  injection H as <- <-. split; [reflexivity|].
  rewrite (Ho _ eq_refl). intros l [].
Qed.

Lemma lookup_prop_refs k ps v l :
  lookup_prop k ps = Some v -> In l (val_refs v) -> In l (props_refs ps).
Proof.
  induction ps as [|[k' v'] ps IH]; simpl; [discriminate|].
  intros H Hl. apply in_app_iff.
  destruct (String.eqb k k'); [injection H as ->; auto|auto].
Qed.

Lemma prop_refs k ps l : In l (val_refs (prop k ps)) -> In l (props_refs ps).
Proof.
  unfold prop. destruct (lookup_prop k ps) as [v|] eqn:E; [|intros []].
  apply lookup_prop_refs with (k := k). exact E.
Qed.

Lemma confined_get (R : loc -> Prop) v k :
  (forall l, In l (val_refs v) -> R l) -> confined val_refs R (get v k).
Proof.
  intros Hv. apply confined_read. intros h a h' H.
  unfold get in H.
  destruct v as [| | | | |l]; try discriminate.
  destruct (h !! l) as [[ps|es]|] eqn:El; try discriminate.
  injection H as <- <-. split; [reflexivity|].
  intros x Hx. eapply reach_step; [apply reach_root, Hv; left; reflexivity| |].
  - exact El.
  - simpl. eapply prop_refs. exact Hx.
Qed.

Lemma set_prop_refs k v ps l :
  In l (props_refs (set_prop k v ps)) ->
  In l (val_refs v) \/ In l (props_refs ps).
Proof.
  induction ps as [|[k' v'] ps IH]; simpl.
  - rewrite app_nil_r. auto.
  - destruct (String.eqb k k'); simpl; rewrite !in_app_iff; [tauto|].
    intros [H|H]; [tauto|]. destruct (IH H); tauto.
Qed.

Lemma set_props_refs kvs ps l :
  In l (props_refs (set_props kvs ps)) ->
  In l (props_refs kvs) \/ In l (props_refs ps).
Proof.
  unfold set_props. revert ps.
  induction kvs as [|[k v] kvs IH]; intros ps; simpl; [auto|].
  intros H. apply IH in H. rewrite in_app_iff.
  destruct H as [H|H]; [tauto|].
  apply set_prop_refs in H. tauto.
Qed.

Lemma wf_heap_alloc (h : heap) o :
  wf_heap h ->
  (forall l, In l (obj_refs o) -> (l < length h)%nat) ->
  wf_heap (h ++ [o]).
Proof.
  intros Hwf Ho l o' l' Hl Hin. rewrite length_app. simpl.
  destruct (Nat.lt_ge_cases l (length h)) as [Hlt|Hge].
  - rewrite lookup_app_l in Hl by exact Hlt.
    specialize (Hwf _ _ _ Hl Hin). lia.
  - rewrite lookup_app_r in Hl by exact Hge.
    destruct (l - length h)%nat; [|discriminate].
    injection Hl as <-. specialize (Ho _ Hin). lia.
Qed.

(** An allocation whose references the roots reach. *)
Lemma confined_alloc_reach (R : loc -> Prop) (h : heap) o :
  wf_heap h ->
  (forall l, R l -> (l < length h)%nat) ->
  (forall l, In l (obj_refs o) -> reach h R l) ->
  wf_heap (h ++ [o]) /\
  (forall (Q : loc -> Prop) l,
      (forall x, Q x -> (x < length h)%nat) ->
      (l < length h)%nat ->
      reach (h ++ [o]) (fun x => Q x \/ R x \/ x = length h) l ->
      reach h (fun x => Q x \/ R x) l).
Proof.
  intros Hwf Hb Ho.
  assert (Hob : forall l, In l (obj_refs o) -> (l < length h)%nat)
    by (intros l Hl; eapply reach_bound; eauto).
  split; [apply wf_heap_alloc; assumption|].
  intros Q l HQ Hl Hr.
  apply (reach_absorb h _ (fun x => In x (obj_refs o))).
  - intros x Hx. eapply reach_mono; [|apply Ho; exact Hx]. roots.
  - destruct (reach_alloc_root h o (fun x => Q x \/ R x) l Hwf) as [->|H].
    + intros x [Hx|Hx]; auto.
    + exact Hob.
    + eapply reach_mono; [|exact Hr]. roots.
    + lia.
    + exact H.
Qed.

Lemma confined_alloc (R : loc -> Prop) o :
  (forall l, In l (obj_refs o) -> R l) -> confined val_refs R (alloc o).
Proof.
  intros Ho h a h' Hwf Hb Hrun. injection Hrun as <- <-.
  destruct (confined_alloc_reach R h o Hwf Hb) as [Hwf' Hnew].
  { intros l Hl. apply reach_root. auto. }
  repeat split; try assumption.
  - intros l [<-|[]]. rewrite length_app. simpl. lia.
  - rewrite length_app. lia.
  - intros l o' Hl. left. apply lookup_app_l_Some. exact Hl.
  - intros Q l HQ Hl Hr. apply Hnew; [exact HQ|exact Hl|].
    eapply reach_mono; [|exact Hr]. roots.
Qed.

Lemma confined_object_spread (R : loc -> Prop) v kvs :
  (forall l, In l (val_refs v) -> R l) ->
  (forall l, In l (props_refs kvs) -> R l) ->
  confined val_refs R (object_spread v kvs).
Proof.
  intros Hv Hkvs h a h' Hwf Hb Hrun.
  unfold object_spread, bind in Hrun.
  destruct (own_props v h) as [ps h1| |] eqn:Eo; try discriminate.
  assert (Hps : h1 = h /\ forall l, In l (props_refs ps) -> reach h R l).
  { unfold own_props in Eo.
    destruct v as [| | | | |x]; try discriminate;
      try (injection Eo as <- <-; split; [reflexivity|intros l []]).
    destruct (h !! x) as [[ps'|es]|] eqn:Ex; try discriminate.
    injection Eo as <- <-. split; [reflexivity|].
    intros l Hl.
    eapply reach_step; [apply reach_root, Hv; left; reflexivity|exact Ex|].
    exact Hl. }
  destruct Hps as [-> Hps]. injection Hrun as <- <-.
  destruct (confined_alloc_reach R h (Obj (set_props kvs ps)) Hwf Hb)
    as [Hwf' Hnew].
  { intros l Hl. simpl in Hl. apply set_props_refs in Hl.
    destruct Hl as [Hl|Hl]; [apply reach_root; auto|auto]. }
  repeat split; try assumption.
  - intros l [<-|[]]. rewrite length_app. simpl. lia.
  - rewrite length_app. lia.
  - intros l o' Hl. left. apply lookup_app_l_Some. exact Hl.
  - intros Q l HQ Hl Hr. apply Hnew; [exact HQ|exact Hl|].
    eapply reach_mono; [|exact Hr]. roots.
Qed.

Lemma wf_heap_insert (h : heap) i o :
  wf_heap h ->
  (forall x, In x (obj_refs o) -> (x < length h)%nat) ->
  wf_heap (<[i := o]> h).
Proof.
  intros Hwf Ho l o' x Hl Hx. rewrite length_insert.
  destruct (Nat.eq_dec l i) as [->|Hne].
  - destruct (Nat.lt_ge_cases i (length h)) as [Hlt|Hge].
    + rewrite list_lookup_insert_eq in Hl by exact Hlt.
      injection Hl as <-. auto.
    + rewrite list_insert_ge in Hl by exact Hge. eauto.
  - rewrite list_lookup_insert_ne in Hl by auto. eauto.
Qed.

(** A write to an object that is a root, of a value that is one. *)
Lemma confined_set (R : loc -> Prop) v k x :
  (forall l, In l (val_refs v) -> R l) ->
  (forall l, In l (val_refs x) -> R l) ->
  confined (fun _ : unit => []) R (set v k x).
Proof.
  intros Hv Hx h a h' Hwf Hb Hrun. unfold set in Hrun.
  destruct v as [| | | | |l]; try discriminate.
  destruct (h !! l) as [[ps|es]|] eqn:El; try discriminate.
  injection Hrun as <- <-.
  assert (HRl : R l) by (apply Hv; left; reflexivity).
  assert (Hnew : forall y, In y (props_refs (set_prop k x ps)) ->
                           reach h R y).
  { intros y Hy. apply set_prop_refs in Hy. destruct Hy as [Hy|Hy].
    - apply reach_root. auto.
    - eapply reach_step; [apply reach_root; exact HRl|exact El|exact Hy]. }
  repeat split.
  - apply wf_heap_insert; [exact Hwf|].
    intros y Hy. eapply reach_bound; [exact Hwf|exact Hb|].
    apply Hnew. exact Hy.
  - intros y [].
  - rewrite length_insert. lia.
  - intros l0 o Ho. destruct (Nat.eq_dec l0 l) as [->|Hne].
    + right. apply reach_root. exact HRl.
    + left. rewrite list_lookup_insert_ne by auto. exact Ho.
  - intros Q l0 HQ Hl0 Hr.
    induction Hr as [y [Hy|[Hy|[]]]|y o y' _ IH Ho Hy'].
    + apply reach_root. auto.
    + apply reach_root. auto.
    + destruct (Nat.eq_dec y l) as [->|Hne].
      * rewrite list_lookup_insert_eq in Ho
          by (apply lookup_lt_Some in El; exact El).
        injection Ho as <-.
        eapply reach_mono; [|apply Hnew; exact Hy']. roots.
      * rewrite list_lookup_insert_ne in Ho by auto.
        eapply reach_step; [|exact Ho|exact Hy'].
        apply IH. apply lookup_lt_Some in Ho. exact Ho.
Qed.

Lemma confined_default_param (R : loc -> Prop) p :
  (forall l, In l (val_refs p) -> R l) ->
  confined val_refs R (default_param p (alloc (Obj []))).
Proof.
  intros Hp. destruct p; simpl;
    try (apply confined_ret; exact Hp).
  apply confined_alloc. intros l [].
Qed.

Lemma js_add_refs a b v : js_add a b = Some v -> val_refs v = [].
Proof.
  unfold js_add. destruct (is_string a || is_string b).
  - destruct (ToString a), (ToString b); try discriminate.
    intros H. injection H as <-. reflexivity.
  - destruct (ToNumber a), (ToNumber b); try discriminate.
    intros H. injection H as <-. reflexivity.
Qed.

Lemma js_rem_refs a b v : js_rem a b = Some v -> val_refs v = [].
Proof.
  unfold js_rem. destruct (ToNumber a), (ToNumber b); try discriminate.
  intros H. injection H as <-. reflexivity.
Qed.

Lemma val_refs_In l v : In l (val_refs v) -> v = VRef l.
Proof.
  destruct v; simpl; intros H; try contradiction.
  destruct H as [->|[]]. reflexivity.
Qed.

(** Membership of the references of an argument in the roots of a call. *)
Ltac in_roots :=
  let l := fresh "l" in
  let Hl := fresh "Hl" in
  intros l Hl; unfold props_refs in Hl; simpl in Hl;
  rewrite ?in_app_iff in Hl;
  first [ tauto
        | solve [ apply val_refs_In in Hl; subst; unfold roots; simpl; tauto ] ].

Section FlowConfined.
Variable Actions : ActionTypes.

(** The default turn flow is confined when [victory] is. *)
Lemma GameFlow_confined (F : loc -> Prop) game ctx a G :
  (forall G ctx, confined val_refs (roots F [G; ctx]) (victory game G ctx)) ->
  confined val_refs (roots F [ctx; a; G]) (GameFlow Actions game ctx a G).
Proof.
  intros Hv. unfold GameFlow.
  apply (confined_bind val_refs); [apply confined_default_param; in_roots|].
  intros ctx0.
  apply (confined_bind val_refs); [apply confined_get; in_roots|].
  intros ty.
  destruct (strict_eq ty (VStr (END_TURN Actions)));
    [|apply confined_ret; in_roots].
  apply (confined_bind val_refs).
  { eapply confined_weaken; [|apply Hv].
    unfold roots. simpl. intros x [Hx|[Hx|[Hx|[]]]].
    - tauto.
    - tauto.
    - subst ctx0. simpl. tauto. }
  intros w.
  apply (confined_bind val_refs); [apply confined_get; in_roots|].
  intros cp.
  apply (confined_bind (fun _ : num => [])).
  { apply confined_modelled. reflexivity. }
  intros n.
  apply (confined_bind val_refs).
  { apply confined_modelled. intros v. apply js_add_refs. }
  intros n1.
  apply (confined_bind val_refs); [apply confined_get; in_roots|].
  intros np.
  apply (confined_bind val_refs).
  { apply confined_modelled. intros v. apply js_rem_refs. }
  intros r.
  apply (confined_bind val_refs).
  { apply confined_modelled. intros v. apply js_add_refs. }
  intros currentPlayer.
  apply (confined_bind val_refs); [apply confined_get; in_roots|].
  intros t.
  apply (confined_bind val_refs).
  { apply confined_modelled. intros v. apply js_add_refs. }
  intros turn.
  apply confined_object_spread; in_roots.
Qed.

End FlowConfined.

(** ** Building, and serializing what was built *)

Lemma set_props_app (acc ps : props) :
  List.NoDup (map fst (acc ++ ps)) -> set_props ps acc = acc ++ ps.
Proof.
  unfold set_props. revert acc.
  induction ps as [|[k v] ps IH]; intros acc Hnd; simpl.
  - rewrite app_nil_r. reflexivity.
  - assert (Hset : set_prop k v acc = acc ++ [(k, v)]).
    { assert (Hk : ~ In k (map fst acc)).
      { rewrite map_app in Hnd. simpl in Hnd.
        apply NoDup_remove_2 in Hnd. rewrite in_app_iff in Hnd. tauto. }
      clear -Hk. induction acc as [|[k' v'] acc IHa]; simpl; [reflexivity|].
      simpl in Hk. destruct (String.eqb_spec k k') as [->|_]; [tauto|].
      rewrite IHa by tauto. reflexivity. }
    rewrite Hset, IH.
    + rewrite <- app_assoc. reflexivity.
    + rewrite <- app_assoc. exact Hnd.
Qed.

Lemma set_props_nodup (ps : props) :
  List.NoDup (map fst ps) -> set_props ps [] = ps.
Proof. intros H. apply (set_props_app [] ps H). Qed.

Lemma closed_in_app lo hi (e1 e2 : heap) :
  closed_in lo hi e1 -> closed_in lo hi e2 -> closed_in lo hi (e1 ++ e2).
Proof.
  intros H1 H2 k o x Hk Hx.
  destruct (Nat.lt_ge_cases k (length e1)) as [Hlt|Hge].
  - rewrite lookup_app_l in Hk by exact Hlt. eauto.
  - rewrite lookup_app_r in Hk by exact Hge. eauto.
Qed.

Lemma closed_in_mono lo hi lo' hi' (e : heap) :
  (lo' <= lo)%nat -> (hi <= hi')%nat ->
  closed_in lo hi e -> closed_in lo' hi' e.
Proof. intros Hlo Hhi H k o x Hk Hx. specialize (H _ _ _ Hk Hx). lia. Qed.

Lemma closed_in_one lo hi o :
  within lo hi (obj_refs o) -> closed_in lo hi [o].
Proof.
  intros Ho [|k] o' x Hk Hx; [|discriminate].
  injection Hk as <-. auto.
Qed.

Lemma within_mono lo hi lo' hi' ls :
  (lo' <= lo)%nat -> (hi <= hi')%nat -> within lo hi ls -> within lo' hi' ls.
Proof. intros Hlo Hhi H x Hx. specialize (H _ Hx). lia. Qed.

Lemma within_app lo hi l1 l2 :
  within lo hi l1 -> within lo hi l2 -> within lo hi (l1 ++ l2).
Proof. intros H1 H2 x Hx. apply in_app_iff in Hx. destruct Hx; auto. Qed.

Lemma build_elems_spec js :
  Forall (fun j => forall h, exists v ext, built j h v ext) js ->
  forall h, exists vs ext,
    build_elems js h = Ok vs (h ++ ext) /\
    closed_in (length h) (length h + length ext) ext /\
    within (length h) (length h + length ext) (flat_map val_refs vs) /\
    (Forall json_ok js -> forall n ext', (elems_depth js <= n)%nat ->
       ser_elems (ser n (h ++ ext ++ ext')) vs = Some js).
Proof.
  induction 1 as [|j js Hj _ IH]; intros h.
  - exists [], []. simpl. unfold ret. rewrite app_nil_r.
    split; [reflexivity|]. split; [intros k o x Hk; discriminate|].
    split; [intros x []|]. reflexivity.
  - destruct (Hj h) as (v & e1 & Hb1 & Hc1 & Hv1 & Hs1).
    destruct (IH (h ++ e1)) as (vs & e2 & Hb2 & Hc2 & Hv2 & Hs2).
    rewrite length_app in Hc2, Hv2.
    exists (v :: vs), (e1 ++ e2). rewrite length_app.
    split; [|split; [|split]].
    + rewrite build_elems_cons. run Hb1. run Hb2.
      unfold ret. rewrite app_assoc. reflexivity.
    + apply closed_in_app; eapply closed_in_mono; try eassumption; lia.
    + simpl. apply within_app; eapply within_mono; try eassumption; lia.
    + intros Hok n ext' Hn. simpl in Hn.
      apply Forall_cons_iff in Hok. destruct Hok as [Hok1 Hok2].
      simpl. rewrite <- (app_assoc e1 e2 ext').
      rewrite (Hs1 Hok1 n (e2 ++ ext')) by lia.
      rewrite (app_assoc h e1 (e2 ++ ext')).
      rewrite (Hs2 Hok2 n ext') by lia. reflexivity.
Qed.

Lemma build_props_spec fs :
  Forall (fun f => forall h, exists v ext, built (snd f) h v ext) fs ->
  forall h, exists ps ext,
    build_props fs h = Ok ps (h ++ ext) /\
    closed_in (length h) (length h + length ext) ext /\
    within (length h) (length h + length ext) (props_refs ps) /\
    map fst ps = map fst fs /\
    (Forall (fun f => json_ok (snd f)) fs ->
     forall n ext', (members_depth fs <= n)%nat ->
       ser_props (ser n (h ++ ext ++ ext')) ps = Some fs).
Proof.
  induction 1 as [|[k j] fs Hj _ IH]; intros h.
  - exists [], []. simpl. unfold ret. rewrite app_nil_r.
    split; [reflexivity|]. split; [intros k o x Hk; discriminate|].
    split; [intros x []|]. split; reflexivity.
  - destruct (Hj h) as (v & e1 & Hb1 & Hc1 & Hv1 & Hs1).
    destruct (IH (h ++ e1)) as (ps & e2 & Hb2 & Hc2 & Hv2 & Hk2 & Hs2).
    rewrite length_app in Hc2, Hv2.
    exists ((k, v) :: ps), (e1 ++ e2). rewrite length_app.
    split; [|split; [|split; [|split]]].
    + rewrite build_props_cons. run Hb1. run Hb2.
      unfold ret. rewrite app_assoc. reflexivity.
    + apply closed_in_app; eapply closed_in_mono; try eassumption; lia.
    + unfold props_refs. simpl.
      apply within_app; eapply within_mono; try eassumption; lia.
    + simpl. rewrite Hk2. reflexivity.
    + intros Hok n ext' Hn. simpl in Hn.
      apply Forall_cons_iff in Hok. destruct Hok as [Hok1 Hok2].
      simpl in Hok1, Hs1. simpl. rewrite <- (app_assoc e1 e2 ext').
      rewrite (Hs1 Hok1 n (e2 ++ ext')) by lia.
      rewrite (app_assoc h e1 (e2 ++ ext')).
      rewrite (Hs2 Hok2 n ext') by lia. reflexivity.
Qed.

Lemma build_spec j : forall h, exists v ext, built j h v ext.
Proof.
  induction j as [| b | z | s | js IH | fs IH] using json_rect'; intros h.
  1-4: eexists _, []; unfold built; simpl; unfold ret; rewrite app_nil_r;
    (split; [reflexivity|]); (split; [intros k o x Hk; discriminate|]);
    (split; [intros x []|]); intros _ [|n] ext' _; reflexivity.
  - destruct (build_elems_spec js IH h) as (vs & e & Hb & Hc & Hv & Hs).
    exists (VRef (length h + length e)), (e ++ [Arr vs]).
    unfold built. rewrite !length_app. simpl length.
    split; [|split; [|split]].
    + rewrite build_JArr. run Hb.
      rewrite alloc_Ok, length_app, app_assoc. reflexivity.
    + apply closed_in_app.
      * eapply closed_in_mono; try eassumption; lia.
      * apply closed_in_one. simpl.
        eapply within_mono; try eassumption; lia.
    + intros x [<-|[]]. lia.
    + intros Hok [|n] ext' Hn; [simpl in Hn; lia|].
      inversion Hok as [| | | |js' Hjs|]; subst.
      assert (Hl : (h ++ (e ++ [Arr vs]) ++ ext') !! (length h + length e)%nat =
                   Some (Arr vs)).
      { rewrite lookup_app_plus, <- app_assoc, lookup_app_0. reflexivity. }
      rewrite (ser_ref_arr _ _ _ _ Hl).
      rewrite <- (app_assoc e [Arr vs] ext').
      rewrite (Hs Hjs n ([Arr vs] ++ ext')); [reflexivity|].
      change (json_depth (JArr js)) with (S (elems_depth js)) in Hn. lia.
  - destruct (build_props_spec fs IH h)
      as (ps & e & Hb & Hc & Hv & Hk & Hs).
    exists (VRef (length h + length e)), (e ++ [Obj (set_props ps [])]).
    unfold built. rewrite !length_app. simpl length.
    split; [|split; [|split]].
    + rewrite build_JObj. run Hb.
      rewrite alloc_Ok, length_app, app_assoc. reflexivity.
    + apply closed_in_app.
      * eapply closed_in_mono; try eassumption; lia.
      * apply closed_in_one. intros x Hx. simpl in Hx.
        apply set_props_refs in Hx. destruct Hx as [Hx|[]].
        specialize (Hv _ Hx). lia.
    + intros x [<-|[]]. lia.
    + intros Hok [|n] ext' Hn; [simpl in Hn; lia|].
      inversion Hok as [| | | | |fs' Hnd Hfs]; subst.
      rewrite set_props_nodup by (rewrite Hk; exact Hnd).
      assert (Hl : (h ++ (e ++ [Obj ps]) ++ ext') !! (length h + length e)%nat =
                   Some (Obj ps)).
      { rewrite lookup_app_plus, <- app_assoc, lookup_app_0. reflexivity. }
      rewrite (ser_ref_obj _ _ _ _ Hl).
      rewrite <- (app_assoc e [Obj ps] ext').
      rewrite (Hs Hfs n ([Obj ps] ++ ext')); [reflexivity|].
      change (json_depth (JObj fs)) with (S (members_depth fs)) in Hn. lia.
Qed.

(** ** The text of a value *)

Lemma ser_props_depth (f : val -> option (option json)) n ps fs :
  (forall v j, f v = Some (Some j) -> (json_depth j <= n)%nat) ->
  ser_props f ps = Some fs -> (members_depth fs <= n)%nat.
Proof.
  intros Hf. revert fs.
  induction ps as [|[k v] ps IH]; simpl; intros fs H.
  - injection H as <-. simpl. lia.
  - destruct (f v) as [[j|]|] eqn:Ev; try discriminate;
      destruct (ser_props f ps) as [fs'|]; try discriminate;
      injection H as <-; specialize (IH _ eq_refl); [|exact IH].
    simpl. specialize (Hf _ _ Ev). lia.
Qed.

Lemma ser_elems_depth (f : val -> option (option json)) n es js :
  (forall v j, f v = Some (Some j) -> (json_depth j <= n)%nat) ->
  ser_elems f es = Some js -> (elems_depth js <= n)%nat.
Proof.
  intros Hf. revert js.
  induction es as [|v es IH]; simpl; intros js H.
  - injection H as <-. simpl. lia.
  - destruct (f v) as [[j|]|] eqn:Ev; try discriminate;
      destruct (ser_elems f es) as [js'|]; try discriminate;
      injection H as <-; specialize (IH _ eq_refl); simpl.
    + specialize (Hf _ _ Ev). lia.
    + lia.
Qed.

(** A text is no deeper than the depth it was serialized to. *)
Lemma ser_depth n (h : heap) v j :
  ser n h v = Some (Some j) -> (json_depth j <= n)%nat.
Proof.
  revert v j. induction n as [|n IH]; intros v j H.
  - destruct v as [| | |[z|]| |l]; simpl in H; try discriminate;
      injection H as <-; simpl; lia.
  - destruct v as [| | |[z|]| |l]; simpl in H; try discriminate;
      try (injection H as <-; simpl; lia).
    destruct (h !! l) as [[ps|es]|]; try discriminate.
    + destruct (ser_props (ser n h) ps) as [fs|] eqn:Ep; try discriminate.
      injection H as <-.
      change (json_depth (JObj fs)) with (S (members_depth fs)).
      apply ser_props_depth with (n := n) in Ep; [lia|exact IH].
    + destruct (ser_elems (ser n h) es) as [js|] eqn:Ee; try discriminate.
      injection H as <-.
      change (json_depth (JArr js)) with (S (elems_depth js)).
      apply ser_elems_depth with (n := n) in Ee; [lia|exact IH].
Qed.

Lemma ser_props_ok (f : val -> option (option json)) ps fs :
  (forall v j, f v = Some (Some j) -> json_ok j) ->
  ser_props f ps = Some fs ->
  Forall (fun m => json_ok (snd m)) fs /\
  (forall k, In k (map fst fs) -> In k (map fst ps)) /\
  (List.NoDup (map fst ps) -> List.NoDup (map fst fs)).
Proof.
  intros Hf. revert fs.
  induction ps as [|[k v] ps IH]; simpl; intros fs H.
  - injection H as <-. simpl. auto.
  - destruct (f v) as [[j|]|] eqn:Ev; try discriminate;
      destruct (ser_props f ps) as [fs'|]; try discriminate;
      injection H as <-; destruct (IH _ eq_refl) as (Hok & Hsub & Hnd).
    + split; [constructor; [exact (Hf _ _ Ev)|exact Hok]|].
      split; [simpl; intros k' [Hk|Hk]; auto|].
      intros Hps. inversion Hps as [|? ? Hnin Hps']; subst.
      simpl. constructor; auto.
    + split; [exact Hok|]. split; [auto|].
      intros Hps. inversion Hps; subst. auto.
Qed.

Lemma ser_elems_ok (f : val -> option (option json)) es js :
  (forall v j, f v = Some (Some j) -> json_ok j) ->
  ser_elems f es = Some js -> Forall json_ok js.
Proof.
  intros Hf. revert js.
  induction es as [|v es IH]; simpl; intros js H.
  - injection H as <-. constructor.
  - destruct (f v) as [[j|]|] eqn:Ev; try discriminate;
      destruct (ser_elems f es) as [js'|]; try discriminate;
      injection H as <-; constructor; auto.
    + exact (Hf _ _ Ev).
    + constructor.
Qed.

(** The text of a value in a heap whose objects have distinct property
    names repeats no member name. *)
Lemma ser_json_ok n (h : heap) v j :
  keys_ok h -> ser n h v = Some (Some j) -> json_ok j.
Proof.
  intros Hk. revert v j. induction n as [|n IH]; intros v j H.
  - destruct v as [| | |[z|]| |l]; simpl in H; try discriminate;
      injection H as <-; constructor.
  - destruct v as [| | |[z|]| |l]; simpl in H; try discriminate;
      try (injection H as <-; constructor).
    destruct (h !! l) as [[ps|es]|] eqn:El; try discriminate.
    + destruct (ser_props (ser n h) ps) as [fs|] eqn:Ep; try discriminate.
      injection H as <-.
      destruct (ser_props_ok _ _ _ IH Ep) as (Hok & _ & Hnd).
      constructor; [apply Hnd; exact (Hk _ _ El)|exact Hok].
    + destruct (ser_elems (ser n h) es) as [js|] eqn:Ee; try discriminate.
      injection H as <-. constructor. exact (ser_elems_ok _ _ _ IH Ee).
Qed.

Lemma ser_props_agree (f g : val -> option (option json)) ps :
  (forall v, In v (map snd ps) -> f v = g v) ->
  ser_props f ps = ser_props g ps.
Proof.
  induction ps as [|[k v] ps IH]; simpl; intros H; [reflexivity|].
  rewrite (H v) by auto. rewrite IH by auto. reflexivity.
Qed.

Lemma ser_elems_agree (f g : val -> option (option json)) es :
  (forall v, In v es -> f v = g v) ->
  ser_elems f es = ser_elems g es.
Proof.
  induction es as [|v es IH]; simpl; intros H; [reflexivity|].
  rewrite (H v) by auto. rewrite IH by auto. reflexivity.
Qed.

Lemma In_props_refs k v (ps : props) x :
  In (k, v) ps -> In x (val_refs v) -> In x (props_refs ps).
Proof.
  intros Hin Hx. unfold props_refs. apply in_flat_map.
  exists (k, v). auto.
Qed.

(** Two heaps that agree on a set of locations closed under the
    references of its objects give the same text to every value in it. *)
Lemma ser_frozen (S : loc -> Prop) (hA hB : heap) :
  (forall l o x, S l -> hA !! l = Some o -> In x (obj_refs o) -> S x) ->
  (forall l, S l -> hB !! l = hA !! l) ->
  forall n v, (forall x, In x (val_refs v) -> S x) ->
              ser n hB v = ser n hA v.
Proof.
  intros Hcl Hag. induction n as [|n IH]; intros v Hv.
  - destruct v as [| | |[z|]| |l]; reflexivity.
  - destruct v as [| | |[z|]| |l]; try reflexivity.
    assert (Hl : S l) by (apply Hv; left; reflexivity).
    simpl. rewrite (Hag l Hl).
    destruct (hA !! l) as [[ps|es]|] eqn:El; [| |reflexivity].
    + rewrite (ser_props_agree (ser n hB) (ser n hA)); [reflexivity|].
      intros v Hin. apply IH. intros x Hx.
      apply in_map_iff in Hin. destruct Hin as [[k v'] [<- Hin]].
      apply (Hcl l (Obj ps) x Hl El). simpl.
      eapply In_props_refs; eassumption.
    + rewrite (ser_elems_agree (ser n hB) (ser n hA)); [reflexivity|].
      intros v Hin. apply IH. intros x Hx.
      apply (Hcl l (Arr es) x Hl El). simpl.
      apply in_flat_map. exists v. auto.
Qed.

(** ** Reading a run backwards *)

Lemma bind_inv {A B} (m : M A) (k : A -> M B) h b h' :
  bind m k h = Ok b h' ->
  exists a h1, m h = Ok a h1 /\ k a h1 = Ok b h'.
Proof.
  unfold bind. destruct (m h) as [a h1| |]; try discriminate. eauto.
Qed.

Lemma get_inv v k (h : heap) x h' :
  get v k h = Ok x h' ->
  h' = h /\ exists l ps, v = VRef l /\ h !! l = Some (Obj ps) /\ x = prop k ps.
Proof.
  unfold get. destruct v as [| | | | |l]; try discriminate.
  destruct (h !! l) as [[ps|es]|] eqn:El; try discriminate.
  intros H. injection H as <- <-. eauto 6.
Qed.

Lemma get_ref_inv l k (h : heap) ps x h' :
  h !! l = Some (Obj ps) -> get (VRef l) k h = Ok x h' ->
  h' = h /\ x = prop k ps.
Proof.
  intros Hl H. rewrite (get_obj _ _ _ _ Hl) in H. injection H as <- <-. auto.
Qed.

Lemma modelled_inv {A} (o : option A) a (h h' : heap) :
  modelled o h = Ok a h' -> h' = h /\ o = Some a.
Proof.
  unfold modelled. destruct o; [|discriminate].
  intros H. injection H as <- <-. auto.
Qed.

Lemma array_spread_append_inv v x (h : heap) r h' :
  array_spread_append v x h = Ok r h' ->
  exists l es, v = VRef l /\ h !! l = Some (Arr es) /\
               r = VRef (length h) /\ h' = h ++ [Arr (es ++ [x])].
Proof.
  unfold array_spread_append, bind, elements.
  destruct v as [| | | | |l]; try discriminate.
  destruct (h !! l) as [[ps|es]|] eqn:El; try discriminate.
  intros H. injection H as <- <-. eauto 6.
Qed.

Lemma object_spread_inv l kvs (h : heap) ps r h' :
  h !! l = Some (Obj ps) ->
  object_spread (VRef l) kvs h = Ok r h' ->
  r = VRef (length h) /\ h' = h ++ [Obj (set_props kvs ps)].
Proof.
  intros Hl H. rewrite (object_spread_Ok _ _ _ _ Hl) in H.
  injection H as <- <-. auto.
Qed.

(** ** Built actions *)

Lemma lookup_set_prop_In k k' v' (acc : props) v :
  lookup_prop k (set_prop k' v' acc) = Some v ->
  (k = k' /\ v = v') \/ lookup_prop k acc = Some v.
Proof.
  rewrite lookup_prop_set_prop.
  destruct (String.eqb_spec k k') as [->|_]; [|auto].
  intros H. injection H as <-. auto.
Qed.

Lemma lookup_set_props_In k (kvs acc : props) v :
  lookup_prop k (set_props kvs acc) = Some v ->
  In (k, v) kvs \/ lookup_prop k acc = Some v.
Proof.
  unfold set_props. revert acc.
  induction kvs as [|[k' v'] kvs IH]; intros acc; simpl; [auto|].
  intros H. apply IH in H. destruct H as [H|H]; [auto|].
  apply lookup_set_prop_In in H. destruct H as [[-> ->]|H]; auto.
Qed.

Lemma build_props_members fs : forall (h : heap) ps h',
  build_props fs h = Ok ps h' ->
  forall k v, In (k, v) ps ->
    exists j h1 h2, In (k, j) fs /\ build j h1 = Ok v h2.
Proof.
  induction fs as [|[k0 j0] fs IH]; intros h ps h' H k v Hin.
  - injection H as <- <-. destruct Hin.
  - rewrite build_props_cons in H.
    apply bind_inv in H. destruct H as (v0 & h1 & Hb & H).
    apply bind_inv in H. destruct H as (ps' & h2 & Hbs & H).
    injection H as <- <-.
    destruct Hin as [Hin|Hin].
    + injection Hin as <- <-. exists j0, h, h1. simpl. auto.
    + destruct (IH _ _ _ Hbs _ _ Hin) as (j & ha & hb & Hj & Hbj).
      exists j, ha, hb. simpl. auto.
Qed.

Lemma build_str j (h : heap) s h' : build j h = Ok (VStr s) h' -> j = JStr s.
Proof.
  destruct j as [| b | z | s' | js | fs]; try discriminate.
  - intros H. injection H as <- <-. reflexivity.
  - rewrite build_JArr. intros H.
    apply bind_inv in H. destruct H as (es & h1 & _ & H). discriminate.
  - rewrite build_JObj. intros H.
    apply bind_inv in H. destruct H as (ps & h1 & _ & H). discriminate.
Qed.

(** ** Transitions keep the snapshot apart *)

Lemma wf_heap_app (h ext : heap) lo :
  wf_heap h -> closed_in lo (length h + length ext) ext ->
  wf_heap (h ++ ext).
Proof.
  intros Hwf Hc l o x Hl Hx. rewrite length_app.
  destruct (Nat.lt_ge_cases l (length h)) as [Hlt|Hge].
  - rewrite lookup_app_l in Hl by exact Hlt.
    specialize (Hwf _ _ _ Hl Hx). lia.
  - rewrite lookup_app_r in Hl by exact Hge.
    specialize (Hc _ _ _ Hl Hx). lia.
Qed.

Section Isolation.
Variables (F : loc -> Prop) (hB : heap) (lo hi : nat) (snap : loc).
Hypothesis F_old : forall l, F l -> (l < lo)%nat.
Hypothesis lo_hi : (lo <= hi)%nat.

Lemma live_bound h s ps x :
  isolated F hB lo hi snap h s ps -> live F ps x -> (x < length h)%nat.
Proof.
  intros Hi [Hx|Hx].
  - specialize (F_old _ Hx). pose proof (iso_len _ _ _ _ _ _ _ _ Hi). lia.
  - apply (iso_wf _ _ _ _ _ _ _ _ Hi s (Obj ps) x
             (iso_state _ _ _ _ _ _ _ _ Hi)).
    simpl in Hx.
    destruct Hx as [Hx|[Hx|[Hx|[]]]];
      eapply prop_refs; rewrite Hx; left; reflexivity.
Qed.

(** Behind new objects that refer to each other only, the roots of the
    state still reach neither the snapshot nor the state. *)
Lemma apart_after_build h s ps (ea : heap) (X : loc -> Prop) l :
  isolated F hB lo hi snap h s ps ->
  closed_in (length h) (length h + length ea) ea ->
  (forall x, X x -> live F ps x \/ (length h <= x)%nat) ->
  reach (h ++ ea) X l ->
  (l < length h)%nat ->
  ~ (lo <= l < hi)%nat /\ l <> s.
Proof.
  intros Hi Hc HX Hr Hl.
  apply (iso_apart _ _ _ _ _ _ _ _ Hi).
  apply (reach_app_new h ea (live F ps) (fun x => (length h <= x)%nat)).
  - exact (iso_wf _ _ _ _ _ _ _ _ Hi).
  - intros x Hx. exact (live_bound _ _ _ _ Hi Hx).
  - auto.
  - intros k o x Hk Hx. specialize (Hc _ _ _ Hk Hx). lia.
  - eapply reach_mono; [exact HX|exact Hr].
  - exact Hl.
Qed.

(** A confined call, made after the action was built, leaves the state
    and the snapshot as they are and reaches neither. *)
Lemma callback_step h s ps (ea : heap) (R : loc -> Prop) m v h1 :
  isolated F hB lo hi snap h s ps ->
  closed_in (length h) (length h + length ea) ea ->
  (forall x, R x ->
     live F ps x \/ (length h <= x < length h + length ea)%nat) ->
  confined val_refs R m ->
  m (h ++ ea) = Ok v h1 ->
  wf_heap h1 /\
  wf_val h1 v /\
  (length h + length ea <= length h1)%nat /\
  h1 !! s = Some (Obj ps) /\
  (forall l, (lo <= l < hi)%nat -> h1 !! l = hB !! l) /\
  (forall l,
      reach h1 (fun x => live F ps x \/
                         (length h <= x < length h + length ea)%nat \/
                         In x (val_refs v)) l ->
      (l < length h)%nat ->
      ~ (lo <= l < hi)%nat /\ l <> s).
Proof.
  intros Hi Hc HR Hm Hrun.
  pose proof (iso_wf _ _ _ _ _ _ _ _ Hi) as Hwf.
  pose proof (iso_len _ _ _ _ _ _ _ _ Hi) as Hlen.
  pose proof (iso_state _ _ _ _ _ _ _ _ Hi) as Hs.
  assert (Hwfa : wf_heap (h ++ ea)) by (eapply wf_heap_app; eassumption).
  assert (HRb : forall l, R l -> (l < length (h ++ ea))%nat).
  { intros l Hl. rewrite length_app.
    destruct (HR l Hl) as [Hx|Hx]; [|lia].
    pose proof (live_bound _ _ _ _ Hi Hx). lia. }
  destruct (Hm _ _ _ Hwfa HRb Hrun) as (Hwf1 & Hv & Hlen1 & Hkeep & Hnew).
  rewrite length_app in Hlen1.
  assert (HK : forall l, reach (h ++ ea) R l -> (l < length h)%nat ->
                         ~ (lo <= l < hi)%nat /\ l <> s).
  { intros l Hr Hl. eapply apart_after_build; try eassumption.
    intros x Hx. destruct (HR x Hx); [auto|right; lia]. }
  split; [exact Hwf1|]. split; [exact Hv|]. split; [exact Hlen1|].
  split; [|split].
  - destruct (Hkeep s (Obj ps) (lookup_app_l_Some _ _ _ _ Hs)) as [H|H];
      [exact H|].
    apply lookup_lt_Some in Hs. destruct (HK s H Hs) as [_ Hne].
    contradiction.
  - intros l Hl. rewrite <- (iso_frozen _ _ _ _ _ _ _ _ Hi l Hl).
    assert (Hlt : (l < length h)%nat) by lia.
    destruct (lookup_lt_is_Some_2 h l Hlt) as [o Ho].
    rewrite Ho.
    destruct (Hkeep l o (lookup_app_l_Some _ _ _ _ Ho)) as [H|H];
      [exact H|].
    destruct (HK l H Hlt) as [Hn _]. contradiction.
  - intros l Hr Hl.
    apply (apart_after_build h s ps ea
             (fun x => (live F ps x \/
                        (length h <= x < length h + length ea)%nat) \/ R x)
             l Hi Hc).
    + intros x [[Hx|Hx]|Hx]; [auto|right; lia|].
      destruct (HR x Hx); [auto|right; lia].
    + apply Hnew.
      * intros x [Hx|Hx]; rewrite length_app; [|lia].
        pose proof (live_bound _ _ _ _ Hi Hx). lia.
      * rewrite length_app. lia.
      * eapply reach_mono; [|exact Hr]. roots.
    + exact Hl.
Qed.


(** The new [log] and the new state, allocated after the call. *)
Lemma finish_step h s ps (ea : heap) a v h1 lg es ps' :
  isolated F hB lo hi snap h s ps ->
  within (length h) (length h + length ea) (val_refs a) ->
  wf_heap h1 ->
  wf_val h1 v ->
  (length h + length ea <= length h1)%nat ->
  h1 !! s = Some (Obj ps) ->
  (forall l, (lo <= l < hi)%nat -> h1 !! l = hB !! l) ->
  (forall l,
      reach h1 (fun x => live F ps x \/
                         (length h <= x < length h + length ea)%nat \/
                         In x (val_refs v)) l ->
      (l < length h)%nat ->
      ~ (lo <= l < hi)%nat /\ l <> s) ->
  prop "log" ps = VRef lg ->
  h1 !! lg = Some (Arr es) ->
  prop "_initial" ps' = VRef snap ->
  (forall x, live F ps' x ->
             live F ps x \/ In x (val_refs v) \/ x = length h1) ->
  (forall x, In x (props_refs ps') -> (x <= length h1)%nat) ->
  isolated F hB lo hi snap
    (h1 ++ [Arr (es ++ [a]); Obj ps']) (S (length h1)) ps'.
Proof.
  intros Hi Ha Hwf1 Hv Hlen1 Hs1 Hfr1 Hap1 Hlog Hlg Hini Hlive Hps'.
  pose proof (iso_len _ _ _ _ _ _ _ _ Hi) as Hlen.
  assert (Hes : forall x, In x (obj_refs (Arr (es ++ [a]))) ->
                          (x < length h1)%nat).
  { intros x Hx. simpl in Hx. rewrite flat_map_app in Hx.
    apply in_app_iff in Hx. destruct Hx as [Hx|Hx].
    - exact (Hwf1 lg (Arr es) x Hlg Hx).
    - simpl in Hx. rewrite app_nil_r in Hx. specialize (Ha _ Hx). lia. }
  assert (Hwf2 : wf_heap (h1 ++ [Arr (es ++ [a])]))
    by (apply wf_heap_alloc; assumption).
  assert (Hlen2 : length (h1 ++ [Arr (es ++ [a])]) = S (length h1))
    by (rewrite length_app; simpl; lia).
  change (h1 ++ [Arr (es ++ [a]); Obj ps'])
    with (h1 ++ [Arr (es ++ [a])] ++ [Obj ps']).
  rewrite app_assoc.
  assert (Hlb : forall x, live F ps' x -> (x < S (length h1))%nat).
  { intros x Hx. destruct (Hlive x Hx) as [H|[H|H]].
    - pose proof (live_bound _ _ _ _ Hi H). lia.
    - specialize (Hv _ H). lia.
    - lia. }
  split.
  - apply wf_heap_alloc; [exact Hwf2|].
    intros x Hx. rewrite Hlen2. specialize (Hps' _ Hx). lia.
  - rewrite length_app, Hlen2. simpl. lia.
  - rewrite <- Hlen2. apply lookup_alloc_new.
  - exact Hini.
  - intros l Hr.
    apply reach_app_old in Hr;
      [|exact Hwf2|intros x Hx; rewrite Hlen2; exact (Hlb x Hx)].
    assert (Hl2 : (l < S (length h1))%nat).
    { rewrite <- Hlen2. eapply reach_bound; [exact Hwf2| |exact Hr].
      intros x Hx. rewrite Hlen2. exact (Hlb x Hx). }
    split; [|lia].
    intros HS.
    destruct (reach_alloc_root h1 (Arr (es ++ [a]))
                (fun x => live F ps x \/ In x (val_refs v)) l Hwf1)
      as [->|H].
    + intros x [Hx|Hx]; [|exact (Hv _ Hx)].
      pose proof (live_bound _ _ _ _ Hi Hx). lia.
    + exact Hes.
    + eapply reach_mono; [|exact Hr].
      intros x Hx. destruct (Hlive x Hx) as [H|[H|H]]; auto.
    + lia.
    + assert (Hlt : (l < length h)%nat) by lia.
      destruct (Hap1 l) as [Hn _]; [|exact Hlt|contradiction].
      apply (reach_absorb h1 _ (fun x => In x (obj_refs (Arr (es ++ [a]))))).
      * intros x Hx. simpl in Hx. rewrite flat_map_app in Hx.
        apply in_app_iff in Hx. destruct Hx as [Hx|Hx].
        -- eapply reach_step; [apply reach_root|exact Hlg|exact Hx].
           left. right. rewrite <- Hlog. simpl. tauto.
        -- simpl in Hx. rewrite app_nil_r in Hx.
           apply reach_root. right. left. exact (Ha _ Hx).
      * eapply reach_mono; [|exact H]. roots.
  - intros l Hl. rewrite <- (Hfr1 l Hl).
    rewrite lookup_app_l by (rewrite Hlen2; lia).
    apply lookup_app_l. lia.
Qed.


(** Allocating the action alone changes nothing for the state. *)
Lemma isolated_app h s ps (ea : heap) :
  isolated F hB lo hi snap h s ps ->
  closed_in (length h) (length h + length ea) ea ->
  isolated F hB lo hi snap (h ++ ea) s ps.
Proof.
  intros Hi Hc.
  pose proof (iso_wf _ _ _ _ _ _ _ _ Hi) as Hwf.
  pose proof (iso_len _ _ _ _ _ _ _ _ Hi) as Hlen.
  split.
  - eapply wf_heap_app; eassumption.
  - rewrite length_app. lia.
  - apply lookup_app_l_Some. exact (iso_state _ _ _ _ _ _ _ _ Hi).
  - exact (iso_initial _ _ _ _ _ _ _ _ Hi).
  - intros l Hr. apply (iso_apart _ _ _ _ _ _ _ _ Hi).
    eapply reach_app_old; [exact Hwf| |exact Hr].
    intros x Hx. exact (live_bound _ _ _ _ Hi Hx).
  - intros l Hl. rewrite <- (iso_frozen _ _ _ _ _ _ _ _ Hi l Hl).
    apply lookup_app_l. lia.
Qed.

Variable Actions : ActionTypes.

(** The type of an action that is not a [RESTORE] is not [RESTORE]. *)
Lemma not_restore_type j (h : heap) a ha ty :
  not_restore Actions j ->
  build j h = Ok a ha ->
  get a "type" ha = Ok ty ha ->
  ty <> VStr (RESTORE Actions).
Proof.
  intros Hnr Hb Hg ->.
  apply get_inv in Hg. destruct Hg as (_ & la & aps & -> & Hla & Hty).
  destruct j as [| b | z | s' | js | fs]; try discriminate.
  - rewrite build_JArr in Hb. apply bind_inv in Hb.
    destruct Hb as (es & h1 & _ & Hb). injection Hb as <- <-.
    rewrite lookup_alloc_new in Hla. discriminate.
  - rewrite build_JObj in Hb. apply bind_inv in Hb.
    destruct Hb as (bps & h1 & Hbs & Hb). injection Hb as <- <-.
    rewrite lookup_alloc_new in Hla. injection Hla as <-.
    unfold prop in Hty.
    destruct (lookup_prop "type" (set_props bps [])) as [v|] eqn:El;
      [|discriminate].
    simpl in Hty. subst v.
    apply lookup_set_props_In in El. destruct El as [El|El]; [|discriminate].
    destruct (build_props_members _ _ _ _ Hbs _ _ El)
      as (j' & ha & hb & Hin & Hbj).
    apply build_str in Hbj. subst j'.
    exact (Hnr fs eq_refl Hin).
Qed.


Variables (game : Game) (initial : val).
Hypothesis game_ok : game_confined F game.

(** The properties a transition sets refer to the result of the call and
    to the new [log] only. *)
Lemma new_props_refs k v id (h1 : heap) ps s x :
  wf_heap h1 -> wf_val h1 v -> val_refs id = [] ->
  h1 !! s = Some (Obj ps) ->
  In x (props_refs (set_props [(k, v); ("_id", id);
                               ("log", VRef (length h1))] ps)) ->
  (x <= length h1)%nat.
Proof.
  intros Hwf Hv Hid Hs Hx. apply set_props_refs in Hx.
  destruct Hx as [Hx|Hx].
  - unfold props_refs in Hx. simpl in Hx. rewrite Hid in Hx.
    apply in_app_iff in Hx. destruct Hx as [Hx|Hx].
    + specialize (Hv _ Hx). lia.
    + destruct Hx as [<-|[]]. lia.
  - specialize (Hwf s (Obj ps) x Hs Hx). lia.
Qed.

(** One action, not a [RESTORE], keeps the snapshot apart. *)
Lemma dispatch_isolated h s ps j st' h' :
  isolated F hB lo hi snap h s ps ->
  not_restore Actions j ->
  dispatch Actions game initial (VRef s) j h = Ok st' h' ->
  exists s' ps', st' = VRef s' /\ isolated F hB lo hi snap h' s' ps'.
Proof.
  intros Hi Hnr Hrun.
  unfold dispatch in Hrun. apply bind_inv in Hrun.
  destruct Hrun as (a & ha & Hb & Hrun).
  destruct (build_spec j h) as (a' & ea & Hb' & Hc & Ha & _).
  rewrite Hb in Hb'. injection Hb' as <- ->.
  pose proof (isolated_app h s ps ea Hi Hc) as Hia.
  pose proof (iso_state _ _ _ _ _ _ _ _ Hia) as Hsa.
  pose proof (iso_initial _ _ _ _ _ _ _ _ Hi) as Hini.
  unfold GameReducer in Hrun. simpl default_param in Hrun.
  rewrite bind_ret in Hrun.
  apply bind_inv in Hrun. destruct Hrun as (ty & h0 & Hty & Hrun).
  pose proof (get_heap _ _ _ _ _ Hty) as ->.
  pose proof (not_restore_type j h a _ ty Hnr Hb Hty) as Hnot.
  destruct (get_inv _ _ _ _ _ Hty) as (_ & la & aps & -> & Hla & _).
  assert (Haps : forall x, In x (props_refs aps) ->
                           (length h <= x < length h + length ea)%nat).
  { intros x Hx. assert (Hge : (length h <= la)%nat)
      by (apply (Ha la); left; reflexivity).
    rewrite lookup_app_r in Hla by exact Hge.
    exact (Hc _ _ _ Hla Hx). }
  destruct (strict_eq ty (VStr (MAKE_MOVE Actions))).
  { (* MAKE_MOVE *)
    apply bind_inv in Hrun. destruct Hrun as (sG & h0 & Hg & Hrun).
    apply (get_ref_inv _ _ _ _ _ _ Hsa) in Hg. destruct Hg as [-> ->].
    apply bind_inv in Hrun. destruct Hrun as (move & h0 & Hg & Hrun).
    apply (get_ref_inv _ _ _ _ _ _ Hla) in Hg. destruct Hg as [-> ->].
    apply bind_inv in Hrun. destruct Hrun as (sctx & h0 & Hg & Hrun).
    apply (get_ref_inv _ _ _ _ _ _ Hsa) in Hg. destruct Hg as [-> ->].
    apply bind_inv in Hrun. destruct Hrun as (G' & h1 & Hcall & Hrun).
    assert (HR : forall x,
               roots F [prop "G" ps; prop "move" aps; prop "ctx" ps] x ->
               live F ps x \/
               (length h <= x < length h + length ea)%nat).
    { intros x [Hx|[Hx|[Hx|[Hx|[]]]]].
      - left. left. exact Hx.
      - left. right. rewrite Hx. simpl. tauto.
      - right. apply Haps. apply (prop_refs "move"). rewrite Hx.
        left. reflexivity.
      - left. right. rewrite Hx. simpl. tauto. }
    destruct (callback_step h s ps ea _ _ G' h1 Hi Hc HR
                (reducer_confined F game game_ok _ _ _) Hcall)
      as (Hwf1 & Hv & Hlen1 & Hs1 & Hfr1 & Hap1).
    apply bind_inv in Hrun. destruct Hrun as (slog & h0 & Hg & Hrun).
    apply (get_ref_inv _ _ _ _ _ _ Hs1) in Hg. destruct Hg as [-> ->].
    apply bind_inv in Hrun. destruct Hrun as (log & h2 & Hlog & Hrun).
    apply array_spread_append_inv in Hlog.
    destruct Hlog as (lg & es & Hlg & Hes & -> & ->).
    apply bind_inv in Hrun. destruct Hrun as (sid & h0 & Hg & Hrun).
    apply (get_ref_inv _ _ _ _ _ _ (lookup_alloc_old _ _ _ _ Hs1)) in Hg.
    destruct Hg as [-> ->].
    apply bind_inv in Hrun. destruct Hrun as (id & h0 & Hid & Hrun).
    apply modelled_inv in Hid. destruct Hid as [-> Hid].
    apply js_add_refs in Hid.
    apply (object_spread_inv _ _ _ _ _ _ (lookup_alloc_old _ _ _ _ Hs1))
      in Hrun.
    destruct Hrun as [-> ->].
    rewrite length_app, <- app_assoc. simpl length. simpl app.
    rewrite Nat.add_1_r.
    eexists _, _. split; [reflexivity|].
    eapply (finish_step h s ps ea (VRef la) G' h1 lg es); try eassumption.
    - unfold set_props. simpl. rewrite !prop_set_prop. exact Hini.
    - unfold live, roots, set_props. simpl. rewrite !prop_set_prop. simpl.
      intros x [Hx|[Hx|[Hx|[Hx|[]]]]].
      + tauto.
      + right. left. rewrite Hx. left. reflexivity.
      + tauto.
      + right. right. congruence.
    - intros x Hx. eapply new_props_refs; eassumption. }
  destruct (strict_eq ty (VStr (END_TURN Actions))).
  { (* END_TURN *)
    apply bind_inv in Hrun. destruct Hrun as (sctx & h0 & Hg & Hrun).
    apply (get_ref_inv _ _ _ _ _ _ Hsa) in Hg. destruct Hg as [-> ->].
    apply bind_inv in Hrun. destruct Hrun as (sG & h0 & Hg & Hrun).
    apply (get_ref_inv _ _ _ _ _ _ Hsa) in Hg. destruct Hg as [-> ->].
    apply bind_inv in Hrun. destruct Hrun as (ctx' & h1 & Hcall & Hrun).
    unfold call_flow in Hcall.
    destruct (flow game) as [f|] eqn:Ef; [|discriminate].
    assert (HR : forall x,
               roots F [prop "ctx" ps; VRef la; prop "G" ps] x ->
               live F ps x \/
               (length h <= x < length h + length ea)%nat).
    { intros x [Hx|[Hx|[Hx|[Hx|[]]]]].
      - left. left. exact Hx.
      - left. right. rewrite Hx. simpl. tauto.
      - right. apply (Ha x). injection Hx as ->. left. reflexivity.
      - left. right. rewrite Hx. simpl. tauto. }
    destruct (callback_step h s ps ea _ _ ctx' h1 Hi Hc HR
                (flow_confined F game game_ok f _ _ _ Ef) Hcall)
      as (Hwf1 & Hv & Hlen1 & Hs1 & Hfr1 & Hap1).
    apply bind_inv in Hrun. destruct Hrun as (slog & h0 & Hg & Hrun).
    apply (get_ref_inv _ _ _ _ _ _ Hs1) in Hg. destruct Hg as [-> ->].
    apply bind_inv in Hrun. destruct Hrun as (log & h2 & Hlog & Hrun).
    apply array_spread_append_inv in Hlog.
    destruct Hlog as (lg & es & Hlg & Hes & -> & ->).
    apply bind_inv in Hrun. destruct Hrun as (sid & h0 & Hg & Hrun).
    apply (get_ref_inv _ _ _ _ _ _ (lookup_alloc_old _ _ _ _ Hs1)) in Hg.
    destruct Hg as [-> ->].
    apply bind_inv in Hrun. destruct Hrun as (id & h0 & Hid & Hrun).
    apply modelled_inv in Hid. destruct Hid as [-> Hid].
    apply js_add_refs in Hid.
    apply (object_spread_inv _ _ _ _ _ _ (lookup_alloc_old _ _ _ _ Hs1))
      in Hrun.
    destruct Hrun as [-> ->].
    rewrite length_app, <- app_assoc. simpl length. simpl app.
    rewrite Nat.add_1_r.
    eexists _, _. split; [reflexivity|].
    eapply (finish_step h s ps ea (VRef la) ctx' h1 lg es); try eassumption.
    - unfold set_props. simpl. rewrite !prop_set_prop. exact Hini.
    - unfold live, roots, set_props. simpl. rewrite !prop_set_prop. simpl.
      intros x [Hx|[Hx|[Hx|[Hx|[]]]]].
      + tauto.
      + tauto.
      + right. left. rewrite Hx. left. reflexivity.
      + right. right. congruence.
    - intros x Hx. eapply new_props_refs; eassumption. }
  destruct (strict_eq ty (VStr (RESTORE Actions))) eqn:Er.
  { (* RESTORE *)
    exfalso. apply Hnot. apply strict_eq_str_true. exact Er. }
  injection Hrun as <- <-. eauto.
Qed.

End Isolation.

Section Runs.
Variables (F : loc -> Prop) (hB : heap) (lo hi : nat) (snap : loc).
Hypothesis F_old : forall l, F l -> (l < lo)%nat.
Hypothesis lo_hi : (lo <= hi)%nat.
Variable Actions : ActionTypes.
Variables (game : Game) (initial : val).
Hypothesis game_ok : game_confined F game.

(** Any number of actions, none a [RESTORE], keep the snapshot apart. *)
Lemma dispatch_all_isolated js : forall h s ps st' h',
  isolated F hB lo hi snap h s ps ->
  Forall (not_restore Actions) js ->
  dispatch_all Actions game initial (VRef s) js h = Ok st' h' ->
  exists s' ps', st' = VRef s' /\ isolated F hB lo hi snap h' s' ps'.
Proof.
  induction js as [|j js IH]; intros h s ps st' h' Hi Hjs Hrun.
  - injection Hrun as <- <-. eauto.
  - apply Forall_cons_iff in Hjs. destruct Hjs as [Hj Hjs].
    simpl in Hrun. apply bind_inv in Hrun.
    destruct Hrun as (st1 & h1 & Hstep & Hrun).
    destruct (dispatch_isolated F hB lo hi snap F_old lo_hi Actions game
                initial game_ok h s ps j st1 h1 Hi Hj Hstep)
      as (s1 & ps1 & -> & Hi1).
    exact (IH _ _ _ _ _ Hi1 Hjs Hrun).
Qed.

(** Everything the snapshot reaches is one of its objects. *)
Lemma snapshot_reach (h : heap) l :
  (forall x o y, (lo <= x < hi)%nat -> hB !! x = Some o ->
                 In y (obj_refs o) -> (lo <= y < hi)%nat) ->
  (forall x, (lo <= x < hi)%nat -> h !! x = hB !! x) ->
  (lo <= snap < hi)%nat ->
  reach h (eq snap) l -> (lo <= l < hi)%nat.
Proof.
  intros Hcl Hfr Hsnap.
  apply (reach_closed h (eq snap) (fun x => (lo <= x < hi)%nat)).
  - intros x <-. exact Hsnap.
  - intros x o y Hx Ho Hy. rewrite (Hfr x Hx) in Ho. eauto.
Qed.

End Runs.

Section InstallFlow.
Variable Actions : ActionTypes.

Lemma install_flow_confined (F : loc -> Prop) game :
  game_confined F game -> game_confined F (install_flow Actions game).
Proof.
  intros Hg. unfold install_flow.
  destruct (flow game) as [f|] eqn:Ef; [exact Hg|].
  split; simpl.
  - exact (setup_confined F game Hg).
  - exact (reducer_confined F game Hg).
  - exact (victory_confined F game Hg).
  - intros f ctx a G Hf. injection Hf as <-.
    apply GameFlow_confined. exact (victory_confined F game Hg).
Qed.

End InstallFlow.

(** ** The state [createGameReducer] returns keeps the snapshot apart *)

Lemma initial_props_refs G c i x :
  In x (props_refs (initial_props G c i)) ->
  In x (val_refs G) \/ x = c \/ x = (c + 1)%nat \/ In x (val_refs i).
Proof.
  unfold props_refs. simpl. rewrite app_nil_r, !in_app_iff. simpl.
  intuition auto.
Qed.

Lemma initial_objects_closed (h1 : heap) G n :
  wf_val h1 G ->
  closed_in 0 (length h1 + 4)
    (initial_objects G (VNum (Int n)) (length h1)).
Proof.
  intros HG k o x Hk Hx.
  destruct k as [|[|[|[|k]]]]; try discriminate;
    injection Hk as <-; try (simpl in Hx; contradiction).
  change (In x (props_refs
                  (initial_props G (length h1) (VRef (length h1 + 2)))))
    in Hx.
  apply initial_props_refs in Hx.
  destruct Hx as [Hx|[->|[->|[<-|[]]]]]; try lia.
  specialize (HG _ Hx). lia.
Qed.

Lemma initialized_eq (h1 : heap) G np ext gps :
  initialized h1 G np ext gps =
  <[(length h1 + 3)%nat :=
      Obj (initial_props G (length h1)
             (VRef (length h1 + 4 + length ext + 3)))]>
    ((h1 ++ initial_objects G np (length h1)) ++
     ext ++ snapshot_objects gps np (length h1 + 4 + length ext)).
Proof. unfold initialized. rewrite <- app_assoc. reflexivity. Qed.

Section InitialIsolation.
Variables (F : loc -> Prop) (h1 : heap) (G : val) (n : Z).
Variables (ext : heap) (gps : props).
Hypothesis h1_wf : wf_heap h1.
Hypothesis G_wf : wf_val h1 G.
Hypothesis F_h1 : forall l, F l -> (l < length h1)%nat.

Let c := length h1.
Let m := (c + 4 + length ext)%nat.
Let np := VNum (Int n).
Let e' := ext ++ snapshot_objects gps np m.
Let hpre := (h1 ++ initial_objects G np c) ++ e'.

Hypothesis e'_closed : closed_in (c + 4) (c + 4 + length e') e'.

Lemma initialized_isolated :
  isolated F hpre (c + 4) (c + 4 + length e') (m + 3)
    (initialized h1 G np ext gps) (c + 3)
    (initial_props G c (VRef (m + 3))).
Proof.
  assert (Hlen_pre : length hpre = (c + 4 + length e')%nat).
  { unfold hpre. rewrite !length_app. reflexivity. }
  assert (Hlen_e : length e' = (length ext + 4)%nat).
  { unfold e'. rewrite length_app. reflexivity. }
  assert (Hwf_pre : wf_heap hpre).
  { unfold hpre. apply wf_heap_app with (lo := (c + 4)%nat).
    - apply wf_heap_app with (lo := 0%nat); [exact h1_wf|].
      apply initial_objects_closed. exact G_wf.
    - rewrite length_app. exact e'_closed. }
  assert (Hini : forall x,
             In x (props_refs (initial_props G c (VRef (m + 3)))) ->
             In x (val_refs G) \/ x = c \/ x = (c + 1)%nat \/
             x = (m + 3)%nat).
  { intros x Hx. apply initial_props_refs in Hx.
    destruct Hx as [Hx|[->|[->|[<-|[]]]]]; auto. }
  rewrite initialized_eq. fold c m np e' hpre.
  split.
  - apply wf_heap_insert; [exact Hwf_pre|].
    intros x Hx. apply Hini in Hx. rewrite Hlen_pre, Hlen_e.
    destruct Hx as [Hx | [ -> | [ -> | -> ]]]; try (unfold m; lia).
    specialize (G_wf _ Hx). fold c in G_wf. lia.
  - rewrite length_insert, Hlen_pre. lia.
  - apply list_lookup_insert_eq. rewrite Hlen_pre. lia.
  - reflexivity.
  - intros l Hr.
    assert (Hl : (l < c + 2)%nat); [|lia].
    revert Hr.
    apply (reach_closed _ _ (fun x => (x < c + 2)%nat)).
    + intros x [Hx|Hx].
      * specialize (F_h1 _ Hx). fold c in F_h1. lia.
      * simpl in Hx. destruct Hx as [Hx|[Hx|[Hx|[]]]].
        -- assert (Hin : In x (val_refs G))
             by (change (prop "G" (initial_props G c (VRef (m + 3))))
                   with G in Hx; rewrite Hx; left; reflexivity).
           specialize (G_wf _ Hin). fold c in G_wf. lia.
        -- injection Hx as <-. lia.
        -- injection Hx as <-. lia.
    + intros x o y Hx Ho Hy.
      rewrite list_lookup_insert_ne in Ho by lia.
      unfold hpre in Ho.
      rewrite <- app_assoc in Ho.
      destruct (Nat.lt_ge_cases x c) as [Hlt|Hge].
      * rewrite lookup_app_l in Ho by exact Hlt.
        specialize (h1_wf _ _ _ Ho Hy). fold c in h1_wf. lia.
      * rewrite lookup_app_r in Ho by exact Hge.
        fold c in Ho.
        assert (Hk : (x - c = 0 \/ x - c = 1)%nat) by lia.
        destruct Hk as [Hk|Hk]; rewrite Hk in Ho; simpl in Ho;
          injection Ho as <-; destruct Hy.
  - intros l Hl. apply list_lookup_insert_ne. lia.
Qed.

End InitialIsolation.

Lemma initial_json_ok r n :
  (forall j, r = Some j -> json_ok j) -> json_ok (initial_json r n).
Proof.
  intros Hr. unfold initial_json.
  assert (Hrest : Forall (fun f : string * json => json_ok (snd f))
            [("ctx", JObj [("turn", JNum 0); ("currentPlayer", JStr "0");
                           ("numPlayers", JNum n); ("winner", JNull)]);
             ("log", JArr []); ("_id", JNum 0); ("_initial", JObj [])]).
  { repeat constructor; simpl; intuition discriminate. }
  destruct r as [j|]; simpl; constructor; simpl.
  - repeat constructor; simpl; intuition discriminate.
  - constructor; [exact (Hr j eq_refl)|exact Hrest].
  - repeat constructor; simpl; intuition discriminate.
  - exact Hrest.
Qed.

Lemma initial_json_depth r n d :
  (forall j, r = Some j -> (json_depth j <= d)%nat) ->
  (json_depth (initial_json r n) <= d + 2)%nat.
Proof.
  intros Hr. destruct r as [j|]; simpl.
  - specialize (Hr j eq_refl). lia.
  - lia.
Qed.

Section SnapshotClaim.
Variable Actions : ActionTypes.


End SnapshotClaim.

(** The functions of [Demo.inplace_game], whose [reducer] writes into
    [G], are confined; the game holds no location of its own. *)
Lemma inplace_game_confined :
  game_confined (fun _ => False) Demo.inplace_game.
Proof.
  split; simpl.
  - intros np. apply confined_alloc. intros l [].
  - intros G move ctx.
    apply (confined_bind val_refs); [apply confined_get; in_roots|].
    intros leader.
    apply (confined_bind (fun _ : unit => []));
      [apply confined_set; in_roots|].
    intros _. apply confined_ret. in_roots.
  - intros G ctx. apply confined_get. in_roots.
  - intros f ctx a G Hf. discriminate.
Qed.

Lemma lead_heap_keys_ok : keys_ok [Obj [("leader", VNull)]].
Proof.
  intros [|l] ps Hl; [|discriminate].
  injection Hl as <-. simpl. repeat constructor. intros [].
Qed.

Lemma empty_heap_wf : wf_heap [].
Proof. intros l o x Hl. discriminate. Qed.

(** In [Demo.inplace_game] a move changes the object [G] of the initial
    state itself, at location 0; the copy of [G] in the snapshot, at
    location 5, stays what it was. *)
Example inplace_move_spares_snapshot :
  match play Demo.actions (Some Demo.inplace_game) (VNum (Int 2))
          [Demo.lead (JStr "0")] [] with
  | Ok st h =>
      Demo.returned (get st "G" h) = Some (VRef 0) /\
      h !! 0%nat = Some (Obj [("leader", VStr "0")]) /\
      Demo.returned (get (VRef 4) "_initial" h) = Some (VRef 9) /\
      Demo.returned (get (VRef 9) "G" h) = Some (VRef 5) /\
      h !! 5%nat = Some (Obj [("leader", VNull)])
  | _ => False
  end.
Proof. repeat split. Qed.


(** * Further properties *)

(** ** [deepCopy] *)

(** X1: [deepCopy] of a value that [JSON.stringify] gives the text [j]
    for returns a value with the same text, made of new objects only:
    the heap it was called in is a prefix of the heap it leaves, the
    copy lies behind it and the new objects refer to each other only. *)
Theorem deepCopy_same_text_new_objects (h : heap) v j :
  keys_ok h ->
  JSON_stringify v h = Ok (Some j) h ->
  exists v' ext,
    deepCopy v h = Ok v' (h ++ ext) /\
    JSON_stringify v' (h ++ ext) = Ok (Some j) (h ++ ext) /\
    within (length h) (length h + length ext) (val_refs v') /\
    closed_in (length h) (length h + length ext) ext.
Proof.
  intros Hkeys Hs.
  assert (Hser : ser (length h) h v = Some (Some j)).
  { unfold JSON_stringify in Hs.
    destruct (ser (length h) h v) as [r|]; [|discriminate].
    injection Hs as ->. reflexivity. }
  destruct (build_spec j h) as (v' & ext & Hb & Hc & Hin & Hround).
  exists v', ext. split; [|split; [|split]]; try assumption.
  - unfold deepCopy. run Hs. exact Hb.
  - unfold JSON_stringify.
    replace (ser (length (h ++ ext)) (h ++ ext) v')
      with (ser (length (h ++ ext)) (h ++ ext ++ []) v')
      by (rewrite app_nil_r; reflexivity).
    rewrite Hround; [reflexivity| |].
    + exact (ser_json_ok _ _ _ _ Hkeys Hser).
    + pose proof (ser_depth _ _ _ _ Hser). rewrite length_app. lia.
Qed.

Lemma deepCopy_same_text_new_objects_witness :
  exists v' ext,
    deepCopy (VRef 0) [Obj [("leader", VNull)]] =
    Ok v' ([Obj [("leader", VNull)]] ++ ext) /\
    JSON_stringify v' ([Obj [("leader", VNull)]] ++ ext) =
    Ok (Some (JObj [("leader", JNull)])) ([Obj [("leader", VNull)]] ++ ext) /\
    within 1 (1 + length ext) (val_refs v') /\
    closed_in 1 (1 + length ext) ext.
Proof.
  apply (deepCopy_same_text_new_objects [Obj [("leader", VNull)]] (VRef 0)
           (JObj [("leader", JNull)])).
  - exact lead_heap_keys_ok.
  - reflexivity.
Defined.

(** ** Cycles *)

Lemma ser_props_fail (f : val -> option (option json)) ps k v :
  In (k, v) ps -> f v = None -> ser_props f ps = None.
Proof.
  induction ps as [|[k' v'] ps IH]; simpl; [intros []|].
  intros [Hin|Hin] Hf.
  - injection Hin as -> ->. rewrite Hf. reflexivity.
  - rewrite (IH Hin Hf). destruct (f v') as [[j|]|]; reflexivity.
Qed.

Lemma ser_elems_fail (f : val -> option (option json)) es v :
  In v es -> f v = None -> ser_elems f es = None.
Proof.
  induction es as [|v' es IH]; simpl; [intros []|].
  intros [Hin|Hin] Hf.
  - subst v'. rewrite Hf. reflexivity.
  - rewrite (IH Hin Hf). destruct (f v') as [[j|]|]; reflexivity.
Qed.

(** An object cannot be serialized when one it refers to cannot. *)
Lemma ser_refers n (h : heap) l o l' :
  h !! l = Some o -> In l' (obj_refs o) ->
  ser n h (VRef l') = None -> ser (S n) h (VRef l) = None.
Proof.
  intros Hl Hin Hf. destruct o as [ps|es].
  - rewrite (ser_ref_obj _ _ _ _ Hl).
    simpl in Hin. unfold props_refs in Hin. apply in_flat_map in Hin.
    destruct Hin as ([k v] & Hkv & Hv). simpl in Hv.
    apply val_refs_In in Hv. subst v.
    rewrite (ser_props_fail _ _ _ _ Hkv Hf). reflexivity.
  - rewrite (ser_ref_arr _ _ _ _ Hl).
    simpl in Hin. apply in_flat_map in Hin.
    destruct Hin as (v & Hv & Hl'). apply val_refs_In in Hl'. subst v.
    rewrite (ser_elems_fail _ _ _ Hv Hf). reflexivity.
Qed.

Lemma ser_endless (h : heap) (C : loc -> Prop) :
  endless h C -> forall n l, C l -> ser n h (VRef l) = None.
Proof.
  intros HC. induction n as [|n IH]; intros l Hl; [reflexivity|].
  destruct (HC l Hl) as (o & l' & Ho & Hin & Hl').
  exact (ser_refers n h l o l' Ho Hin (IH l' Hl')).
Qed.

(** No depth suffices for a value from which such objects can be
    reached. *)
Lemma ser_reaches_endless (h : heap) (C : loc -> Prop) g l :
  endless h C -> reach h (eq g) l -> C l ->
  forall n, ser n h (VRef g) = None.
Proof.
  intros HC Hr Hl.
  assert (HD : forall n, ser n h (VRef l) = None)
    by (intros n; exact (ser_endless h C HC n l Hl)).
  clear Hl. induction Hr as [l <-|l o l' _ IH Ho Hin]; [exact HD|].
  apply IH. intros [|n]; [reflexivity|].
  exact (ser_refers n h l o l' Ho Hin (HD n)).
Qed.

Lemma endless_app (h ext : heap) (C : loc -> Prop) :
  endless h C -> endless (h ++ ext) C.
Proof.
  intros HC l Hl. destruct (HC l Hl) as (o & l' & Ho & Hin & Hl').
  exists o, l'. split; [apply lookup_app_l_Some; exact Ho|auto].
Qed.

Lemma reach_app (h ext : heap) (R : loc -> Prop) l :
  reach h R l -> reach (h ++ ext) R l.
Proof.
  induction 1 as [l Hl|l o l' _ IH Ho Hin].
  - apply reach_root. exact Hl.
  - eapply reach_step; [exact IH|apply lookup_app_l_Some; exact Ho|exact Hin].
Qed.

Section Cycles.
Variable Actions : ActionTypes.

(** X2: when the [G] that [setup] returns reaches an object from which
    the references can be followed without end, as on a cycle,
    [deepCopy] throws on it, and [createGameReducer] throws instead of
    returning a reducer. *)
Theorem createGameReducer_throws_on_cyclic_G
    game np h g h1 (C : loc -> Prop) l :
  setup game (players np) h = Ok (VRef g) h1 ->
  endless h1 C ->
  reach h1 (eq g) l ->
  C l ->
  deepCopy (VRef g) h1 = Throw /\
  createGameReducer Actions (Some game) np h = Throw.
Proof.
  intros Hset HC Hr Hl. split.
  - unfold deepCopy, bind, JSON_stringify.
    rewrite (ser_reaches_endless h1 C g l HC Hr Hl). reflexivity.
  - unfold createGameReducer.
    change (if negb (truthy np) then VNum (Int 2) else np) with (players np).
    run Hset.
    change (Obj [("turn", VNum (Int 0)); ("currentPlayer", VStr "0");
                 ("numPlayers", players np); ("winner", VNull)])
      with (Obj (ctx_props (players np))).
    rewrite initial_literal_Ok.
    set (h2 := h1 ++ initial_objects (VRef g) (players np) (length h1)).
    assert (Hi : h2 !! (length h1 + 3)%nat =
                 Some (Obj (initial_props (VRef g) (length h1)
                              (VRef (length h1 + 2)))))
      by (unfold h2; rewrite lookup_app_plus; reflexivity).
    assert (Hlen : length h2 = S (length h1 + 3))
      by (unfold h2; rewrite length_app; simpl; lia).
    assert (Hs : JSON_stringify (VRef (length h1 + 3)) h2 = Throw).
    { unfold JSON_stringify. rewrite Hlen, (ser_ref_obj _ _ _ _ Hi).
      rewrite (ser_props_fail _ _ "G" (VRef g)); [reflexivity|left; reflexivity|].
      apply (ser_reaches_endless h2 C g l).
      - apply endless_app. exact HC.
      - apply reach_app. exact Hr.
      - exact Hl. }
    unfold deepCopy, bind. rewrite Hs. reflexivity.
Qed.

End Cycles.

Lemma createGameReducer_throws_on_cyclic_G_witness :
  deepCopy (VRef 0) [Obj [("self", VRef 0)]] = Throw /\
  createGameReducer Demo.actions (Some Examples.knot_game) VUndef [] = Throw.
Proof.
  apply (createGameReducer_throws_on_cyclic_G Demo.actions
           Examples.knot_game VUndef
           [] 0%nat [Obj [("self", VRef 0)]] (eq 0%nat) 0%nat).
  - reflexivity.
  - intros l <-. exists (Obj [("self", VRef 0)]), 0%nat.
    split; [reflexivity|]. split; [left; reflexivity|reflexivity].
  - apply reach_root. reflexivity.
  - reflexivity.
Defined.

(** ** The journal of a state *)

Section Journal.
Variables (F : loc -> Prop).

Lemma journal_roots_bound P h s ps lg es x :
  journal F P h s ps lg es ->
  roots F [prop "G" ps; prop "ctx" ps] x -> (x < length h)%nat.
Proof.
  intros Hj [Hx|Hx].
  - exact (jn_F _ _ _ _ _ _ _ Hj x Hx).
  - apply (jn_wf _ _ _ _ _ _ _ Hj s (Obj ps) x (jn_state _ _ _ _ _ _ _ Hj)).
    simpl in Hx.
    destruct Hx as [Hx|[Hx|[]]];
      eapply prop_refs; rewrite Hx; left; reflexivity.
Qed.

(** A confined call, made after the action was built, writes to none of
    the state objects and [log] arrays and reaches none of them. *)
Lemma journal_callback P h s ps lg es (ea : heap) (R : loc -> Prop) m v h1 :
  journal F P h s ps lg es ->
  closed_in (length h) (length h + length ea) ea ->
  (forall x, R x ->
     roots F [prop "G" ps; prop "ctx" ps] x \/
     (length h <= x < length h + length ea)%nat) ->
  confined val_refs R m ->
  m (h ++ ea) = Ok v h1 ->
  wf_heap h1 /\
  wf_val h1 v /\
  (length h + length ea <= length h1)%nat /\
  (forall l, P l -> h1 !! l = h !! l) /\
  (forall l,
      reach h1 (fun x => roots F [prop "G" ps; prop "ctx" ps] x \/
                         In x (val_refs v)) l ->
      ~ P l).
Proof.
  intros Hj Hc HR Hm Hrun.
  pose proof (jn_wf _ _ _ _ _ _ _ Hj) as Hwf.
  pose proof (jn_old _ _ _ _ _ _ _ Hj) as Hold.
  assert (Hwfa : wf_heap (h ++ ea)) by (eapply wf_heap_app; eassumption).
  assert (HRb : forall l, R l -> (l < length (h ++ ea))%nat).
  { intros l Hl. rewrite length_app.
    destruct (HR l Hl) as [Hx|Hx]; [|lia].
    pose proof (journal_roots_bound _ _ _ _ _ _ _ Hj Hx). lia. }
  destruct (Hm _ _ _ Hwfa HRb Hrun) as (Hwf1 & Hv & Hlen1 & Hkeep & Hnew).
  rewrite length_app in Hlen1.
  assert (Hback : forall (X : loc -> Prop) l,
             (forall x, X x -> roots F [prop "G" ps; prop "ctx" ps] x \/
                               (length h <= x)%nat) ->
             reach (h ++ ea) X l -> P l -> False).
  { intros X l HX Hr HP.
    apply (jn_apart _ _ _ _ _ _ _ Hj l); [|exact HP].
    apply (reach_app_new h ea (roots F [prop "G" ps; prop "ctx" ps])
             (fun x => (length h <= x)%nat)).
    - exact Hwf.
    - intros x Hx. exact (journal_roots_bound _ _ _ _ _ _ _ Hj Hx).
    - auto.
    - intros k o x Hk Hx. specialize (Hc _ _ _ Hk Hx). lia.
    - eapply reach_mono; [exact HX|exact Hr].
    - exact (Hold l HP). }
  split; [exact Hwf1|]. split; [exact Hv|]. split; [exact Hlen1|].
  split.
  - intros l HP.
    destruct (lookup_lt_is_Some_2 h l (Hold l HP)) as [o Ho].
    rewrite Ho.
    destruct (Hkeep l o (lookup_app_l_Some _ _ _ _ Ho)) as [H|H];
      [exact H|].
    exfalso. apply (Hback R l); [|exact H|exact HP].
    intros x Hx. destruct (HR x Hx); [auto|right; lia].
  - intros l Hr HP.
    apply (Hback (fun x => roots F [prop "G" ps; prop "ctx" ps] x \/ R x) l);
      [| |exact HP].
    + intros x [Hx|Hx]; [auto|]. destruct (HR x Hx); [auto|right; lia].
    + apply Hnew.
      * intros x Hx. rewrite length_app.
        pose proof (journal_roots_bound _ _ _ _ _ _ _ Hj Hx). lia.
      * rewrite length_app. specialize (Hold l HP). lia.
      * eapply reach_mono; [|exact Hr]. roots.
Qed.

(** The new [log] and the new state, allocated after the call, join the
    state objects and [log] arrays. *)
Lemma journal_finish P h s ps lg es (ea : heap) a v h1 ps' :
  journal F P h s ps lg es ->
  within (length h) (length h + length ea) (val_refs a) ->
  wf_heap h1 ->
  wf_val h1 v ->
  (length h + length ea <= length h1)%nat ->
  (forall l, P l -> h1 !! l = h !! l) ->
  (forall l,
      reach h1 (fun x => roots F [prop "G" ps; prop "ctx" ps] x \/
                         In x (val_refs v)) l ->
      ~ P l) ->
  prop "log" ps' = VRef (length h1) ->
  prop "_id" ps' = VNum (Int (Z.of_nat (length es) + 1)) ->
  (forall x, roots F [prop "G" ps'; prop "ctx" ps'] x ->
             roots F [prop "G" ps; prop "ctx" ps] x \/ In x (val_refs v)) ->
  (forall x, In x (props_refs ps') -> (x <= length h1)%nat) ->
  journal F (fun l => P l \/ l = length h1 \/ l = S (length h1))
    (h1 ++ [Arr (es ++ [a]); Obj ps']) (S (length h1)) ps'
    (length h1) (es ++ [a]).
Proof.
  intros Hj Ha Hwf1 Hv Hlen1 Hkeep Hap Hlog Hid Hroots Hps'.
  pose proof (jn_old _ _ _ _ _ _ _ Hj) as Hold.
  assert (Hlg1 : h1 !! lg = Some (Arr es)).
  { rewrite (Hkeep lg (jn_lg _ _ _ _ _ _ _ Hj)).
    exact (jn_entries _ _ _ _ _ _ _ Hj). }
  assert (Hes : forall x, In x (obj_refs (Arr (es ++ [a]))) ->
                          (x < length h1)%nat).
  { intros x Hx. simpl in Hx. rewrite flat_map_app in Hx.
    apply in_app_iff in Hx. destruct Hx as [Hx|Hx].
    - exact (Hwf1 lg (Arr es) x Hlg1 Hx).
    - simpl in Hx. rewrite app_nil_r in Hx. specialize (Ha _ Hx). lia. }
  assert (Hwf2 : wf_heap (h1 ++ [Arr (es ++ [a])]))
    by (apply wf_heap_alloc; assumption).
  assert (Hlen2 : length (h1 ++ [Arr (es ++ [a])]) = S (length h1))
    by (rewrite length_app; simpl; lia).
  assert (Hrb : forall x, roots F [prop "G" ps'; prop "ctx" ps'] x ->
                          (x < length h1)%nat).
  { intros x Hx. destruct (Hroots x Hx) as [H|H].
    - pose proof (journal_roots_bound _ _ _ _ _ _ _ Hj H). lia.
    - exact (Hv _ H). }
  assert (Hlen3 : length (h1 ++ [Arr (es ++ [a]); Obj ps']) =
                  S (S (length h1)))
    by (rewrite length_app; simpl; lia).
  split.
  - change (h1 ++ [Arr (es ++ [a]); Obj ps'])
      with (h1 ++ [Arr (es ++ [a])] ++ [Obj ps']).
    rewrite app_assoc.
    apply wf_heap_alloc; [exact Hwf2|].
    intros x Hx. rewrite Hlen2. specialize (Hps' _ Hx). lia.
  - intros l Hl. rewrite Hlen3.
    pose proof (jn_F _ _ _ _ _ _ _ Hj l Hl). lia.
  - replace (S (length h1)) with (length h1 + 1)%nat by lia.
    rewrite lookup_app_plus. reflexivity.
  - exact Hlog.
  - rewrite lookup_app_0. reflexivity.
  - rewrite Hid, length_app. simpl length. f_equal. f_equal. lia.
  - intros l [Hl|[->| ->]]; rewrite Hlen3; [|lia|lia].
    specialize (Hold l Hl). lia.
  - right. right. reflexivity.
  - right. left. reflexivity.
  - intros l Hr.
    apply reach_app_old in Hr; [|exact Hwf1|exact Hrb].
    pose proof (reach_bound _ _ _ Hwf1 Hrb Hr) as Hlt.
    intros [HP|[->| ->]]; [|lia|lia].
    apply (Hap l); [|exact HP].
    eapply reach_mono; [exact Hroots|exact Hr].
Qed.

(** Allocating the action alone changes nothing for the journal. *)
Lemma journal_app P h s ps lg es (ea : heap) :
  journal F P h s ps lg es ->
  closed_in (length h) (length h + length ea) ea ->
  journal F P (h ++ ea) s ps lg es.
Proof.
  intros Hj Hc.
  pose proof (jn_wf _ _ _ _ _ _ _ Hj) as Hwf.
  split.
  - eapply wf_heap_app; eassumption.
  - intros l Hl. rewrite length_app.
    pose proof (jn_F _ _ _ _ _ _ _ Hj l Hl). lia.
  - apply lookup_app_l_Some. exact (jn_state _ _ _ _ _ _ _ Hj).
  - exact (jn_log _ _ _ _ _ _ _ Hj).
  - apply lookup_app_l_Some. exact (jn_entries _ _ _ _ _ _ _ Hj).
  - exact (jn_id _ _ _ _ _ _ _ Hj).
  - intros l Hl. rewrite length_app.
    pose proof (jn_old _ _ _ _ _ _ _ Hj l Hl). lia.
  - exact (jn_s _ _ _ _ _ _ _ Hj).
  - exact (jn_lg _ _ _ _ _ _ _ Hj).
  - intros l Hr. apply (jn_apart _ _ _ _ _ _ _ Hj).
    eapply reach_app_old; [exact Hwf| |exact Hr].
    intros x Hx. exact (journal_roots_bound _ _ _ _ _ _ _ Hj Hx).
Qed.

End Journal.

Section JournalRuns.
Variables (F : loc -> Prop).
Variable Actions : ActionTypes.
Variables (game : Game) (initial : val).
Hypothesis game_ok : game_confined F game.

(** One action, not a [RESTORE]: the journal is kept, with at most one
    entry more, and no state object or [log] array made before is
    written. *)
Lemma dispatch_journal P h s ps lg es j st' h' :
  journal F P h s ps lg es ->
  not_restore Actions j ->
  dispatch Actions game initial (VRef s) j h = Ok st' h' ->
  exists s' ps' lg' es' (P' : loc -> Prop),
    st' = VRef s' /\
    journal F P' h' s' ps' lg' es' /\
    (forall l, P l -> P' l /\ h' !! l = h !! l) /\
    (es' = es \/ exists a, es' = es ++ [a]).
Proof.
  intros Hj Hnr Hrun.
  unfold dispatch in Hrun. apply bind_inv in Hrun.
  destruct Hrun as (a & ha & Hb & Hrun).
  destruct (build_spec j h) as (a' & ea & Hb' & Hc & Ha & _).
  rewrite Hb in Hb'. injection Hb' as <- ->.
  pose proof (journal_app F P h s ps lg es ea Hj Hc) as Hja.
  pose proof (jn_state _ _ _ _ _ _ _ Hja) as Hsa.
  pose proof (jn_log _ _ _ _ _ _ _ Hj) as Hlog.
  pose proof (jn_id _ _ _ _ _ _ _ Hj) as Hid0.
  pose proof (jn_old _ _ _ _ _ _ _ Hj) as Hold.
  unfold GameReducer in Hrun. simpl default_param in Hrun.
  rewrite bind_ret in Hrun.
  apply bind_inv in Hrun. destruct Hrun as (ty & h0 & Hty & Hrun).
  pose proof (get_heap _ _ _ _ _ Hty) as ->.
  pose proof (not_restore_type Actions j h a _ ty Hnr Hb Hty) as Hnot.
  destruct (get_inv _ _ _ _ _ Hty) as (_ & la & aps & -> & Hla & _).
  assert (Haps : forall x, In x (props_refs aps) ->
                           (length h <= x < length h + length ea)%nat).
  { intros x Hx. assert (Hge : (length h <= la)%nat)
      by (apply (Ha la); left; reflexivity).
    rewrite lookup_app_r in Hla by exact Hge.
    exact (Hc _ _ _ Hla Hx). }
  assert (Hfin : forall k v h1 r hr,
             (k = "G" \/ k = "ctx") ->
             wf_heap h1 -> wf_val h1 v ->
             (length h + length ea <= length h1)%nat ->
             (forall l, P l -> h1 !! l = h !! l) ->
             (forall l,
                 reach h1 (fun x => roots F [prop "G" ps; prop "ctx" ps] x \/
                                    In x (val_refs v)) l -> ~ P l) ->
             (let* slog := get (VRef s) "log" in
              let* log := array_spread_append slog (VRef la) in
              let* sid := get (VRef s) "_id" in
              let* id := modelled (js_add sid (VNum (Int 1))) in
              object_spread (VRef s) [(k, v); ("_id", id); ("log", log)]) h1 =
             Ok r hr ->
             exists s' ps' lg' es' (P' : loc -> Prop),
               r = VRef s' /\
               journal F P' hr s' ps' lg' es' /\
               (forall l, P l -> P' l /\ hr !! l = h !! l) /\
               (es' = es \/ exists a, es' = es ++ [a])).
  { intros k v h1 r hr Hk Hwf1 Hv Hlen1 Hkeep Hap Hrest.
    assert (Hs1 : h1 !! s = Some (Obj ps)).
    { rewrite (Hkeep s (jn_s _ _ _ _ _ _ _ Hj)).
      exact (jn_state _ _ _ _ _ _ _ Hj). }
    assert (Hlg1 : h1 !! lg = Some (Arr es)).
    { rewrite (Hkeep lg (jn_lg _ _ _ _ _ _ _ Hj)).
      exact (jn_entries _ _ _ _ _ _ _ Hj). }
    apply bind_inv in Hrest. destruct Hrest as (slog & h0 & Hg & Hrest).
    apply (get_ref_inv _ _ _ _ _ _ Hs1) in Hg. destruct Hg as [-> ->].
    rewrite Hlog in Hrest.
    rewrite (bind_Ok _ _ _ _ _ (array_spread_append_Ok _ _ _ (VRef la) Hlg1))
      in Hrest.
    apply bind_inv in Hrest. destruct Hrest as (sid & h0 & Hg & Hrest).
    apply (get_ref_inv _ _ _ _ _ _ (lookup_alloc_old _ _ _ _ Hs1)) in Hg.
    destruct Hg as [-> ->].
    rewrite Hid0 in Hrest.
    apply bind_inv in Hrest. destruct Hrest as (id' & h0 & Hid & Hrest).
    apply modelled_inv in Hid. destruct Hid as [-> Hid].
    simpl in Hid. injection Hid as <-.
    apply (object_spread_inv _ _ _ _ _ _ (lookup_alloc_old _ _ _ _ Hs1))
      in Hrest.
    destruct Hrest as [-> ->].
    rewrite <- app_assoc. simpl app.
    eexists (S (length h1)), _, (length h1), (es ++ [VRef la]), _.
    split; [f_equal; rewrite length_app; simpl; lia|].
    split; [|split].
    - eapply (journal_finish F P h s ps lg es ea (VRef la) v h1);
        try eassumption.
      + unfold set_props. simpl. rewrite !prop_set_prop. reflexivity.
      + unfold set_props. simpl. rewrite !prop_set_prop. reflexivity.
      + unfold roots, set_props. simpl. rewrite !prop_set_prop.
        destruct Hk as [-> | ->]; simpl;
          intros x [Hx|[Hx|[Hx|[]]]]; try tauto;
          right; rewrite Hx; left; reflexivity.
      + intros x Hx.
        eapply (new_props_refs 0 0 (le_n 0) k v
                  (VNum (Int (Z.of_nat (length es) + 1))));
          try eassumption. reflexivity.
    - intros l Hl. split; [left; exact Hl|].
      rewrite <- (Hkeep l Hl). apply lookup_app_l.
      specialize (Hold l Hl). lia.
    - right. eexists. reflexivity. }
  destruct (strict_eq ty (VStr (MAKE_MOVE Actions))).
  { (* MAKE_MOVE *)
    apply bind_inv in Hrun. destruct Hrun as (sG & h0 & Hg & Hrun).
    apply (get_ref_inv _ _ _ _ _ _ Hsa) in Hg. destruct Hg as [-> ->].
    apply bind_inv in Hrun. destruct Hrun as (move & h0 & Hg & Hrun).
    apply (get_ref_inv _ _ _ _ _ _ Hla) in Hg. destruct Hg as [-> ->].
    apply bind_inv in Hrun. destruct Hrun as (sctx & h0 & Hg & Hrun).
    apply (get_ref_inv _ _ _ _ _ _ Hsa) in Hg. destruct Hg as [-> ->].
    apply bind_inv in Hrun. destruct Hrun as (G' & h1 & Hcall & Hrun).
    assert (HR : forall x,
               roots F [prop "G" ps; prop "move" aps; prop "ctx" ps] x ->
               roots F [prop "G" ps; prop "ctx" ps] x \/
               (length h <= x < length h + length ea)%nat).
    { intros x [Hx|[Hx|[Hx|[Hx|[]]]]].
      - left. left. exact Hx.
      - left. right. rewrite Hx. simpl. tauto.
      - right. apply Haps. apply (prop_refs "move"). rewrite Hx.
        left. reflexivity.
      - left. right. rewrite Hx. simpl. tauto. }
    destruct (journal_callback F P h s ps lg es ea _ _ G' h1 Hj Hc HR
                (reducer_confined F game game_ok _ _ _) Hcall)
      as (Hwf1 & Hv & Hlen1 & Hkeep & Hap).
    exact (Hfin "G" G' h1 st' h' (or_introl eq_refl)
             Hwf1 Hv Hlen1 Hkeep Hap Hrun). }
  destruct (strict_eq ty (VStr (END_TURN Actions))).
  { (* END_TURN *)
    apply bind_inv in Hrun. destruct Hrun as (sctx & h0 & Hg & Hrun).
    apply (get_ref_inv _ _ _ _ _ _ Hsa) in Hg. destruct Hg as [-> ->].
    apply bind_inv in Hrun. destruct Hrun as (sG & h0 & Hg & Hrun).
    apply (get_ref_inv _ _ _ _ _ _ Hsa) in Hg. destruct Hg as [-> ->].
    apply bind_inv in Hrun. destruct Hrun as (ctx' & h1 & Hcall & Hrun).
    unfold call_flow in Hcall.
    destruct (flow game) as [f|] eqn:Ef; [|discriminate].
    assert (HR : forall x,
               roots F [prop "ctx" ps; VRef la; prop "G" ps] x ->
               roots F [prop "G" ps; prop "ctx" ps] x \/
               (length h <= x < length h + length ea)%nat).
    { intros x [Hx|[Hx|[Hx|[Hx|[]]]]].
      - left. left. exact Hx.
      - left. right. rewrite Hx. simpl. tauto.
      - right. apply (Ha x). injection Hx as ->. left. reflexivity.
      - left. right. rewrite Hx. simpl. tauto. }
    destruct (journal_callback F P h s ps lg es ea _ _ ctx' h1 Hj Hc HR
                (flow_confined F game game_ok f _ _ _ Ef) Hcall)
      as (Hwf1 & Hv & Hlen1 & Hkeep & Hap).
    exact (Hfin "ctx" ctx' h1 st' h' (or_intror eq_refl)
             Hwf1 Hv Hlen1 Hkeep Hap Hrun). }
  destruct (strict_eq ty (VStr (RESTORE Actions))) eqn:Er.
  { (* RESTORE *)
    exfalso. apply Hnot. apply strict_eq_str_true. exact Er. }
  injection Hrun as <- <-.
  exists s, ps, lg, es, P.
  split; [reflexivity|]. split; [exact Hja|]. split; [|left; reflexivity].
  intros l Hl. split; [exact Hl|]. apply lookup_app_l. exact (Hold l Hl).
Qed.

(** Any number of actions, none a [RESTORE]. *)
Lemma dispatch_all_journal js : forall P h s ps lg es st' h',
  journal F P h s ps lg es ->
  Forall (not_restore Actions) js ->
  dispatch_all Actions game initial (VRef s) js h = Ok st' h' ->
  exists s' ps' lg' more (P' : loc -> Prop),
    st' = VRef s' /\
    journal F P' h' s' ps' lg' (es ++ more) /\
    (forall l, P l -> P' l /\ h' !! l = h !! l) /\
    (length more <= length js)%nat.
Proof.
  induction js as [|j js IH]; intros P h s ps lg es st' h' Hj Hjs Hrun.
  - injection Hrun as <- <-. exists s, ps, lg, [], P.
    rewrite app_nil_r.
    split; [reflexivity|]. split; [exact Hj|]. split; [auto|simpl; lia].
  - apply Forall_cons_iff in Hjs. destruct Hjs as [Hnr Hjs].
    simpl in Hrun. apply bind_inv in Hrun.
    destruct Hrun as (st1 & h1 & Hstep & Hrun).
    destruct (dispatch_journal P h s ps lg es j st1 h1 Hj Hnr Hstep)
      as (s1 & ps1 & lg1 & es1 & P1 & -> & Hj1 & Hk1 & Hes1).
    destruct (IH _ _ _ _ _ _ _ _ Hj1 Hjs Hrun)
      as (s2 & ps2 & lg2 & more & P2 & -> & Hj2 & Hk2 & Hm).
    assert (Hkeep : forall l, P l -> P2 l /\ h' !! l = h !! l).
    { intros l Hl. destruct (Hk1 l Hl) as [Hl1 E1].
      destruct (Hk2 l Hl1) as [Hl2 E2]. split; [exact Hl2|congruence]. }
    destruct Hes1 as [->|[a ->]].
    + exists s2, ps2, lg2, more, P2.
      split; [reflexivity|]. split; [exact Hj2|].
      split; [exact Hkeep|simpl; lia].
    + exists s2, ps2, lg2, (a :: more), P2.
      rewrite <- app_assoc in Hj2.
      split; [reflexivity|]. split; [exact Hj2|].
      split; [exact Hkeep|simpl; lia].
Qed.

End JournalRuns.

(** The state [createGameReducer] returns keeps a journal without
    entries. *)
Lemma initialized_journal (F : loc -> Prop) (h1 : heap) G n ext gps :
  wf_heap h1 ->
  wf_val h1 G ->
  (forall l, F l -> (l < length h1)%nat) ->
  closed_in (length h1 + 4)
    (length h1 + 4 +
     length (ext ++ snapshot_objects gps (VNum (Int n))
                      (length h1 + 4 + length ext)))
    (ext ++ snapshot_objects gps (VNum (Int n))
              (length h1 + 4 + length ext)) ->
  journal F (fun l => l = (length h1 + 1)%nat \/ l = (length h1 + 3)%nat)
    (initialized h1 G (VNum (Int n)) ext gps) (length h1 + 3)
    (initial_props G (length h1) (VRef (length h1 + 4 + length ext + 3)))
    (length h1 + 1) [].
Proof.
  intros Hwf1 HG HF Hc.
  pose proof (initialized_isolated F h1 G n ext gps Hwf1 HG HF Hc) as Hi.
  pose proof (iso_len _ _ _ _ _ _ _ _ Hi) as Hlen.
  split.
  - exact (iso_wf _ _ _ _ _ _ _ _ Hi).
  - intros l Hl. specialize (HF l Hl). lia.
  - exact (iso_state _ _ _ _ _ _ _ _ Hi).
  - reflexivity.
  - apply initialized_first; [lia|reflexivity].
  - reflexivity.
  - intros l [-> | ->]; lia.
  - right. reflexivity.
  - left. reflexivity.
  - intros l Hr.
    assert (Hl : (l < length h1 + 1)%nat); [|lia].
    revert Hr.
    apply (reach_closed _ _ (fun x => (x < length h1 + 1)%nat)).
    + intros x [Hx|Hx].
      * specialize (HF _ Hx). lia.
      * simpl in Hx. destruct Hx as [Hx|[Hx|[]]].
        -- assert (Hin : In x (val_refs G))
             by (change (prop "G" (initial_props G (length h1)
                           (VRef (length h1 + 4 + length ext + 3))))
                   with G in Hx; rewrite Hx; left; reflexivity).
           specialize (HG _ Hin). lia.
        -- injection Hx as <-. lia.
    + intros x o y Hx Ho Hy.
      destruct (Nat.lt_ge_cases x (length h1)) as [Hlt|Hge].
      * unfold initialized in Ho.
        rewrite list_lookup_insert_ne in Ho by lia.
        rewrite lookup_app_l in Ho by exact Hlt.
        specialize (Hwf1 _ _ _ Ho Hy). lia.
      * assert (x = (length h1 + 0)%nat) by lia. subst x.
        rewrite (initialized_first h1 G (VNum (Int n)) ext gps 0
                   (Obj (ctx_props (VNum (Int n))))) in Ho
          by (lia || reflexivity).
        injection Ho as <-. destruct Hy.
Qed.

Section JournalOfAGame.
Variable Actions : ActionTypes.

Lemma createGameReducer_journal (F : loc -> Prop) game np n h G h1 r :
  game_confined F game ->
  wf_heap h ->
  (forall l, F l -> (l < length h)%nat) ->
  players np = VNum (Int n) ->
  setup game (VNum (Int n)) h = Ok G h1 ->
  ser (length h1) h1 G = Some r ->
  exists i ips lg h0 (P : loc -> Prop),
    createGameReducer Actions (Some game) np h =
    Ok (install_flow Actions game, VRef i) h0 /\
    journal F P h0 i ips lg [].
Proof.
  intros Hg Hwf HF Hnp Hset Hser.
  destruct (setup_confined F game Hg (VNum (Int n)) h G h1 Hwf)
    as (Hwf1 & HG & Hlen & _ & _); [|exact Hset|].
  { intros l [Hl|[Hl|[]]]; [auto|discriminate]. }
  destruct (createGameReducer_Ok Actions game np n h G h1 r Hnp Hset Hser)
    as (ext & gps & Hrun & Hbuild & _).
  destruct (build_spec (initial_json r n)
              (h1 ++ initial_objects G (VNum (Int n)) (length h1)))
    as (v' & e0 & Hb' & Hc & _ & _).
  rewrite Hbuild in Hb'. injection Hb' as <- He.
  apply app_inv_head in He. subst e0.
  assert (Hlen2 : length (h1 ++ initial_objects G (VNum (Int n)) (length h1))
                  = (length h1 + 4)%nat)
    by (rewrite length_app; reflexivity).
  rewrite Hlen2 in Hc.
  eexists _, _, _, _, _. split; [exact Hrun|].
  apply initialized_journal; try assumption.
  intros l Hl. specialize (HF l Hl). lia.
Qed.



End JournalOfAGame.

(** ** Turns in a row *)

Lemma build_end_turn_action Actions (h : heap) :
  build (end_turn_action Actions) h =
  Ok (VRef (length h)) (h ++ [Obj [("type", VStr (END_TURN Actions))]]).
Proof. reflexivity. Qed.

Lemma next_player_mod k n :
  0 <= k -> 0 < n ->
  next_player (Int (k mod n)) (Int n) =
  VStr (NumberToString (Int ((k + 1) mod n))).
Proof.
  intros Hk Hn. unfold next_player. simpl.
  destruct (Z.eqb_spec n 0) as [->|_]; [lia|].
  rewrite Z.rem_mod_nonneg by (pose proof (Z.mod_pos_bound k n Hn); lia).
  rewrite Zplus_mod_idemp_l. reflexivity.
Qed.

Section RoundRobin.
Variable Actions : ActionTypes.
Variables (game g : Game) (initial : val).
Variables (G : val) (h1 : heap) (n : Z).
Hypothesis types_differ : MAKE_MOVE Actions <> END_TURN Actions.
Hypothesis default_flow : flow g = Some (GameFlow Actions game).
Hypothesis n_pos : 0 < n.
Hypothesis victory_reads : forall c ext,
  exists w, victory game G (VRef c) (h1 ++ ext) = Ok w (h1 ++ ext).

Lemma end_turn_turned k h s :
  0 <= k -> turned G h1 n k h s ->
  exists s' h',
    dispatch Actions g initial (VRef s) (end_turn_action Actions) h =
    Ok (VRef s') h' /\
    turned G h1 n (k + 1) h' s'.
Proof.
  intros Hk (ps & c & cps & lg & es & ext & -> & Hs & HG & Hctx & Hlog & Hid &
             Hc & Hcp & Hnp & Hturn & Hlg).
  set (h := h1 ++ ext) in *.
  set (ha := h ++ [Obj [("type", VStr (END_TURN Actions))]]).
  assert (Hha : ha = h1 ++ ext ++ [Obj [("type", VStr (END_TURN Actions))]])
    by (unfold ha, h; rewrite app_assoc; reflexivity).
  destruct (victory_reads c (ext ++ [Obj [("type", VStr (END_TURN Actions))]]))
    as [w Hv].
  rewrite <- Hha in Hv.
  assert (Hrun := GameReducer_end_turn_default Actions g game initial ha s ps
            c (VRef (length h)) w ha cps (Int (k mod n)) (Int n)
            (VNum (Int (k + 1))) ps lg es k types_differ default_flow
            (lookup_alloc_old _ _ _ _ Hs)).
  rewrite HG in Hrun.
  specialize (Hrun (get_obj _ _ _ "type" (lookup_alloc_new h _)) Hctx Hv
                (lookup_alloc_old _ _ _ _ Hc)).
  rewrite Hcp, Hnp, Hturn, ToNumber_NumberToString in Hrun.
  specialize (Hrun eq_refl eq_refl eq_refl (lookup_alloc_old _ _ _ _ Hs) Hlog
                (lookup_alloc_old _ _ _ _ Hlg) Hid).
  eexists _, _. split.
  - unfold dispatch. run (build_end_turn_action Actions h). exact Hrun.
  - exists (after_end_turn ps (VRef (length ha)) k (S (length ha))),
      (length ha),
      (after_flow cps (next_player (Int (k mod n)) (Int n))
         (VNum (Int (k + 1))) w),
      (S (length ha)), (es ++ [VRef (length h)]).
    eexists.
    split; [rewrite Hha, <- !app_assoc; reflexivity|].
    split.
    { replace (S (S (length ha))) with (length ha + 2)%nat by lia.
      rewrite lookup_app_plus. reflexivity. }
    rewrite !prop_after_end_turn. simpl.
    split; [exact HG|]. split; [reflexivity|]. split; [reflexivity|].
    split; [reflexivity|].
    split; [rewrite lookup_app_0; reflexivity|].
    rewrite !prop_after_flow. simpl.
    split; [apply next_player_mod; [exact Hk|exact n_pos]|].
    split; [exact Hnp|]. split; [reflexivity|].
    replace (S (length ha)) with (length ha + 1)%nat by lia.
    rewrite lookup_app_plus. reflexivity.
Qed.

Lemma end_turns_turned t : forall k h s,
  0 <= k -> turned G h1 n k h s ->
  exists s' h',
    dispatch_all Actions g initial (VRef s)
      (repeat (end_turn_action Actions) t) h = Ok (VRef s') h' /\
    turned G h1 n (k + Z.of_nat t) h' s'.
Proof.
  induction t as [|t IH]; intros k h s Hk Ht.
  - exists s, h. split; [reflexivity|].
    replace (k + Z.of_nat 0) with k by lia. exact Ht.
  - destruct (end_turn_turned k h s Hk Ht) as (s1 & h2 & Hstep & Ht1).
    destruct (IH (k + 1) h2 s1 ltac:(lia) Ht1) as (s' & h' & Hrun & Ht').
    exists s', h'. split.
    + simpl. run Hstep. exact Hrun.
    + replace (k + Z.of_nat (S t)) with (k + 1 + Z.of_nat t) by lia.
      exact Ht'.
Qed.

End RoundRobin.

Lemma initialized_prefix (h1 : heap) G np ext gps :
  exists ext0, initialized h1 G np ext gps = h1 ++ ext0.
Proof.
  unfold initialized. rewrite insert_app_r_alt by lia.
  eexists. reflexivity.
Qed.

Section Turns.
Variable Actions : ActionTypes.

(** X5: the default flow deals the turns out in a circle.  For a game
    definition without a [flow] of its own, [n] players and a [victory]
    that returns without writing: after [t] actions [END_TURN] from the
    initial state, [ctx.currentPlayer] is the string of [t mod n],
    [ctx.turn] is [t], [ctx.numPlayers] is still [n], the [_id] of the
    state is [t] and its [G] is the one [setup] returned; so after [n]
    turns it is the first player's turn again. *)
Theorem end_turns_go_round game np n t h G h1 r :
  MAKE_MOVE Actions <> END_TURN Actions ->
  flow game = None ->
  players np = VNum (Int n) ->
  0 < n ->
  setup game (VNum (Int n)) h = Ok G h1 ->
  ser (length h1) h1 G = Some r ->
  (forall c ext,
      exists w, victory game G (VRef c) (h1 ++ ext) = Ok w (h1 ++ ext)) ->
  exists s ps c cps h',
    play Actions (Some game) np (repeat (end_turn_action Actions) t) h =
    Ok (VRef s) h' /\
    h' !! s = Some (Obj ps) /\
    prop "G" ps = G /\
    prop "_id" ps = VNum (Int (Z.of_nat t)) /\
    prop "ctx" ps = VRef c /\
    h' !! c = Some (Obj cps) /\
    prop "currentPlayer" cps =
      VStr (NumberToString (Int (Z.of_nat t mod n))) /\
    prop "turn" cps = VNum (Int (Z.of_nat t)) /\
    prop "numPlayers" cps = VNum (Int n).
Proof.
  intros Hne Hflow Hnp Hn Hset Hser Hv.
  destruct (createGameReducer_Ok Actions game np n h G h1 r Hnp Hset Hser)
    as (ext & gps & Hrun & _ & _).
  destruct (initialized_prefix h1 G (VNum (Int n)) ext gps) as [ext0 He].
  assert (Hf : flow (install_flow Actions game) =
               Some (GameFlow Actions game))
    by (unfold install_flow; rewrite Hflow; reflexivity).
  destruct (end_turns_turned Actions game (install_flow Actions game)
              (VRef (length h1 + 3)) G h1 n Hne Hf Hn Hv t 0
              (initialized h1 G (VNum (Int n)) ext gps) (length h1 + 3)%nat)
    as (s' & h' & Hd & ps & c & cps & lg & es & ext' & _ & Hs & HG & Hctx &
        _ & Hid & Hc & Hcp & Hnum & Hturn & _).
  { lia. }
  { exists (initial_props G (length h1)
              (VRef (length h1 + 4 + length ext + 3))),
      (length h1), (ctx_props (VNum (Int n))), (length h1 + 1)%nat, [], ext0.
    split; [exact He|].
    split; [apply initialized_initial|].
    split; [reflexivity|]. split; [reflexivity|]. split; [reflexivity|].
    split; [reflexivity|].
    split.
    { rewrite <- (Nat.add_0_r (length h1)) at 1.
      apply initialized_first; [lia|reflexivity]. }
    split; [rewrite Z.mod_0_l by lia; reflexivity|].
    split; [reflexivity|]. split; [reflexivity|].
    apply initialized_first; [lia|reflexivity]. }
  rewrite Z.add_0_l in Hid, Hcp, Hturn.
  exists s', ps, c, cps, h'.
  split; [unfold play; run Hrun; exact Hd|].
  repeat (split; [assumption|]). assumption.
Qed.

End Turns.

Lemma end_turns_go_round_witness :
  exists s ps c cps h',
    play Demo.actions (Some Demo.lead_game) VUndef
      (repeat (end_turn_action Demo.actions) 5) [] = Ok (VRef s) h' /\
    h' !! s = Some (Obj ps) /\
    prop "G" ps = VRef 0 /\
    prop "_id" ps = VNum (Int (Z.of_nat 5)) /\
    prop "ctx" ps = VRef c /\
    h' !! c = Some (Obj cps) /\
    prop "currentPlayer" cps =
      VStr (NumberToString (Int (Z.of_nat 5 mod 2))) /\
    prop "turn" cps = VNum (Int (Z.of_nat 5)) /\
    prop "numPlayers" cps = VNum (Int 2).
Proof.
  apply (end_turns_go_round Demo.actions Demo.lead_game VUndef 2 5 []
           (VRef 0) [Obj [("leader", VNull)]]
           (Some (JObj [("leader", JNull)]))).
  - discriminate.
  - reflexivity.
  - reflexivity.
  - lia.
  - reflexivity.
  - reflexivity.
  - intros c ext. exists VNull. reflexivity.
Defined.

(** ** [createDispatchers] *)

Lemma own_property_assign {A} k k' (x : A) o :
  own_property k (assign k' x o) =
  if String.eqb k k' then Some x else own_property k o.
Proof.
  induction o as [|[k0 x0] o IH]; simpl.
  - reflexivity.
  - destruct (String.eqb_spec k' k0) as [->|Hne]; simpl.
    + destruct (String.eqb k k0); reflexivity.
    + rewrite IH.
      destruct (String.eqb_spec k k0) as [->|_]; [|reflexivity].
      apply not_eq_sym, String.eqb_neq in Hne. rewrite Hne. reflexivity.
Qed.

Lemma In_keys_assign {A} k k' (x : A) o :
  In k (map fst (assign k' x o)) -> k = k' \/ In k (map fst o).
Proof.
  induction o as [|[k0 x0] o IH]; simpl.
  - intros [<-|[]]. auto.
  - destruct (String.eqb_spec k' k0) as [->|Hne]; simpl.
    + intros [<-|H]; auto.
    + intros [<-|H]; [auto|]. destruct (IH H); auto.
Qed.

Lemma NoDup_keys_assign {A} k (x : A) o :
  List.NoDup (map fst o) -> List.NoDup (map fst (assign k x o)).
Proof.
  induction o as [|[k0 x0] o IH]; simpl; intros Hnd.
  - constructor; [intros []|constructor].
  - apply NoDup_cons_iff in Hnd. destruct Hnd as [Hn Hnd].
    destruct (String.eqb_spec k k0) as [->|Hne]; simpl.
    + constructor; assumption.
    + constructor; [|exact (IH Hnd)].
      intros Hin. apply In_keys_assign in Hin.
      destruct Hin as [Hin|Hin]; [congruence|contradiction].
Qed.

Section DispatcherFacts.
Variables (makeMove store_dispatch : val -> M val).

Lemma own_property_dispatchers name moveNames : forall acc,
  own_property name
    (fold_left
       (fun dispatchers name =>
          assign name (dispatcher makeMove store_dispatch name) dispatchers)
       moveNames acc) =
  if existsb (String.eqb name) moveNames
  then Some (dispatcher makeMove store_dispatch name)
  else own_property name acc.
Proof.
  induction moveNames as [|a moveNames IH]; intros acc; simpl; [reflexivity|].
  rewrite IH, own_property_assign.
  destruct (existsb (String.eqb name) moveNames);
    [rewrite orb_true_r; reflexivity|].
  rewrite orb_false_r.
  destruct (String.eqb_spec name a) as [->|_]; reflexivity.
Qed.

Lemma NoDup_dispatchers moveNames : forall acc,
  List.NoDup (map fst acc) ->
  List.NoDup
    (map fst
       (fold_left
          (fun dispatchers name =>
             assign name (dispatcher makeMove store_dispatch name) dispatchers)
          moveNames acc)).
Proof.
  induction moveNames as [|a moveNames IH]; intros acc Hnd; simpl;
    [exact Hnd|].
  apply IH, NoDup_keys_assign. exact Hnd.
Qed.

(** X6: the object [createDispatchers] returns has one own property for
    each name of [moveNames], however often the name occurs there, and
    no other: the property of a name is the function that dispatches a
    move of that name, and a name that is not in [moveNames] has
    none. *)
Theorem createDispatchers_own_properties moveNames d :
  createDispatchers makeMove store_dispatch moveNames = Some d ->
  (forall name, In name moveNames ->
     own_property name d = Some (dispatcher makeMove store_dispatch name)) /\
  (forall name, ~ In name moveNames -> own_property name d = None) /\
  List.NoDup (map fst d) /\
  (forall name, In name (map fst d) -> In name moveNames).
Proof.
  unfold createDispatchers.
  destruct (existsb (String.eqb "__proto__") moveNames); [discriminate|].
  intros H. injection H as <-.
  assert (Hmem : forall name,
             existsb (String.eqb name) moveNames = true <->
             In name moveNames).
  { intros name. rewrite existsb_exists. split.
    - intros (x & Hx & He). apply String.eqb_eq in He. subst x. exact Hx.
    - intros Hin. exists name. split; [exact Hin|apply String.eqb_refl]. }
  split; [|split; [|split]].
  - intros name Hin. rewrite own_property_dispatchers.
    apply Hmem in Hin. rewrite Hin. reflexivity.
  - intros name Hin. rewrite own_property_dispatchers.
    destruct (existsb (String.eqb name) moveNames) eqn:E; [|reflexivity].
    apply Hmem in E. contradiction.
  - apply NoDup_dispatchers. constructor.
  - intros name Hin.
    destruct (in_dec string_dec name moveNames) as [H|H]; [exact H|].
    exfalso.
    assert (Hnone : own_property name
              (fold_left
                 (fun dispatchers name =>
                    assign name (dispatcher makeMove store_dispatch name)
                      dispatchers)
                 moveNames []) = None).
    { rewrite own_property_dispatchers.
      destruct (existsb (String.eqb name) moveNames) eqn:E; [|reflexivity].
      apply Hmem in E. contradiction. }
    revert Hin Hnone.
    generalize (fold_left
                  (fun dispatchers name =>
                     assign name (dispatcher makeMove store_dispatch name)
                       dispatchers)
                  moveNames []).
    intros o. induction o as [|[k0 x0] o IH]; simpl; [intros []|].
    intros [->|Hin].
    + rewrite String.eqb_refl. discriminate.
    + destruct (String.eqb name k0); [discriminate|]. exact (IH Hin).
Qed.

End DispatcherFacts.

Lemma createDispatchers_own_properties_witness :
  (forall name, In name ["lead"; "pass"; "lead"] ->
     own_property name
       [("lead", dispatcher Examples.wrap_move ret "lead");
        ("pass", dispatcher Examples.wrap_move ret "pass")] =
     Some (dispatcher Examples.wrap_move ret name)) /\
  (forall name, ~ In name ["lead"; "pass"; "lead"] ->
     own_property name
       [("lead", dispatcher Examples.wrap_move ret "lead");
        ("pass", dispatcher Examples.wrap_move ret "pass")] = None) /\
  List.NoDup
    (map fst [("lead", dispatcher Examples.wrap_move ret "lead");
              ("pass", dispatcher Examples.wrap_move ret "pass")]) /\
  (forall name,
     In name (map fst [("lead", dispatcher Examples.wrap_move ret "lead");
                       ("pass", dispatcher Examples.wrap_move ret "pass")]) ->
     In name ["lead"; "pass"; "lead"]).
Proof.
  apply (createDispatchers_own_properties Examples.wrap_move ret
           ["lead"; "pass"; "lead"]).
  reflexivity.
Defined.

Section DispatcherToReducer.
Variable Actions : ActionTypes.
Variables (game : Game) (initial : val).
Variable makeMove : val -> M val.

(** X7: from a dispatcher to the game's [reducer].  When
    [ActionCreators.makeMove] wraps its argument as
    [{type: MAKE_MOVE, move}] and the store dispatches to [GameReducer]
    with the state at [s]: calling the dispatcher of [name] with [args]
    calls the game's [reducer] on the [G] and [ctx] of that state and on
    a new object [{type: name, args}], whose [args] is a new array of
    the arguments of the call; the call returns [undefined] and leaves
    the new state, with the result of [reducer] as its [G], behind the
    new [log], which ends with the wrapped action. *)
Theorem dispatcher_runs_reducer_on_named_move
    name args h s ps G' h4 ps1 lg es n :
  (forall move h0,
      makeMove move h0 =
      Ok (VRef (length h0))
         (h0 ++ [Obj [("type", VStr (MAKE_MOVE Actions)); ("move", move)]])) ->
  h !! s = Some (Obj ps) ->
  reducer game (prop "G" ps) (VRef (S (length h))) (prop "ctx" ps)
    (h ++ [Arr args;
           Obj [("type", VStr name); ("args", VRef (length h))];
           Obj [("type", VStr (MAKE_MOVE Actions));
                ("move", VRef (S (length h)))]]) = Ok G' h4 ->
  h4 !! s = Some (Obj ps1) ->
  prop "log" ps1 = VRef lg ->
  h4 !! lg = Some (Arr es) ->
  prop "_id" ps1 = VNum (Int n) ->
  dispatcher makeMove (GameReducer Actions game initial (VRef s)) name args h =
  Ok VUndef
     (h4 ++ [Arr (es ++ [VRef (S (S (length h)))]);
             Obj (after_make_move ps1 G' n (length h4))]) /\
  prop "G" (after_make_move ps1 G' n (length h4)) = G'.
Proof.
  intros Hmk Hs Hred Hs1 Hlog Hlg Hid.
  split; [|rewrite prop_after_make_move; reflexivity].
  set (h3 := h ++ [Arr args;
                   Obj [("type", VStr name); ("args", VRef (length h))];
                   Obj [("type", VStr (MAKE_MOVE Actions));
                        ("move", VRef (S (length h)))]]) in *.
  assert (Hl3 : forall k o, h !! k = Some o -> h3 !! k = Some o)
    by (intros k o Hk; apply lookup_app_l_Some; exact Hk).
  assert (Ha : h3 !! S (S (length h)) =
               Some (Obj [("type", VStr (MAKE_MOVE Actions));
                          ("move", VRef (S (length h)))])).
  { unfold h3. replace (S (S (length h))) with (length h + 2)%nat by lia.
    rewrite lookup_app_plus. reflexivity. }
  assert (Hrun := GameReducer_make_move Actions game initial h3 s ps
            (VRef (S (S (length h)))) (VRef (S (length h))) G' h4 ps1 lg es n
            (Hl3 _ _ Hs) (get_obj _ _ _ "type" Ha) (get_obj _ _ _ "move" Ha)
            Hred Hs1 Hlog Hlg Hid).
  unfold dispatcher.
  run (alloc_Ok (Arr args) h).
  run (alloc_Ok (Obj [("type", VStr name); ("args", VRef (length h))])
         (h ++ [Arr args])).
  rewrite (bind_Ok _ _ _ _ _ (Hmk _ _)). cbv beta.
  rewrite !length_app. simpl length.
  rewrite <- !app_assoc. simpl app.
  replace (length h + 1)%nat with (S (length h)) by lia.
  replace (S (length h) + 1)%nat with (S (S (length h))) by lia.
  fold h3. run Hrun. reflexivity.
Qed.

End DispatcherToReducer.

Lemma dispatcher_runs_reducer_on_named_move_witness :
  dispatcher Examples.wrap_move
    (GameReducer Demo.actions Demo.lead_game VUndef (VRef 3))
    "lead" [VStr "0"] Demo.heap0 =
  Ok VUndef
     ((Demo.heap0 ++
       [Arr [VStr "0"];
        Obj [("type", VStr "lead"); ("args", VRef 9)];
        Obj [("type", VStr "MAKE_MOVE"); ("move", VRef 10)]]) ++
      [Arr ([] ++ [VRef 11]);
       Obj (after_make_move Demo.state0 (VRef 10) 0 12)]) /\
  prop "G" (after_make_move Demo.state0 (VRef 10) 0 12) = VRef 10.
Proof.
  apply (dispatcher_runs_reducer_on_named_move Demo.actions Demo.lead_game
           VUndef Examples.wrap_move "lead" [VStr "0"] Demo.heap0 3%nat
           Demo.state0 (VRef 10)
           (Demo.heap0 ++
            [Arr [VStr "0"];
             Obj [("type", VStr "lead"); ("args", VRef 9)];
             Obj [("type", VStr "MAKE_MOVE"); ("move", VRef 10)]])
           Demo.state0 2%nat [] 0);
    reflexivity.
Defined.

(** ** Missing fields *)

Section MissingFields.
Variable Actions : ActionTypes.
Variables (game : Game) (initial : val).

(** X8: the default flow on a [ctx] with missing fields.  An
    [undefined] [ctx] stands for a new empty object.  On [END_TURN],
    when [ctx.currentPlayer] or [ctx.numPlayers] is missing, or
    [ctx.numPlayers] is 0, the new [currentPlayer] is the string
    ["NaN"]; when [ctx.turn] is missing, the new [turn] is [NaN]. *)
Theorem default_flow_on_missing_fields h c a G w h1 ps x y t :
  get a "type" h = Ok (VStr (END_TURN Actions)) h ->
  victory game G (VRef c) h = Ok w h1 ->
  h1 !! c = Some (Obj ps) ->
  ToNumber (prop "currentPlayer" ps) = Some x ->
  ToNumber (prop "numPlayers" ps) = Some y ->
  js_add (prop "turn" ps) (VNum (Int 1)) = Some t ->
  (forall a0 G0 h0,
      GameFlow Actions game VUndef a0 G0 h0 =
      GameFlow Actions game (VRef (length h0)) a0 G0 (h0 ++ [Obj []])) /\
  exists c' ps' h',
    GameFlow Actions game (VRef c) a G h = Ok (VRef c') h' /\
    h' !! c' = Some (Obj ps') /\
    (prop "currentPlayer" ps = VUndef \/
     prop "numPlayers" ps = VUndef \/
     prop "numPlayers" ps = VNum (Int 0) ->
     prop "currentPlayer" ps' = VStr "NaN") /\
    (prop "turn" ps = VUndef -> prop "turn" ps' = VNum NaN).
Proof.
  intros Hty Hv Hc Hx Hy Ht.
  split; [reflexivity|].
  pose proof (GameFlow_end_turn Actions game h c a G w h1 ps x y t
                Hty Hv Hc Hx Hy Ht) as Hrun.
  eexists _, _, _. split; [exact Hrun|].
  split; [apply lookup_alloc_new|].
  rewrite !prop_after_flow. simpl. split.
  - intros [H|[H|H]].
    + rewrite H in Hx. injection Hx as <-. destruct y; reflexivity.
    + rewrite H in Hy. injection Hy as <-. destruct x; reflexivity.
    + rewrite H in Hy. injection Hy as <-. destruct x; reflexivity.
  - intros H. rewrite H in Ht. injection Ht as <-. reflexivity.
Qed.

(** X9: a state without a [log].  When [state.log] is [undefined],
    [null], a boolean or a number as the spread [[...state.log, action]]
    is evaluated, which is after the game's [reducer], or its [flow],
    has returned, [MAKE_MOVE] and [END_TURN] throw. *)
Theorem transitions_throw_without_log :
  (forall h l ps a move G' h1 ps1,
      h !! l = Some (Obj ps) ->
      get a "type" h = Ok (VStr (MAKE_MOVE Actions)) h ->
      get a "move" h = Ok move h ->
      reducer game (prop "G" ps) move (prop "ctx" ps) h = Ok G' h1 ->
      h1 !! l = Some (Obj ps1) ->
      match prop "log" ps1 with VRef _ | VStr _ => False | _ => True end ->
      GameReducer Actions game initial (VRef l) a h = Throw) /\
  (forall h l ps a f ctx' h1 ps1,
      MAKE_MOVE Actions <> END_TURN Actions ->
      h !! l = Some (Obj ps) ->
      get a "type" h = Ok (VStr (END_TURN Actions)) h ->
      flow game = Some f ->
      f (prop "ctx" ps) a (prop "G" ps) h = Ok ctx' h1 ->
      h1 !! l = Some (Obj ps1) ->
      match prop "log" ps1 with VRef _ | VStr _ => False | _ => True end ->
      GameReducer Actions game initial (VRef l) a h = Throw).
Proof.
  split.
  - intros h l ps a move G' h1 ps1 Hl Hty Hmv Hred Hl1 Hlog.
    unfold GameReducer, default_param.
    run (eq_refl (ret (VRef l) h)).
    run Hty. rewrite strict_eq_str, String.eqb_refl.
    run (get_obj _ _ _ "G" Hl). run Hmv. run (get_obj _ _ _ "ctx" Hl).
    run Hred.
    run (get_obj _ _ _ "log" Hl1).
    destruct (prop "log" ps1); try contradiction; reflexivity.
  - intros h l ps a f ctx' h1 ps1 Hne Hl Hty Hf Hflow Hl1 Hlog.
    unfold GameReducer, default_param.
    run (eq_refl (ret (VRef l) h)).
    run Hty. rewrite !strict_eq_str, String.eqb_refl.
    apply not_eq_sym, String.eqb_neq in Hne. rewrite Hne.
    run (get_obj _ _ _ "ctx" Hl). run (get_obj _ _ _ "G" Hl).
    unfold call_flow. rewrite Hf. run Hflow.
    run (get_obj _ _ _ "log" Hl1).
    destruct (prop "log" ps1); try contradiction; reflexivity.
Qed.


End MissingFields.

Lemma default_flow_on_missing_fields_witness :
  (forall a0 G0 h0,
      GameFlow Demo.actions Demo.lead_game VUndef a0 G0 h0 =
      GameFlow Demo.actions Demo.lead_game (VRef (length h0)) a0 G0
        (h0 ++ [Obj []])) /\
  exists c' ps' h',
    GameFlow Demo.actions Demo.lead_game (VRef 8) (VRef 6) (VRef 5)
      Demo.heap0 = Ok (VRef c') h' /\
    h' !! c' = Some (Obj ps') /\
    (prop "currentPlayer" [("type", VStr "NOPE")] = VUndef \/
     prop "numPlayers" [("type", VStr "NOPE")] = VUndef \/
     prop "numPlayers" [("type", VStr "NOPE")] = VNum (Int 0) ->
     prop "currentPlayer" ps' = VStr "NaN") /\
    (prop "turn" [("type", VStr "NOPE")] = VUndef ->
     prop "turn" ps' = VNum NaN).
Proof.
  apply (default_flow_on_missing_fields Demo.actions Demo.lead_game
           Demo.heap0 8%nat (VRef 6) (VRef 5) (VStr "0") Demo.heap0
           [("type", VStr "NOPE")] NaN NaN (VNum NaN));
    reflexivity.
Defined.

Lemma transitions_throw_without_log_witness :
  GameReducer Demo.actions Demo.lead_game VUndef (VRef 8) (VRef 4)
    Demo.heap0 = Throw.
Proof.
  apply (proj1 (transitions_throw_without_log Demo.actions Demo.lead_game
                  VUndef)
           Demo.heap0 8%nat [("type", VStr "NOPE")] (VRef 4) (VRef 5)
           (VRef 5) Demo.heap0 [("type", VStr "NOPE")]);
    (reflexivity || exact I).
Defined.


(** ** What the snapshot loses *)

Section LossySnapshot.
Variable Actions : ActionTypes.

(** The snapshot, when the text of [G] is a primitive [j] that [build]
    turns into [v], or when [G] has no text. *)
Lemma build_initial_json_flat r n (h2 : heap) gps :
  (r = None /\ gps = []) \/
  (exists j v, r = Some j /\ gps = [("G", v)] /\
               forall h, build j h = Ok v h) ->
  build (initial_json r n) h2 =
  Ok (VRef (length h2 + 3))
     (h2 ++ snapshot_objects gps (VNum (Int n)) (length h2)).
Proof.
  intros Hr. unfold initial_json. rewrite build_JObj.
  destruct Hr as [[-> ->]|(j & v & -> & -> & Hb)]; simpl app.
  - run (build_snapshot_rest n h2).
    rewrite alloc_Ok, length_app, <- app_assoc. reflexivity.
  - rewrite build_props_cons, !bind_bind.
    run (Hb h2). rewrite !bind_bind.
    run (build_snapshot_rest n h2).
    rewrite bind_ret, alloc_Ok, length_app, <- app_assoc. reflexivity.
Qed.

Lemma createGameReducer_flat game np n h G h1 r gps :
  players np = VNum (Int n) ->
  setup game (VNum (Int n)) h = Ok G h1 ->
  ser (length h1) h1 G = Some r ->
  (r = None /\ gps = []) \/
  (exists j v, r = Some j /\ gps = [("G", v)] /\
               forall h, build j h = Ok v h) ->
  createGameReducer Actions (Some game) np h =
  Ok (install_flow Actions game, VRef (length h1 + 3))
     (initialized h1 G (VNum (Int n)) [] gps).
Proof.
  intros Hnp Hset Hser Hr.
  destruct (createGameReducer_Ok Actions game np n h G h1 r Hnp Hset Hser)
    as (ext & gps' & Hrun & Hbuild & _).
  rewrite (build_initial_json_flat r n _ gps Hr) in Hbuild.
  injection Hbuild as Hlen Hheap.
  rewrite length_app in Hlen. simpl length in Hlen.
  assert (Hext : ext = []) by (destruct ext; [reflexivity|simpl in Hlen; lia]).
  subst ext. apply app_inv_head in Hheap. simpl in Hheap.
  rewrite length_app in Hheap. simpl length in Hheap.
  rewrite Nat.add_0_r in Hheap.
  injection Hheap as Hgps. unfold snapshot_props in Hgps.
  assert (gps' = gps).
  { destruct Hr as [[_ ->]|(j & v & _ & -> & _)].
    - destruct gps' as [|p gps']; [reflexivity|].
      apply (f_equal (@length _)) in Hgps.
      rewrite !length_app in Hgps. simpl in Hgps. lia.
    - destruct gps' as [|p [|q gps']].
      + discriminate.
      + injection Hgps as Hp. subst p. reflexivity.
      + apply (f_equal (@length _)) in Hgps.
        rewrite !length_app in Hgps. simpl in Hgps. lia. }
  subst gps'. exact Hrun.
Qed.

(** X11: the snapshot is not always what [initial] is.  When [setup]
    returns [undefined], [initial] has the property [G], with the value
    [undefined], and the snapshot [initial._initial] has no property [G]
    at all; when [setup] returns [NaN], the [G] of the snapshot is
    [null]. *)
Theorem snapshot_loses_undefined_and_NaN game np n h G h1 :
  players np = VNum (Int n) ->
  setup game (VNum (Int n)) h = Ok G h1 ->
  G = VUndef \/ G = VNum NaN ->
  exists i ips snap sps h',
    createGameReducer Actions (Some game) np h =
    Ok (install_flow Actions game, VRef i) h' /\
    h' !! i = Some (Obj ips) /\
    lookup_prop "G" ips = Some G /\
    prop "_initial" ips = VRef snap /\
    h' !! snap = Some (Obj sps) /\
    lookup_prop "G" sps =
      match G with VUndef => None | _ => Some VNull end.
Proof.
  intros Hnp Hset HG.
  set (gps := match G with VUndef => [] | _ => [("G", VNull)] end).
  assert (Hrun : createGameReducer Actions (Some game) np h =
                 Ok (install_flow Actions game, VRef (length h1 + 3))
                    (initialized h1 G (VNum (Int n)) [] gps)).
  { destruct HG as [-> | ->].
    - apply (createGameReducer_flat game np n h VUndef h1 None);
        [assumption|assumption|destruct (length h1); reflexivity|left; auto].
    - apply (createGameReducer_flat game np n h (VNum NaN) h1 (Some JNull));
        [assumption|assumption|destruct (length h1); reflexivity|].
      right. exists JNull, VNull. auto. }
  eexists _, _, _, _, _. split; [exact Hrun|].
  split; [apply initialized_initial|].
  split; [reflexivity|]. split; [reflexivity|].
  split.
  - rewrite (initialized_snapshot h1 G (VNum (Int n)) [] gps 3). reflexivity.
  - unfold gps. destruct HG as [-> | ->]; reflexivity.
Qed.

End LossySnapshot.

Lemma snapshot_loses_undefined_and_NaN_witness :
  exists i ips snap sps h',
    createGameReducer Demo.actions (Some Examples.void_game) VUndef [] =
    Ok (install_flow Demo.actions Examples.void_game, VRef i) h' /\
    h' !! i = Some (Obj ips) /\
    lookup_prop "G" ips = Some VUndef /\
    prop "_initial" ips = VRef snap /\
    h' !! snap = Some (Obj sps) /\
    lookup_prop "G" sps = None.
Proof.
  apply (snapshot_loses_undefined_and_NaN Demo.actions Examples.void_game
           VUndef 2 [] VUndef []).
  - reflexivity.
  - reflexivity.
  - left. reflexivity.
Defined.



(** The run of [Demo.inplace_game] through a move and the end of a
    turn: the [_id] is 2 and the [log] has the two actions. *)
Example inplace_run_counts :
  match play Demo.actions (Some Demo.inplace_game) (VNum (Int 2))
          [Demo.lead (JStr "0"); Demo.end_turn] [] with
  | Ok st h =>
      Demo.returned (get st "_id" h) = Some (VNum (Int 2)) /\
      match get st "log" h with
      | Ok lg _ => Demo.returned (elements lg h) = Some [VRef 11; VRef 14]
      | _ => False
      end
  | _ => False
  end.
Proof. vm_compute. repeat split. Qed.

(** ** Transitions that return *)

Lemma build_object fs (h : heap) a h' :
  build (JObj fs) h = Ok a h' ->
  exists la aps, a = VRef la /\ h' !! la = Some (Obj aps).
Proof.
  rewrite build_JObj. intros H. apply bind_inv in H.
  destruct H as (ps & h1 & _ & H). injection H as <- <-.
  eexists _, _. split; [reflexivity|apply lookup_alloc_new].
Qed.

Section Progress.
Variables (F : loc -> Prop).
Variable Actions : ActionTypes.
Variables (game : Game) (initial : val) (f : val -> val -> val -> M val).
Hypothesis game_ok : game_confined F game.
Hypothesis own_flow : flow game = Some f.
Hypothesis reducer_returns : forall G move ctx h,
  exists v h', reducer game G move ctx h = Ok v h'.
Hypothesis flow_returns : forall ctx a G h,
  exists v h', f ctx a G h = Ok v h'.

(** On a state that keeps a journal, an action that is an object is
    answered with a state. *)
Lemma dispatch_returns P h s ps lg es fs :
  journal F P h s ps lg es ->
  exists st' h',
    dispatch Actions game initial (VRef s) (JObj fs) h = Ok st' h'.
Proof.
  intros Hj.
  destruct (build_spec (JObj fs) h) as (a & ea & Hb & Hc & Ha & _).
  destruct (build_object fs h a _ Hb) as (la & aps & -> & Hla).
  pose proof (journal_app F P h s ps lg es ea Hj Hc) as Hja.
  pose proof (jn_state _ _ _ _ _ _ _ Hja) as Hsa.
  pose proof (get_obj _ _ _ "type" Hla) as Hty.
  assert (Haps : forall x, In x (props_refs aps) ->
                           (length h <= x < length h + length ea)%nat).
  { intros x Hx. assert (Hge : (length h <= la)%nat)
      by (apply (Ha la); left; reflexivity).
    rewrite lookup_app_r in Hla by exact Hge.
    exact (Hc _ _ _ Hla Hx). }
  assert (Hkept : forall h1 : heap,
             (forall l, P l -> h1 !! l = h !! l) ->
             h1 !! s = Some (Obj ps) /\ h1 !! lg = Some (Arr es)).
  { intros h1 Hkeep. split.
    - rewrite (Hkeep s (jn_s _ _ _ _ _ _ _ Hj)).
      exact (jn_state _ _ _ _ _ _ _ Hj).
    - rewrite (Hkeep lg (jn_lg _ _ _ _ _ _ _ Hj)).
      exact (jn_entries _ _ _ _ _ _ _ Hj). }
  unfold dispatch. run Hb.
  destruct (strict_eq (prop "type" aps) (VStr (MAKE_MOVE Actions))) eqn:E1.
  { apply strict_eq_str_true in E1. rewrite E1 in Hty.
    destruct (reducer_returns (prop "G" ps) (prop "move" aps) (prop "ctx" ps)
                (h ++ ea)) as (G' & h1 & Hred).
    assert (HR : forall x,
               roots F [prop "G" ps; prop "move" aps; prop "ctx" ps] x ->
               roots F [prop "G" ps; prop "ctx" ps] x \/
               (length h <= x < length h + length ea)%nat).
    { intros x [Hx|[Hx|[Hx|[Hx|[]]]]].
      - left. left. exact Hx.
      - left. right. rewrite Hx. simpl. tauto.
      - right. apply Haps. apply (prop_refs "move"). rewrite Hx.
        left. reflexivity.
      - left. right. rewrite Hx. simpl. tauto. }
    destruct (journal_callback F P h s ps lg es ea _ _ G' h1 Hj Hc HR
                (reducer_confined F game game_ok _ _ _) Hred)
      as (_ & _ & _ & Hkeep & _).
    destruct (Hkept h1 Hkeep) as [Hs1 Hlg1].
    eexists _, _.
    exact (GameReducer_make_move Actions game initial (h ++ ea) s ps
             (VRef la) (prop "move" aps) G' h1 ps lg es _
             Hsa Hty (get_obj _ _ _ "move" Hla) Hred Hs1
             (jn_log _ _ _ _ _ _ _ Hj) Hlg1 (jn_id _ _ _ _ _ _ _ Hj)). }
  destruct (strict_eq (prop "type" aps) (VStr (END_TURN Actions))) eqn:E2.
  { apply strict_eq_str_true in E2. rewrite E2 in Hty, E1.
    rewrite strict_eq_str in E1. apply String.eqb_neq in E1.
    destruct (flow_returns (prop "ctx" ps) (VRef la) (prop "G" ps) (h ++ ea))
      as (ctx' & h1 & Hflow).
    assert (HR : forall x,
               roots F [prop "ctx" ps; VRef la; prop "G" ps] x ->
               roots F [prop "G" ps; prop "ctx" ps] x \/
               (length h <= x < length h + length ea)%nat).
    { intros x [Hx|[Hx|[Hx|[Hx|[]]]]].
      - left. left. exact Hx.
      - left. right. rewrite Hx. simpl. tauto.
      - right. apply (Ha x). injection Hx as ->. left. reflexivity.
      - left. right. rewrite Hx. simpl. tauto. }
    destruct (journal_callback F P h s ps lg es ea _ _ ctx' h1 Hj Hc HR
                (flow_confined F game game_ok f _ _ _ own_flow) Hflow)
      as (_ & _ & _ & Hkeep & _).
    destruct (Hkept h1 Hkeep) as [Hs1 Hlg1].
    eexists _, _.
    exact (GameReducer_end_turn Actions game initial (h ++ ea) s ps
             (VRef la) f ctx' h1 ps lg es _
             (not_eq_sym E1) Hsa Hty own_flow Hflow Hs1
             (jn_log _ _ _ _ _ _ _ Hj) Hlg1 (jn_id _ _ _ _ _ _ _ Hj)). }
  unfold GameReducer, default_param.
  run (eq_refl (ret (VRef s) (h ++ ea))).
  run Hty. rewrite E1, E2.
  destruct (strict_eq (prop "type" aps) (VStr (RESTORE Actions))).
  - rewrite (get_obj _ _ _ "state" Hla). eauto.
  - eexists _, _. reflexivity.
Qed.

Lemma dispatch_all_returns js : forall P h s ps lg es,
  journal F P h s ps lg es ->
  Forall (not_restore Actions) js ->
  Forall (fun j => exists fs, j = JObj fs) js ->
  exists st' h',
    dispatch_all Actions game initial (VRef s) js h = Ok st' h'.
Proof.
  induction js as [|j js IH]; intros P h s ps lg es Hj Hnr Hobj.
  - eexists _, _. reflexivity.
  - apply Forall_cons_iff in Hnr. destruct Hnr as [Hnr1 Hnr].
    apply Forall_cons_iff in Hobj. destruct Hobj as [[fs ->] Hobj].
    destruct (dispatch_returns P h s ps lg es fs Hj) as (st1 & h1 & Hstep).
    destruct (dispatch_journal F Actions game initial game_ok
                P h s ps lg es (JObj fs) st1 h1 Hj Hnr1 Hstep)
      as (s1 & ps1 & lg1 & es1 & P1 & -> & Hj1 & _ & _).
    destruct (IH P1 h1 s1 ps1 lg1 es1 Hj1 Hnr Hobj) as (st' & h' & Hrun).
    exists st', h'. simpl. run Hstep. exact Hrun.
Qed.

End Progress.

Section NoThrow.
Variable Actions : ActionTypes.


End NoThrow.

Lemma still_game_confined :
  game_confined (fun _ => False) Examples.still_game.
Proof.
  split; simpl.
  - intros np. apply confined_alloc. intros l [].
  - intros G move ctx. apply confined_ret. in_roots.
  - intros G ctx. apply confined_ret. intros l [].
  - intros f ctx a G Hf. injection Hf as <-. apply confined_ret. in_roots.
Qed.

